(** * arena: the two limit order books, [base_book_map] and [base_book_vector]

    A shallow embedding of [include/arena/base_book_map.hpp] and
    [include/arena/base_book_vector.hpp], followed by the round-robin
    [LoadBalancer] of [include/arena/probe.hpp] and the growable array of
    [include/arena/vector.hpp].

    - [uint64_t] ids are modelled in [N], [int64_t] prices and amounts in [Z].
      The books only compare and copy these numbers, no arithmetic is done on
      them, so no wrap-around can arise.
    - [std::unordered_map<uint64_t, order>] is a [gmap N order].
    - [std::map<int64_t, uint64_t, Compare>] is its in-order sequence of
      entries, a [list (Z * N)]; [begin()] is the head of the list.
    - [std::vector<price_level>] is a [list price_level], iterators are
      positions ([nat]), [end()] is the length.
    - Every member function that mutates the book takes the book and returns
      the result together with the new book.
    - [size_t] counters of [probe.hpp] and [vector.hpp] are modelled in [N]
      with the wrap-around at [2 ^ 64] written out.
    - The allocator of [vector.hpp] hands out a block of slots, each holding
      an object or nothing; allocation and the constructors of the elements
      are taken not to throw, so the [catch] blocks are not modelled. *)

From stdpp Require Import gmap list sorting.
From Stdlib Require Import ZArith Lia.

(** ** The order record (declared identically by both classes) *)

Record order := Order { id : N; price : Z; amount : Z }.

(** [static bool is_bid(int64_t amount) noexcept { return amount > 0; }] *)
Definition is_bid (amount : Z) : bool := (0 <? amount)%Z.

(** [std::greater<int64_t>] and [std::less<int64_t>]. *)
Definition greater (a b : Z) : bool := (b <? a)%Z.
Definition less (a b : Z) : bool := (a <? b)%Z.

(** The calls a client can make on a book. *)
Inductive request :=
| Place (value : order)
| Modify (value : order)
| Cancel (i : N).

(** ** base_book_map *)

Module BookMap.

(** In-order contents of a [std::map<int64_t, uint64_t, Compare>]. *)
Definition index := list (Z * N).

Section ordered_map.
Variable comp : Z → Z → bool.

(** [m.emplace(k, v)]: walk to the place of [k]; an entry with an
    equivalent key (neither [comp k' k] nor [comp k k']) blocks the
    insertion and the map is left as it is. *)
Fixpoint emplace (k : Z) (v : N) (m : index) : index :=
  match m with
  | [] => [(k, v)]
  | (k', v') :: m' =>
      if comp k' k then (k', v') :: emplace k v m'
      else if comp k k' then (k, v) :: m
      else m
  end.

(** The loop of [remove_from_book] over [m.equal_range(k)]: entries
    with [comp k' k] lie before [range.first], the first entry with
    [comp k k'] is [range.second]; inside the range the first entry
    whose mapped id is [i] is erased.  [None] is the [return false]
    after the loop. *)
Fixpoint erase_in_equal_range (k : Z) (i : N) (m : index) : option index :=
  match m with
  | [] => None
  | (k', v') :: m' =>
      if comp k' k then cons (k', v') <$> erase_in_equal_range k i m'
      else if comp k k' then None
      else if (v' =? i)%N then Some m'
      else cons (k', v') <$> erase_in_equal_range k i m'
  end.
End ordered_map.

Record book := Book {
  orders_ : gmap N order;
  bids_ : index;   (* std::map<int64_t, uint64_t, std::greater<int64_t>> *)
  asks_ : index    (* std::map<int64_t, uint64_t, std::less<int64_t>> *)
}.

Definition empty_book : book := Book ∅ [] [].

Definition set_orders (b : book) (os : gmap N order) : book :=
  Book os (bids_ b) (asks_ b).

(** [orders_.emplace(k, v)]: no effect when the key is present. *)
Definition orders_emplace (k : N) (v : order) (os : gmap N order) : gmap N order :=
  match os !! k with
  | Some _ => os
  | None => <[k := v]> os
  end.

Definition add_to_book (b : book) (value : order) : bool * book :=
  if is_bid (amount value) then
    (true, Book (orders_ b) (emplace greater (price value) (id value) (bids_ b)) (asks_ b))
  else
    (true, Book (orders_ b) (bids_ b) (emplace less (price value) (id value) (asks_ b))).

Definition remove_from_book (b : book) (value : order) : bool * book :=
  if is_bid (amount value) then
    match erase_in_equal_range greater (price value) (id value) (bids_ b) with
    | Some bids' => (true, Book (orders_ b) bids' (asks_ b))
    | None => (false, b)
    end
  else
    match erase_in_equal_range less (price value) (id value) (asks_ b) with
    | Some asks' => (true, Book (orders_ b) (bids_ b) asks')
    | None => (false, b)
    end.

Definition place (b : book) (value : order) : bool * book :=
  if (amount value =? 0)%Z || bool_decide (is_Some (orders_ b !! id value)) then
    (false, b)
  else
    let b1 := set_orders b (orders_emplace (id value) value (orders_ b)) in
    let '(added, b2) := add_to_book b1 value in
    if negb added then (false, set_orders b2 (delete (id value) (orders_ b2)))
    else (true, b2).

Definition cancel (b : book) (i : N) : bool * book :=
  match orders_ b !! i with
  | None => (false, b)
  | Some value =>
      let '(removed, b1) := remove_from_book b value in
      if negb removed then (false, b1)
      else (true, set_orders b1 (delete i (orders_ b1)))
  end.

Definition modify (b : book) (value : order) : bool * book :=
  if (amount value =? 0)%Z then cancel b (id value)
  else
    match orders_ b !! id value with
    | None => (false, b)
    | Some previous =>
        if eqb (is_bid (amount previous)) (is_bid (amount value))
           && (price previous =? price value)%Z
        then (true, set_orders b (<[id value := value]> (orders_ b)))
        else
          let '(removed, b1) := remove_from_book b previous in
          if negb removed then (false, b1)
          else
            let b2 := set_orders b1 (<[id value := value]> (orders_ b1)) in
            let '(added, b3) := add_to_book b2 value in
            if negb added then
              let b4 := set_orders b3 (<[id value := previous]> (orders_ b3)) in
              (false, (add_to_book b4 previous).2)
            else (true, b3)
    end.

Definition best_from_book (b : book) (m : index) : option order :=
  match m with
  | [] => None
  | (_, i) :: _ => orders_ b !! i
  end.

Definition best_bid (b : book) : option order := best_from_book b (bids_ b).
Definition best_ask (b : book) : option order := best_from_book b (asks_ b).

(** One client call, and a sequence of calls. *)
Definition step (b : book) (r : request) : bool * book :=
  match r with
  | Place value => place b value
  | Modify value => modify b value
  | Cancel i => cancel b i
  end.

Definition run (b : book) (rs : list request) : book :=
  foldl (λ b r, (step b r).2) b rs.

Definition reachable (b : book) : Prop := ∃ rs, b = run empty_book rs.

(** States built by [place] calls that returned [true] only. *)
Inductive placed : book → Prop :=
| placed_empty : placed empty_book
| placed_place b value b' :
    placed b → place b value = (true, b') → placed b'.

End BookMap.

(** ** base_book_vector *)

Module BookVector.

(** [struct price_level { int64_t price{}; std::vector<uint64_t> ids{}; }] *)
Module Level.
Record price_level := Make { price : Z; ids : list N }.
End Level.
Abbreviation price_level := Level.price_level.

(** [std::lower_bound(first, first + len, value, comp)] as the standard
    library writes it: halve the range until it is empty.  [fuel] bounds
    the number of iterations; [len] shrinks at every iteration, so
    [length levels] iterations are enough. *)
Fixpoint lower_bound_loop (comp : price_level → Z → bool)
    (levels : list price_level) (value : Z) (fuel first len : nat) : nat :=
  match fuel with
  | O => first
  | S fuel' =>
      if (len =? 0)%nat then first
      else
        let half := (len / 2)%nat in
        let middle := (first + half)%nat in
        match levels !! middle with
        | Some level =>
            if comp level value
            then lower_bound_loop comp levels value fuel' (S middle) (len - half - 1)
            else lower_bound_loop comp levels value fuel' first half
        | None => first
        end
  end.

Definition lower_bound (comp : price_level → Z → bool)
    (levels : list price_level) (value : Z) : nat :=
  lower_bound_loop comp levels value (length levels) 0 (length levels).

Definition find_bid_insert (levels : list price_level) (price : Z) : nat :=
  lower_bound (λ level value, greater (Level.price level) value) levels price.

Definition find_ask_insert (levels : list price_level) (price : Z) : nat :=
  lower_bound (λ level value, less (Level.price level) value) levels price.

(** [levels.insert(it, x)] *)
Definition vector_insert (it : nat) (x : price_level) (levels : list price_level)
  : list price_level :=
  take it levels ++ x :: drop it levels.

Section levels.
Variable find_insert : list price_level → Z → nat.

(** [ensure_bid_level] / [ensure_ask_level]: the vector after the call and
    the returned iterator. *)
Definition ensure_level (levels : list price_level) (price : Z)
  : list price_level * nat :=
  let it := find_insert levels price in
  match levels !! it with
  | Some level =>
      if negb (Level.price level =? price)%Z
      then (vector_insert it (Level.Make price []) levels, it)
      else (levels, it)
  | None => (vector_insert it (Level.Make price []) levels, it)
  end.

(** [find_bid_level] / [find_ask_level]; [length levels] is [levels.end()]. *)
Definition find_level (levels : list price_level) (price : Z) : nat :=
  let it := find_insert levels price in
  match levels !! it with
  | Some level => if (Level.price level =? price)%Z then it else length levels
  | None => length levels
  end.
End levels.

Definition ensure_bid_level := ensure_level find_bid_insert.
Definition ensure_ask_level := ensure_level find_ask_insert.
Definition find_bid_level := find_level find_bid_insert.
Definition find_ask_level := find_level find_ask_insert.

(** [it->ids.push_back(id)] *)
Definition push_back (i : N) (level : price_level) : price_level :=
  Level.Make (Level.price level) (Level.ids level ++ [i]).

(** The scan of [remove_id_from_level]: the first position holding [i]. *)
Fixpoint find_id (ids : list N) (i : N) : option nat :=
  match ids with
  | [] => None
  | x :: rest => if (x =? i)%N then Some O else S <$> find_id rest i
  end.

(** [level.ids[k] = level.ids.back(); level.ids.pop_back(); return true],
    or [return false] with the level untouched. *)
Definition remove_id_from_level (level : price_level) (i : N) : bool * price_level :=
  match find_id (Level.ids level) i with
  | Some k =>
      (true, Level.Make (Level.price level)
               (removelast (<[k := List.last (Level.ids level) i]> (Level.ids level))))
  | None => (false, level)
  end.

Record book := Book {
  orders_ : gmap N order;
  bids_ : list price_level;
  asks_ : list price_level
}.

Definition empty_book : book := Book ∅ [] [].

(** [orders_.emplace(k, v)]: no effect when the key is present. *)
Definition orders_emplace (k : N) (v : order) (os : gmap N order) : gmap N order :=
  match os !! k with
  | Some _ => os
  | None => <[k := v]> os
  end.

(** The text shared by the two branches of [place]:
    [auto it = ensure_..._level(levels, price); it->ids.push_back(id);] *)
Definition place_in_levels
    (ensure : list price_level → Z → list price_level * nat)
    (levels : list price_level) (price : Z) (i : N) : list price_level :=
  let '(levels', it) := ensure levels price in
  alter (push_back i) it levels'.

Definition place (b : book) (value : order) : bool * book :=
  if (amount value =? 0)%Z || bool_decide (is_Some (orders_ b !! id value)) then
    (false, b)
  else
    let b1 :=
      if is_bid (amount value) then
        Book (orders_ b)
             (place_in_levels ensure_bid_level (bids_ b) (price value) (id value))
             (asks_ b)
      else
        Book (orders_ b) (bids_ b)
             (place_in_levels ensure_ask_level (asks_ b) (price value) (id value)) in
    (true, Book (orders_emplace (id value) value (orders_ b1)) (bids_ b1) (asks_ b1)).

(** The text shared by the two branches of [cancel]: [None] is the
    [return false] (no level at the price, or the id is not in it);
    otherwise the id is removed from its level and an emptied level is
    erased. *)
Definition cancel_in_levels (find : list price_level → Z → nat)
    (levels : list price_level) (price : Z) (i : N) : option (list price_level) :=
  let level_it := find levels price in
  match levels !! level_it with
  | None => None
  | Some level =>
      let '(removed, level') := remove_id_from_level level i in
      if negb removed then None
      else
        match Level.ids level' with
        | [] => Some (delete level_it levels)
        | _ :: _ => Some (<[level_it := level']> levels)
        end
  end.

Definition cancel (b : book) (i : N) : bool * book :=
  match orders_ b !! i with
  | None => (false, b)
  | Some current =>
      if is_bid (amount current) then
        match cancel_in_levels find_bid_level (bids_ b) (price current) i with
        | None => (false, b)
        | Some bids' => (true, Book (delete i (orders_ b)) bids' (asks_ b))
        end
      else
        match cancel_in_levels find_ask_level (asks_ b) (price current) i with
        | None => (false, b)
        | Some asks' => (true, Book (delete i (orders_ b)) (bids_ b) asks')
        end
  end.

Definition modify (b : book) (value : order) : bool * book :=
  if (amount value =? 0)%Z then cancel b (id value)
  else if negb (bool_decide (is_Some (orders_ b !! id value))) then (false, b)
  else
    let '(cancelled, b1) := cancel b (id value) in
    if negb cancelled then (false, b1)
    else place b1 value.

Definition best_from_levels (b : book) (levels : list price_level) : option order :=
  match levels with
  | [] => None
  | front :: _ =>
      match Level.ids front with
      | [] => None
      | i :: _ => orders_ b !! i
      end
  end.

Definition best_bid (b : book) : option order := best_from_levels b (bids_ b).
Definition best_ask (b : book) : option order := best_from_levels b (asks_ b).

(** One client call, and a sequence of calls. *)
Definition step (b : book) (r : request) : bool * book :=
  match r with
  | Place value => place b value
  | Modify value => modify b value
  | Cancel i => cancel b i
  end.

Definition run (b : book) (rs : list request) : book :=
  foldl (λ b r, (step b r).2) b rs.

Definition reachable (b : book) : Prop := ∃ rs, b = run empty_book rs.

(** States built by [place] calls that returned [true] only. *)
Inductive placed : book → Prop :=
| placed_empty : placed empty_book
| placed_place b value b' :
    placed b → place b value = (true, b') → placed b'.

End BookVector.

(** * Invariants and vocabulary of the properties *)

(** What [std::map] and [std::lower_bound] ask of [Compare]: a strict
    order; on integers it is total. *)
Class Compare (comp : Z → Z → bool) := {
  comp_irrefl a : comp a a = false;
  comp_trans a b c : comp a b = true → comp b c = true → comp a c = true;
  comp_total a b : comp a b = false → comp b a = false → a = b
}.

Section map_vocabulary.
Import BookMap.

Section sorted_keys.
Variable comp : Z → Z → bool.

(** The representation invariant of [std::map]: keys strictly increasing
    for [comp]. *)
Definition keys_sorted (m : index) : Prop :=
  StronglySorted (λ e1 e2, comp e1.1 e2.1 = true) m.
End sorted_keys.

(** Every entry of a price index points to an active order of that price
    and side (the index-to-store half of the store/index agreement). *)
Definition index_wf (comp : Z → Z → bool) (side : bool)
    (os : gmap N order) (m : index) : Prop :=
  keys_sorted comp m ∧
  ∀ p i, (p, i) ∈ m →
    ∃ o, os !! i = Some o ∧ price o = p ∧ is_bid (amount o) = side.

(** Orders are stored under their own id and never with amount 0. *)
Definition store_wf (os : gmap N order) : Prop :=
  ∀ i o, os !! i = Some o → id o = i ∧ amount o ≠ 0%Z.

(** What every reachable ordered-map book satisfies. *)
Record map_book_wf (b : book) : Prop := MapBookWf {
  map_wf_store : store_wf (orders_ b);
  map_wf_bids : index_wf greater true (orders_ b) (bids_ b);
  map_wf_asks : index_wf less false (orders_ b) (asks_ b)
}.

(** No index entry carries the id [i]. *)
Definition unindexed (i : N) (b : book) : Prop :=
  ∀ p, ((p, i) ∉ bids_ b) ∧ ((p, i) ∉ asks_ b).

(** The order [o] is active under its id, with its price and side, and no
    index entry carries its id. *)
Definition stranded (o : order) (b : book) : Prop :=
  (∃ o', orders_ b !! id o = Some o' ∧ id o' = id o ∧ price o' = price o
         ∧ is_bid (amount o') = is_bid (amount o))
  ∧ unindexed (id o) b.
End map_vocabulary.

(** Both amounts are on the same side of the book: both bids or both asks. *)
Definition same_side (a1 a2 : Z) : Prop :=
  (0 < a1 ∧ 0 < a2)%Z ∨ (a1 < 0 ∧ a2 < 0)%Z.

Section vector_vocabulary.
Import BookVector.

Section sorted_levels.
Variable comp : Z → Z → bool.

(** How [find_bid_insert] and [find_ask_insert] compare a level with a
    price. *)
Definition level_comp (level : price_level) (value : Z) : bool :=
  comp (Level.price level) value.

(** The vector is kept strictly sorted by price. *)
Definition levels_sorted (levels : list price_level) : Prop :=
  StronglySorted (λ l1 l2, comp (Level.price l1) (Level.price l2) = true) levels.

(** The number of leading levels that compare before [value]: on a sorted
    vector, the position [std::lower_bound] returns. *)
Fixpoint partition_point (levels : list price_level) (value : Z) : nat :=
  match levels with
  | [] => O
  | level :: rest =>
      if level_comp level value then S (partition_point rest value) else O
  end.

(** [place_in_levels] and [cancel_in_levels] written as one pass over the
    vector; on sorted vectors the two agree with the code (lemmas
    [place_in_levels_sorted] and [cancel_in_levels_sorted]). *)
Fixpoint levels_add (p : Z) (i : N) (levels : list price_level)
  : list price_level :=
  match levels with
  | [] => [Level.Make p [i]]
  | level :: rest =>
      if level_comp level p then level :: levels_add p i rest
      else if (Level.price level =? p)%Z then push_back i level :: rest
      else Level.Make p [i] :: level :: rest
  end.

Fixpoint levels_remove (p : Z) (i : N) (levels : list price_level)
  : option (list price_level) :=
  match levels with
  | [] => None
  | level :: rest =>
      if level_comp level p then cons level <$> levels_remove p i rest
      else if (Level.price level =? p)%Z then
        let '(removed, level') := remove_id_from_level level i in
        if negb removed then None
        else
          match Level.ids level' with
          | [] => Some rest
          | _ :: _ => Some (level' :: rest)
          end
      else None
  end.
End sorted_levels.

(** The id [i] rests at price [p]. *)
Definition indexed (levels : list price_level) (p : Z) (i : N) : Prop :=
  ∃ level, level ∈ levels ∧ Level.price level = p ∧ i ∈ Level.ids level.

(** A level is never kept empty and holds an id at most once. *)
Definition level_ok (level : price_level) : Prop :=
  Level.ids level ≠ [] ∧ NoDup (Level.ids level).

(** A side of the book: sorted, no empty level, no id twice in a level, and
    every id resting at a price belongs to an active order of that price
    and side. *)
Definition levels_wf (comp : Z → Z → bool) (side : bool)
    (os : gmap N order) (levels : list price_level) : Prop :=
  levels_sorted comp levels ∧ Forall level_ok levels ∧
  ∀ p i, indexed levels p i →
    ∃ o, os !! i = Some o ∧ price o = p ∧ is_bid (amount o) = side.

(** The store and the two sides agree, in both directions. *)
Record vector_book_wf (b : book) : Prop := VectorBookWf {
  vector_wf_store : store_wf (orders_ b);
  vector_wf_bids : levels_wf greater true (orders_ b) (bids_ b);
  vector_wf_asks : levels_wf less false (orders_ b) (asks_ b);
  vector_wf_indexed : ∀ i o, orders_ b !! i = Some o →
    indexed (if is_bid (amount o) then bids_ b else asks_ b) (price o) i
}.

(** No level of either side holds the id [i]. *)
Definition unlisted (i : N) (b : book) : Prop :=
  ∀ level, level ∈ bids_ b ∨ level ∈ asks_ b → i ∉ Level.ids level.
End vector_vocabulary.

(** [o] is the value of some entry of the order store. *)
Definition active (os : gmap N order) (o : order) : Prop :=
  ∃ i, os !! i = Some o.

(** What [best_bid()] has to return: an active bid of the highest price, or
    nothing when no bid is active. *)
Definition best_bid_of (os : gmap N order) (r : option order) : Prop :=
  match r with
  | Some o =>
      active os o ∧ (0 < amount o)%Z ∧
      ∀ o', active os o' → (0 < amount o')%Z → (price o' ≤ price o)%Z
  | None => ∀ o', active os o' → ¬ (0 < amount o')%Z
  end.

(** What [best_ask()] has to return: an active ask of the lowest price, or
    nothing when no ask is active. *)
Definition best_ask_of (os : gmap N order) (r : option order) : Prop :=
  match r with
  | Some o =>
      active os o ∧ (amount o < 0)%Z ∧
      ∀ o', active os o' → (amount o' < 0)%Z → (price o ≤ price o')%Z
  | None => ∀ o', active os o' → ¬ (amount o' < 0)%Z
  end.

(** The same for a side given by its comparator. *)
Definition side_best (comp : Z → Z → bool) (side : bool)
    (os : gmap N order) (r : option order) : Prop :=
  match r with
  | Some o =>
      active os o ∧ is_bid (amount o) = side ∧
      ∀ o', active os o' → is_bid (amount o') = side →
            comp (price o') (price o) = false
  | None => ∀ o', active os o' → is_bid (amount o') ≠ side
  end.

(** ** The callers: the body of the benchmark [place-1k-cancel] *)

(** The id a call is about. *)
Definition request_id (r : request) : N :=
  match r with
  | Place value => id value
  | Modify value => id value
  | Cancel i => i
  end.

(** [for(auto const &order : orders) book.place(order);
     for(auto const &order : orders) book.cancel(order.id);]
    with the results of the calls kept, in call order. *)
Module BookMapBench.
Import BookMap.

Fixpoint place_all (b : book) (orders : list order) : list bool * book :=
  match orders with
  | [] => ([], b)
  | value :: rest =>
      let '(r, b1) := place b value in
      let '(rs, b2) := place_all b1 rest in
      (r :: rs, b2)
  end.

Fixpoint cancel_all (b : book) (orders : list order) : list bool * book :=
  match orders with
  | [] => ([], b)
  | value :: rest =>
      let '(r, b1) := cancel b (id value) in
      let '(rs, b2) := cancel_all b1 rest in
      (r :: rs, b2)
  end.

Definition place_cancel (b : book) (orders : list order) : list bool * book :=
  let '(placed, b1) := place_all b orders in
  let '(cancelled, b2) := cancel_all b1 orders in
  (placed ++ cancelled, b2).
End BookMapBench.

Module BookVectorBench.
Import BookVector.

Fixpoint place_all (b : book) (orders : list order) : list bool * book :=
  match orders with
  | [] => ([], b)
  | value :: rest =>
      let '(r, b1) := place b value in
      let '(rs, b2) := place_all b1 rest in
      (r :: rs, b2)
  end.

Fixpoint cancel_all (b : book) (orders : list order) : list bool * book :=
  match orders with
  | [] => ([], b)
  | value :: rest =>
      let '(r, b1) := cancel b (id value) in
      let '(rs, b2) := cancel_all b1 rest in
      (r :: rs, b2)
  end.

Definition place_cancel (b : book) (orders : list order) : list bool * book :=
  let '(placed, b1) := place_all b orders in
  let '(cancelled, b2) := cancel_all b1 orders in
  (placed ++ cancelled, b2).
End BookVectorBench.

(** ** probe.hpp: the round-robin load balancer *)

Module Probe.

(** [struct RoundRobinPolicy { size_t index_ = 0u; }]; [size_t] has 64
    bits. *)
Record RoundRobinPolicy := Policy { index_ : N }.

(** [auto const last = index_++; if(index_ == size) index_ = 0;
     return last;] *)
Definition next_index (policy : RoundRobinPolicy) (size : N)
  : N * RoundRobinPolicy :=
  let last := index_ policy in
  let index1 := ((index_ policy + 1) mod 2 ^ 64)%N in
  (last, Policy (if (index1 =? size)%N then 0%N else index1)).

Section load_balancer.
Variable T : Type.

(** [std::vector<T> data_; Policy policy_;] *)
Record LoadBalancer := Balancer {
  data_ : list T;
  policy_ : RoundRobinPolicy
}.

(** [LoadBalancer() = default] *)
Definition create : LoadBalancer := Balancer [] (Policy 0).

Definition AddResource (lb : LoadBalancer) (item : T) : LoadBalancer :=
  Balancer (data_ lb ++ [item]) (policy_ lb).

(** [data_.size()] is taken as the length of the list (a [std::vector]
    holds fewer than [2 ^ 64] items); [data_[i]] is the list lookup, so a
    read past the end, undefined in the source, shows as [None]. *)
Definition GetResource (lb : LoadBalancer) : option T * LoadBalancer :=
  match data_ lb with
  | [] => (None, lb)
  | _ :: _ =>
      let '(i, policy) :=
        next_index (policy_ lb) (N.of_nat (length (data_ lb))) in
      (data_ lb !! N.to_nat i, Balancer (data_ lb) policy)
  end.

(** The calls of a client, and [n] calls of [GetResource] in a row with
    what they returned. *)
Inductive call := Add (item : T) | Get.

Definition step (lb : LoadBalancer) (c : call) : LoadBalancer :=
  match c with
  | Add item => AddResource lb item
  | Get => (GetResource lb).2
  end.

Definition run (lb : LoadBalancer) (cs : list call) : LoadBalancer :=
  foldl step lb cs.

Fixpoint get_n (n : nat) (lb : LoadBalancer) : list (option T) * LoadBalancer :=
  match n with
  | O => ([], lb)
  | S n' =>
      let '(r, lb1) := GetResource lb in
      let '(rs, lb2) := get_n n' lb1 in
      (r :: rs, lb2)
  end.
End load_balancer.

Arguments Balancer {T} _ _.
Arguments data_ {T} _.
Arguments policy_ {T} _.
Arguments create {T}.
Arguments AddResource {T} _ _.
Arguments GetResource {T} _.
Arguments Add {T} _.
Arguments Get {T}.
Arguments step {T} _ _.
Arguments run {T} _ _.
Arguments get_n {T} _ _.

End Probe.

(** The position of the policy is inside the data, or the balancer holds
    nothing and the position is 0. *)
Definition probe_wf {T : Type} (lb : Probe.LoadBalancer T) : Prop :=
  (Probe.index_ (Probe.policy_ lb) < N.of_nat (length (Probe.data_ lb)))%N
  ∨ (Probe.index_ (Probe.policy_ lb) = 0%N ∧ Probe.data_ lb = []).

(** ** vector.hpp: the growable array *)

Module ArenaVector.
Section vector.
Variable T : Type.

(** Storage handed out by the allocator: one slot per element, holding a
    constructed object or nothing. *)
Abbreviation block := (list (option T)).

(** [T *data = nullptr; size_t capacity = 0u; size_t size = 0u;] with a
    null [data] as [None]; [size_t] has 64 bits.  Every buffer owns its
    block, so the block is kept in the record. *)
Record vector_buffer := Buffer {
  data : option block;
  capacity : N;
  size : N
}.

(** [traits::allocate(allr, n)], [traits::construct(allr, data + i, item)]
    and [traits::destroy(allr, data + i)].  A slot outside the block,
    undefined in the source, is left alone here. *)
Definition allocate (n : N) : block := replicate (N.to_nat n) None.

Definition construct (d : block) (i : N) (item : T) : block :=
  <[N.to_nat i := Some item]> d.

Definition destroy (d : block) (i : N) : block :=
  <[N.to_nat i := None]> d.

(** [*(data + i)]: reading through a null pointer, past the block or from
    a slot without an object, undefined in the source, shows as [None]. *)
Definition at_ (d : option block) (i : N) : option T :=
  match d with
  | None => None
  | Some d =>
      match d !! N.to_nat i with
      | Some (Some item) => Some item
      | _ => None
      end
  end.

(** [for(; n != last; ++n) traits::construct(allr, data + n, *(src + n));]
    with [count] the number of rounds left. *)
Fixpoint construct_from (src : option block) (d : block) (n : N) (count : nat)
  : block :=
  match count with
  | O => d
  | S count' =>
      match at_ src n with
      | Some item => construct_from src (construct d n item) (n + 1) count'
      | None => construct_from src d (n + 1) count'
      end
  end.

(** [std::copy_n(src, count, data)]: the first [count] objects are
    assigned from [src]. *)
Definition copy_n (src : option block) (count : N) (d : block) : block :=
  construct_from src d 0 (N.to_nat count).

(** [for(size_t n = first; n != last; ++n) traits::destroy(allr, data + n);] *)
Fixpoint destroy_from (d : block) (n : N) (count : nat) : block :=
  match count with
  | O => d
  | S count' => destroy_from (destroy d n) (n + 1) count'
  end.

(** [vector_buffer() noexcept = default] *)
Definition empty_buffer : vector_buffer := Buffer None 0 0.

(** [clear()] *)
Definition clear (b : vector_buffer) : vector_buffer := Buffer None 0 0.

(** [reallocate(new_capacity)]: the objects are moved to a new block, the
    old block is destroyed and freed by [cleanup()]. *)
Definition reallocate (b : vector_buffer) (new_capacity : N) : vector_buffer :=
  let new_data :=
    construct_from (data b) (allocate new_capacity) 0 (N.to_nat (size b)) in
  Buffer (Some new_data) new_capacity (size b).

(** [vector_buffer(vector_buffer const &other)] *)
Definition copy_construct (other : vector_buffer) : vector_buffer :=
  match data other with
  | None => Buffer None 0 0
  | Some _ =>
      Buffer
        (Some (construct_from (data other) (allocate (capacity other)) 0
                 (N.to_nat (size other))))
        (capacity other) (size other)
  end.

(** [vector_buffer(vector_buffer &&other)]: the new buffer and what is
    left of [other]. *)
Definition move_construct (other : vector_buffer)
  : vector_buffer * vector_buffer :=
  (Buffer (data other) (capacity other) (size other), clear other).

(** [operator=(vector_buffer const &other)].  In the branch
    [size < other.size] the source assigns [size] only when a constructor
    throws. *)
Definition copy_assign (b other : vector_buffer) : vector_buffer :=
  let b1 :=
    if (capacity b <? size other)%N
    then Buffer (Some (allocate (capacity other))) (capacity other) 0
    else b in
  if (size other <? size b1)%N then
    Buffer
      (option_map
         (λ d, destroy_from (copy_n (data other) (size other) d) (size other)
                 (N.to_nat (size b1 - size other)))
         (data b1))
      (capacity b1) (size other)
  else if (size b1 <? size other)%N then
    Buffer
      (option_map
         (λ d, construct_from (data other) (copy_n (data other) (size b1) d)
                 (size b1) (N.to_nat (size other - size b1)))
         (data b1))
      (capacity b1) (size b1)
  else
    Buffer (option_map (copy_n (data other) (size b1)) (data b1))
      (capacity b1) (size b1).

(** [class vector { detail::vector_buffer<T, A> buffer_; ... }] *)
Record vector := Vec { buffer_ : vector_buffer }.

Definition empty_vector : vector := Vec empty_buffer.

Definition empty (v : vector) : bool := (size (buffer_ v) =? 0)%N.

Definition front (v : vector) : option T := at_ (data (buffer_ v)) 0.

(** [buffer_.data[buffer_.size - 1]]; the index wraps around on an empty
    vector. *)
Definition back (v : vector) : option T :=
  at_ (data (buffer_ v)) ((size (buffer_ v) + 2 ^ 64 - 1) mod 2 ^ 64)%N.

Definition pop_back (v : vector) : vector :=
  let b := buffer_ v in
  if (size b =? 0)%N then v
  else
    let size1 := (size b - 1)%N in
    Vec (Buffer (option_map (λ d, destroy d size1) (data b)) (capacity b) size1).

Definition push_back (v : vector) (item : T) : vector :=
  let b := buffer_ v in
  let b1 :=
    if (size b =? capacity b)%N
    then reallocate b (((capacity b * 3) mod 2 ^ 64 / 2 + 16) mod 2 ^ 64)%N
    else b in
  Vec (Buffer (option_map (λ d, construct d (size b1) item) (data b1))
         (capacity b1) ((size b1 + 1) mod 2 ^ 64)%N).

(** The calls of a client that grow and shrink one vector. *)
Inductive call := Push (item : T) | Pop.

Definition step (v : vector) (c : call) : vector :=
  match c with
  | Push item => push_back v item
  | Pop => pop_back v
  end.

Definition run (v : vector) (cs : list call) : vector := foldl step v cs.
End vector.

Arguments Buffer {T} _ _ _.
Arguments data {T} _.
Arguments capacity {T} _.
Arguments size {T} _.
Arguments allocate {T} _.
Arguments construct {T} _ _ _.
Arguments destroy {T} _ _.
Arguments at_ {T} _ _.
Arguments construct_from {T} _ _ _ _.
Arguments copy_n {T} _ _ _.
Arguments destroy_from {T} _ _ _.
Arguments empty_buffer {T}.
Arguments clear {T} _.
Arguments reallocate {T} _ _.
Arguments copy_construct {T} _.
Arguments move_construct {T} _.
Arguments copy_assign {T} _ _.
Arguments Vec {T} _.
Arguments buffer_ {T} _.
Arguments empty_vector {T}.
Arguments empty {T} _.
Arguments front {T} _.
Arguments back {T} _.
Arguments pop_back {T} _.
Arguments push_back {T} _ _.
Arguments Push {T} _.
Arguments Pop {T}.
Arguments step {T} _ _.
Arguments run {T} _ _.

End ArenaVector.

(** A buffer holds the elements [l]: [size] is their number, the block has
    [capacity] slots ([capacity] is a [size_t]), the first [size] of them
    carry the elements in order and the others carry nothing. *)
Definition holds {T} (b : ArenaVector.vector_buffer T) (l : list T) : Prop :=
  ArenaVector.size b = N.of_nat (length l) ∧
  (ArenaVector.size b ≤ ArenaVector.capacity b)%N ∧
  (ArenaVector.capacity b < 2 ^ 64)%N ∧
  match ArenaVector.data b with
  | None => ArenaVector.capacity b = 0%N
  | Some d =>
      d = (Some <$> l)
          ++ replicate (N.to_nat (ArenaVector.capacity b) - length l) None
  end.

(** What a sequence of calls does to the elements as a list. *)
Definition elements_step {T} (l : list T) (c : ArenaVector.call T) : list T :=
  match c with
  | ArenaVector.Push item => l ++ [item]
  | ArenaVector.Pop => removelast l
  end.

Definition elements_after {T} (cs : list (ArenaVector.call T)) : list T :=
  foldl elements_step [] cs.

(** The test cases of [TEST_SUITE("base_book_map")]. *)
Module BookMapTests.
Import BookMap.

Example map_place_and_best_bid :
  let '(r, b) := place empty_book (Order 1 100 5) in
  r = true ∧ best_bid b = Some (Order 1 100 5) ∧ best_ask b = None.
Proof. vm_compute. done. Qed.

Example map_place_and_best_ask :
  let '(r, b) := place empty_book (Order 2 101 (-3)) in
  r = true ∧ best_ask b = Some (Order 2 101 (-3)) ∧ best_bid b = None.
Proof. vm_compute. done. Qed.

Example map_best_prices_follow_ordering :
  let b := run empty_book
    [Place (Order 1 100 5); Place (Order 2 99 7); Place (Order 3 101 1)] in
  best_bid b = Some (Order 3 101 1) ∧
  best_ask (run b [Place (Order 4 102 (-2)); Place (Order 5 98 (-4))])
    = Some (Order 5 98 (-4)).
Proof. vm_compute. done. Qed.

Example map_modify_moves_order_between_levels :
  let b := run empty_book [Place (Order 1 100 5); Place (Order 2 99 7)] in
  let '(r1, b1) := modify b (Order 2 101 7) in
  let '(r2, b2) := modify b1 (Order 2 90 (-6)) in
  r1 = true ∧ best_bid b1 = Some (Order 2 101 7) ∧
  r2 = true ∧ best_ask b2 = Some (Order 2 90 (-6)).
Proof. vm_compute. done. Qed.

Example map_cancel_removes_orders :
  let b := run empty_book [Place (Order 1 100 5); Place (Order 2 101 (-3))] in
  let '(r1, b1) := cancel b 1 in
  let '(r2, b2) := cancel b1 2 in
  r1 = true ∧ best_bid b1 = None ∧ r2 = true ∧ best_ask b2 = None.
Proof. vm_compute. done. Qed.
End BookMapTests.

(** The test cases of [TEST_SUITE("base_book_vector")]. *)
Module BookVectorTests.
Import BookVector.

Example vector_place_and_best_bid :
  let '(r, b) := place empty_book (Order 1 100 5) in
  r = true ∧ best_bid b = Some (Order 1 100 5) ∧ best_ask b = None.
Proof. vm_compute. done. Qed.

Example vector_place_and_best_ask :
  let '(r, b) := place empty_book (Order 2 101 (-3)) in
  r = true ∧ best_ask b = Some (Order 2 101 (-3)) ∧ best_bid b = None.
Proof. vm_compute. done. Qed.

Example vector_best_prices_follow_ordering :
  let b := run empty_book
    [Place (Order 1 100 5); Place (Order 2 99 7); Place (Order 3 101 1)] in
  best_bid b = Some (Order 3 101 1) ∧
  best_ask (run b [Place (Order 4 102 (-2)); Place (Order 5 98 (-4))])
    = Some (Order 5 98 (-4)).
Proof. vm_compute. done. Qed.

Example vector_modify_moves_order_between_levels :
  let b := run empty_book [Place (Order 1 100 5); Place (Order 2 99 7)] in
  let '(r1, b1) := modify b (Order 2 101 7) in
  let '(r2, b2) := modify b1 (Order 2 90 (-6)) in
  r1 = true ∧ best_bid b1 = Some (Order 2 101 7) ∧
  r2 = true ∧ best_ask b2 = Some (Order 2 90 (-6)).
Proof. vm_compute. done. Qed.

Example vector_cancel_removes_orders :
  let b := run empty_book [Place (Order 1 100 5); Place (Order 2 101 (-3))] in
  let '(r1, b1) := cancel b 1 in
  let '(r2, b2) := cancel b1 2 in
  r1 = true ∧ best_bid b1 = None ∧ r2 = true ∧ best_ask b2 = None.
Proof. vm_compute. done. Qed.
End BookVectorTests.

(** * Properties *)

(** ** The comparators *)

#[global] Instance greater_compare : Compare greater.
Proof. split; unfold greater; intros; lia. Qed.

#[global] Instance less_compare : Compare less.
Proof. split; unfold less; intros; lia. Qed.

Lemma comp_asym `{Compare comp} a b : comp a b = true → comp b a = false.
Proof.
  intros Hab. destruct (comp b a) eqn:Hba; [|done].
  rewrite <- (comp_irrefl a). symmetry. by apply (comp_trans a b a).
Qed.

Lemma comp_ne `{Compare comp} a b : comp a b = true → a ≠ b.
Proof. intros Hab ->. by rewrite comp_irrefl in Hab. Qed.

(** ** The ordered map as a sorted list of entries *)

Section ordered_map_facts.
Import BookMap.
Context (comp : Z → Z → bool) `{!Compare comp}.

Lemma keys_sorted_nil : keys_sorted comp [].
Proof. constructor. Qed.

Lemma keys_sorted_cons e m :
  keys_sorted comp (e :: m) ↔ keys_sorted comp m ∧ ∀ e', e' ∈ m → comp e.1 e'.1 = true.
Proof.
  unfold keys_sorted. split.
  - intros Hs. apply StronglySorted_inv in Hs as [Hm Hall].
    split; [done|]. by apply Forall_forall.
  - intros [Hm Hall]. constructor; [done|]. by apply Forall_forall.
Qed.

Lemma keys_sorted_unique m k v v' :
  keys_sorted comp m → (k, v) ∈ m → (k, v') ∈ m → v = v'.
Proof.
  induction m as [|e m IH]; intros Hs Hv Hv'; [by apply elem_of_nil in Hv|].
  apply keys_sorted_cons in Hs as [Hm Hhd].
  apply elem_of_cons in Hv as [Heq|Hv]; apply elem_of_cons in Hv' as [Heq'|Hv'].
  - congruence.
  - subst e. apply Hhd in Hv'. simpl in Hv'. by rewrite comp_irrefl in Hv'.
  - subst e. apply Hhd in Hv. simpl in Hv. by rewrite comp_irrefl in Hv.
  - by apply IH.
Qed.

Lemma emplace_sorted k v m : keys_sorted comp m → keys_sorted comp (emplace comp k v m).
Proof.
  induction m as [|[k' v'] m IH]; intros Hs; simpl.
  - apply keys_sorted_cons. split; [constructor|]. intros e' He'.
    by apply elem_of_nil in He'.
  - destruct (comp k' k) eqn:Hk'k.
    + pose proof Hs as Hs'. apply keys_sorted_cons in Hs' as [Hm Hhd].
      apply keys_sorted_cons. split; [by apply IH|].
      intros e' He'. simpl.
      assert (e' = (k, v) ∨ e' ∈ m) as [->|Hin]; [|done|by apply Hhd].
      clear -He'. induction m as [|[k1 v1] m IHm]; simpl in He'.
      * apply list_elem_of_singleton in He'. by left.
      * destruct (comp k1 k).
        -- apply elem_of_cons in He' as [->|He']; [right; left|].
           destruct (IHm He') as [->|?]; [by left|right; by right].
        -- destruct (comp k k1); [|by right].
           apply elem_of_cons in He' as [->|He']; [by left|by right].
    + destruct (comp k k') eqn:Hkk'; [|done].
      apply keys_sorted_cons. split; [done|].
      intros e' He'. simpl.
      apply elem_of_cons in He' as [->|He']; [done|].
      apply keys_sorted_cons in Hs as [_ Hhd].
      eapply comp_trans; [exact Hkk'|]. by apply (Hhd e').
Qed.

(** Membership after [emplace]: the new entry goes in exactly when the key
    was free. *)
Lemma elem_of_emplace k v m e :
  keys_sorted comp m →
  e ∈ emplace comp k v m ↔ e ∈ m ∨ (e = (k, v) ∧ ∀ v', (k, v') ∉ m).
Proof.
  induction m as [|[k' v'] m IH]; intros Hs; simpl.
  - rewrite list_elem_of_singleton. split; [intros ->; right|].
    + split; [done|]. intros v' Hv'. by apply elem_of_nil in Hv'.
    + intros [He|[-> _]]; [by apply elem_of_nil in He|done].
  - pose proof Hs as Hs'. apply keys_sorted_cons in Hs' as [Hm Hhd].
    destruct (comp k' k) eqn:Hk'k.
    + rewrite !elem_of_cons, IH by done. split.
      * intros [->|[He|[-> Hfree]]]; [left; by left|left; by right|right].
        split; [done|]. intros v0 [Heq|Hv0]%elem_of_cons; [|by eapply Hfree].
        injection Heq as -> ->. by rewrite comp_irrefl in Hk'k.
      * intros [[->|He]|[-> Hfree]]; [by left|right; by left|right; right].
        split; [done|]. intros v0 Hv0. eapply Hfree. by right.
    + destruct (comp k k') eqn:Hkk'.
      * rewrite !elem_of_cons. split.
        -- intros [->|[->|He]]; [right|left; by left|left; by right].
           split; [done|]. intros v0 [Heq|Hv0]%elem_of_cons.
           ++ injection Heq as -> ->. by rewrite comp_irrefl in Hkk'.
           ++ apply Hhd in Hv0. simpl in Hv0.
              by rewrite (comp_asym _ _ Hv0) in Hkk'.
        -- intros [[->|He]|[-> _]]; [right; by left|right; by right|by left].
      * assert (k = k') as <- by by apply comp_total.
        split; [by left|]. intros [He|[_ Hfree]]; [done|].
        exfalso. eapply Hfree. by left.
Qed.

Lemma emplace_occupied k v v' m :
  keys_sorted comp m → (k, v') ∈ m → emplace comp k v m = m.
Proof.
  induction m as [|[k' v0] m IH]; intros Hs Hin; simpl; [by apply elem_of_nil in Hin|].
  apply keys_sorted_cons in Hs as [Hm Hhd].
  apply elem_of_cons in Hin as [Heq|Hin].
  - injection Heq as <- <-. by rewrite comp_irrefl.
  - pose proof (Hhd _ Hin) as Hlt. simpl in Hlt.
    rewrite Hlt. f_equal. by apply IH.
Qed.

Lemma erase_Some k i m m' :
  keys_sorted comp m → erase_in_equal_range comp k i m = Some m' →
  (k, i) ∈ m ∧ keys_sorted comp m' ∧ ∀ e, e ∈ m' ↔ e ∈ m ∧ e ≠ (k, i).
Proof.
  revert m'. induction m as [|[k' v'] m IH]; intros m' Hs Her; simpl in Her; [done|].
  pose proof Hs as Hs'. apply keys_sorted_cons in Hs' as [Hm Hhd].
  assert (∀ m1, erase_in_equal_range comp k i m = Some m1 → (k', v') ≠ (k, i) →
    (k, i) ∈ (k', v') :: m ∧ keys_sorted comp ((k', v') :: m1) ∧
    ∀ e, e ∈ (k', v') :: m1 ↔ e ∈ (k', v') :: m ∧ e ≠ (k, i)) as Hskip.
  { intros m1 Hm1 Hne. destruct (IH m1 Hm Hm1) as (Hin & Hs1 & Hiff).
    split; [by right|]. split.
    - apply keys_sorted_cons. split; [done|].
      intros e' He'. apply Hhd. by apply Hiff.
    - intros e. rewrite !elem_of_cons, Hiff. intuition congruence. }
  destruct (comp k' k) eqn:Hk'k.
  { destruct (erase_in_equal_range comp k i m) as [m1|] eqn:Hm1; [|done].
    injection Her as <-. apply Hskip; [done|].
    intros [= -> ->]. by rewrite comp_irrefl in Hk'k. }
  destruct (comp k k') eqn:Hkk'; [done|].
  assert (k = k') as <- by by apply comp_total.
  destruct (v' =? i)%N eqn:Hv.
  - apply N.eqb_eq in Hv as ->. injection Her as <-.
    split; [by left|]. split; [done|].
    intros e. rewrite elem_of_cons. split; [|intuition congruence].
    intros He. split; [by right|]. intros ->.
    apply Hhd in He. simpl in He. by rewrite comp_irrefl in He.
  - apply N.eqb_neq in Hv.
    destruct (erase_in_equal_range comp k i m) as [m1|] eqn:Hm1; [|done].
    injection Her as <-. apply Hskip; [done|]. congruence.
Qed.

Lemma erase_None k i m :
  keys_sorted comp m → erase_in_equal_range comp k i m = None → (k, i) ∉ m.
Proof.
  induction m as [|[k' v'] m IH]; intros Hs Her; simpl in Her.
  { apply not_elem_of_nil. }
  apply keys_sorted_cons in Hs as [Hm Hhd].
  apply not_elem_of_cons.
  destruct (comp k' k) eqn:Hk'k.
  { destruct (erase_in_equal_range comp k i m) eqn:Hm1; [done|].
    split; [|by apply IH]. intros [= -> ->]. by rewrite comp_irrefl in Hk'k. }
  destruct (comp k k') eqn:Hkk'.
  { split; [intros [= -> ->]; by rewrite comp_irrefl in Hkk'|].
    intros Hin. apply Hhd in Hin. simpl in Hin.
    by rewrite (comp_asym _ _ Hkk') in Hin. }
  assert (k = k') as <- by by apply comp_total.
  destruct (v' =? i)%N eqn:Hv; [done|]. apply N.eqb_neq in Hv.
  split; [congruence|].
  intros Hin. apply Hhd in Hin. simpl in Hin. by rewrite comp_irrefl in Hin.
Qed.

Lemma erase_present k i m :
  keys_sorted comp m → (k, i) ∈ m → is_Some (erase_in_equal_range comp k i m).
Proof.
  intros Hs Hin. destruct (erase_in_equal_range comp k i m) eqn:Her; [done|].
  by apply erase_None in Her.
Qed.

(** Inserting at a free key and erasing again gives the map back. *)
Lemma erase_emplace k v m :
  (∀ v', (k, v') ∉ m) →
  erase_in_equal_range comp k v (emplace comp k v m) = Some m.
Proof.
  induction m as [|[k' v'] m IH]; intros Hfree; simpl.
  - by rewrite comp_irrefl, N.eqb_refl.
  - destruct (comp k' k) eqn:Hk'k; simpl.
    + rewrite Hk'k, IH; [done|]. intros v0 Hv0. eapply Hfree. by right.
    + destruct (comp k k') eqn:Hkk'; simpl.
      * by rewrite comp_irrefl, N.eqb_refl.
      * assert (k = k') as <- by by apply comp_total.
        exfalso. eapply Hfree. by left.
Qed.

(** [begin()] holds the best key. *)
Lemma keys_sorted_head k v m e :
  keys_sorted comp ((k, v) :: m) → e ∈ (k, v) :: m → comp e.1 k = false.
Proof.
  intros [Hm Hhd]%keys_sorted_cons [->|He]%elem_of_cons.
  - apply comp_irrefl.
  - apply comp_asym. by apply (Hhd e).
Qed.
End ordered_map_facts.

(** ** base_book_map: what every reachable book satisfies *)

Section map_invariant.
Import BookMap.

Lemma index_wf_absent comp side os m i p :
  index_wf comp side os m → os !! i = None → (p, i) ∉ m.
Proof. intros [_ Hm] Hi Hin. destruct (Hm _ _ Hin) as (o & Ho & _). congruence. Qed.

Lemma index_wf_other_side comp side os m i o p :
  index_wf comp side os m → os !! i = Some o → is_bid (amount o) ≠ side →
  (p, i) ∉ m.
Proof.
  intros [_ Hm] Hi Hside Hin. destruct (Hm _ _ Hin) as (o' & Ho' & _ & Hs).
  congruence.
Qed.

Lemma index_wf_store comp side os os' m :
  index_wf comp side os m →
  (∀ p i o, (p, i) ∈ m → os !! i = Some o →
     ∃ o', os' !! i = Some o' ∧ price o' = price o
           ∧ is_bid (amount o') = is_bid (amount o)) →
  index_wf comp side os' m.
Proof.
  intros [Hs Hm] Hos. split; [done|]. intros p i Hin.
  destruct (Hm _ _ Hin) as (o & Ho & Hp & Hside).
  destruct (Hos _ _ _ Hin Ho) as (o' & Ho' & Hp' & Hside').
  exists o'. split; [done|]. split; congruence.
Qed.

Lemma index_wf_emplace comp `{!Compare comp} side os m o :
  index_wf comp side os m → os !! id o = Some o → is_bid (amount o) = side →
  index_wf comp side os (emplace comp (price o) (id o) m).
Proof.
  intros [Hs Hm] Ho Hside. split; [by apply emplace_sorted|].
  intros p i Hin.
  apply elem_of_emplace in Hin as [Hin|[[= -> ->] _]];
    [by apply Hm|by exists o|done..].
Qed.

Lemma index_wf_erase comp `{!Compare comp} side os m m' o :
  index_wf comp side os m → os !! id o = Some o →
  erase_in_equal_range comp (price o) (id o) m = Some m' →
  index_wf comp side os m' ∧ ∀ p, (p, id o) ∉ m'.
Proof.
  intros [Hs Hm] Ho Her. apply erase_Some in Her as (Hin & Hs' & Hiff); [|done..].
  split.
  - split; [done|]. intros p i Hpi. apply Hm. by apply Hiff.
  - intros p Hpi. apply Hiff in Hpi as [Hpi Hne].
    destruct (Hm _ _ Hpi) as (o' & Ho' & Hp & _). congruence.
Qed.
Lemma map_absent_unindexed b i :
  map_book_wf b → orders_ b !! i = None → unindexed i b.
Proof.
  intros [_ Hb Ha] Hi p. split; by eapply index_wf_absent.
Qed.

Lemma map_set_orders_wf b os' i :
  map_book_wf b → unindexed i b → store_wf os' →
  (∀ j, j ≠ i → os' !! j = orders_ b !! j) →
  map_book_wf (set_orders b os').
Proof.
  intros [_ Hb Ha] Hun Hos' Hagree.
  assert (∀ comp side m, index_wf comp side (orders_ b) m →
            (∀ p, (p, i) ∉ m) → index_wf comp side os' m) as Hidx.
  { intros comp side m Hm Hfree. eapply index_wf_store; [exact Hm|].
    intros p j o Hin Ho. exists o. rewrite Hagree; [done|].
    intros ->. by eapply Hfree. }
  split; simpl; [done|..]; apply Hidx; try done; intros p; apply Hun.
Qed.

Lemma map_add_to_book_orders b value :
  orders_ (add_to_book b value).2 = orders_ b.
Proof. unfold add_to_book. by destruct (is_bid (amount value)). Qed.

Lemma map_add_to_book_wf b value :
  map_book_wf b → orders_ b !! id value = Some value →
  map_book_wf (add_to_book b value).2.
Proof.
  intros [Hos Hb Ha] Hv. unfold add_to_book.
  destruct (is_bid (amount value)) eqn:Hside; split; simpl; try done.
  - by apply (index_wf_emplace greater).
  - by apply (index_wf_emplace less).
Qed.

Lemma map_remove_from_book_false b value b1 :
  remove_from_book b value = (false, b1) → b1 = b.
Proof.
  unfold remove_from_book.
  destruct (is_bid (amount value));
    [destruct (erase_in_equal_range greater _ _ _)
    |destruct (erase_in_equal_range less _ _ _)]; congruence.
Qed.

Lemma map_remove_from_book_true b value b1 :
  map_book_wf b → orders_ b !! id value = Some value →
  remove_from_book b value = (true, b1) →
  map_book_wf b1 ∧ unindexed (id value) b1 ∧ orders_ b1 = orders_ b.
Proof.
  intros [Hos Hb Ha] Hv. unfold remove_from_book.
  destruct (is_bid (amount value)) eqn:Hside.
  - destruct (erase_in_equal_range greater _ _ _) as [bids'|] eqn:Her; [|done].
    intros [= <-]. destruct (index_wf_erase _ _ _ _ _ _ Hb Hv Her) as [Hb' Hun].
    split; [by split|]. split; [|done]. intros p. split; [apply Hun|]. simpl.
    eapply index_wf_other_side; [done..|]. by rewrite Hside.
  - destruct (erase_in_equal_range less _ _ _) as [asks'|] eqn:Her; [|done].
    intros [= <-]. destruct (index_wf_erase _ _ _ _ _ _ Ha Hv Her) as [Ha' Hun].
    split; [by split|]. split; [|done]. intros p. split; [|apply Hun]. simpl.
    eapply index_wf_other_side; [done..|]. by rewrite Hside.
Qed.

Lemma map_store_wf_lookup b i o :
  map_book_wf b → orders_ b !! i = Some o → id o = i ∧ amount o ≠ 0%Z.
Proof. intros [Hos _ _]. apply Hos. Qed.

Lemma store_wf_insert os o :
  store_wf os → amount o ≠ 0%Z → store_wf (<[id o := o]> os).
Proof.
  intros Hos Hamt j o'. destruct (decide (j = id o)) as [->|Hne].
  - rewrite lookup_insert_eq. by intros [= <-].
  - rewrite lookup_insert_ne by done. apply Hos.
Qed.

Lemma store_wf_delete os i : store_wf os → store_wf (delete i os).
Proof.
  intros Hos j o' Hj. apply lookup_delete_Some in Hj as [_ Hj]. by apply Hos.
Qed.

Lemma map_place_wf b value : map_book_wf b → map_book_wf (place b value).2.
Proof.
  intros Hwf. unfold place.
  destruct (amount value =? 0)%Z eqn:Hamt; [done|]. apply Z.eqb_neq in Hamt.
  case_bool_decide as Hact; [done|]. simpl.
  assert (orders_ b !! id value = None) as Hnone.
  { destruct (orders_ b !! id value) eqn:E; [|done]. destruct Hact. by eexists. }
  unfold orders_emplace. rewrite Hnone.
  set (b1 := set_orders b _).
  assert (map_book_wf b1) as Hwf1.
  { eapply map_set_orders_wf; [done|by apply map_absent_unindexed| |].
    - apply store_wf_insert; [apply Hwf|done].
    - intros j Hj. by rewrite lookup_insert_ne. }
  pose proof (map_add_to_book_wf b1 value Hwf1) as Hadd.
  destruct (add_to_book b1 value) as [added b2] eqn:Eadd. simpl in Hadd.
  assert (added = true) as ->.
  { unfold add_to_book in Eadd. destruct (is_bid (amount value)); congruence. }
  simpl. apply Hadd. subst b1. simpl. apply lookup_insert_eq.
Qed.

Lemma map_cancel_wf b i : map_book_wf b → map_book_wf (cancel b i).2.
Proof.
  intros Hwf. unfold cancel.
  destruct (orders_ b !! i) as [value|] eqn:Hv; [|done].
  destruct (map_store_wf_lookup _ _ _ Hwf Hv) as [<- _].
  destruct (remove_from_book b value) as [[] b1] eqn:Hrm; simpl.
  - destruct (map_remove_from_book_true _ _ _ Hwf Hv Hrm) as (Hwf1 & Hun & Hos).
    eapply map_set_orders_wf; [done..| |].
    + apply store_wf_delete. apply Hwf1.
    + intros j Hj. by rewrite lookup_delete_ne.
  - by rewrite (map_remove_from_book_false _ _ _ Hrm).
Qed.
Lemma map_add_to_book_true b value : (add_to_book b value).1 = true.
Proof. unfold add_to_book. by destruct (is_bid (amount value)). Qed.

(** [add_to_book] never reports a failure, so the roll-back branches of
    [place] and [modify] are dead: [place] is its guard followed by the two
    insertions. *)
Lemma map_place_unfold b value :
  place b value =
    if (amount value =? 0)%Z || bool_decide (is_Some (orders_ b !! id value))
    then (false, b)
    else (true, (add_to_book
                   (set_orders b (<[id value := value]> (orders_ b))) value).2).
Proof.
  unfold place. destruct (amount value =? 0)%Z; [done|].
  case_bool_decide as Hact; [done|]. simpl.
  assert (orders_ b !! id value = None) as Hnone.
  { destruct (orders_ b !! id value) eqn:E; [|done]. destruct Hact. by eexists. }
  unfold orders_emplace. rewrite Hnone.
  pose proof (map_add_to_book_true (set_orders b (<[id value:=value]> (orders_ b))) value).
  by destruct (add_to_book _ value) as [[] b2].
Qed.

Lemma map_modify_wf b value : map_book_wf b → map_book_wf (modify b value).2.
Proof.
  intros Hwf. unfold modify.
  destruct (amount value =? 0)%Z eqn:Hamt; [by apply map_cancel_wf|].
  apply Z.eqb_neq in Hamt.
  destruct (orders_ b !! id value) as [previous|] eqn:Hprev; [|done].
  destruct (map_store_wf_lookup _ _ _ Hwf Hprev) as [Hid _].
  destruct (eqb _ _ && _) eqn:Hsame.
  - apply andb_true_iff in Hsame as [Hside Hprice].
    apply eqb_prop in Hside. apply Z.eqb_eq in Hprice.
    destruct Hwf as [Hos Hb Ha]. simpl.
    assert (∀ comp side m, index_wf comp side (orders_ b) m →
              index_wf comp side (<[id value:=value]> (orders_ b)) m) as Hidx.
    { intros comp side m Hm. eapply index_wf_store; [exact Hm|].
      intros p j o Hin Ho. destruct (decide (j = id value)) as [->|Hne].
      - exists value. rewrite lookup_insert_eq. split; [done|].
        assert (o = previous) as -> by congruence. by split.
      - exists o. by rewrite lookup_insert_ne. }
    split; simpl; [by apply store_wf_insert|by apply Hidx..].
  - rewrite <- Hid in Hprev.
    destruct (remove_from_book b previous) as [[] b1] eqn:Hrm; simpl.
    + destruct (map_remove_from_book_true _ _ _ Hwf Hprev Hrm) as (Hwf1 & Hun & Hos).
      set (b2 := set_orders b1 _).
      assert (map_book_wf b2) as Hwf2.
      { eapply map_set_orders_wf; [done| | |].
        - rewrite Hid in Hun. exact Hun.
        - apply store_wf_insert; [apply Hwf1|done].
        - intros j Hj. by rewrite lookup_insert_ne. }
      pose proof (map_add_to_book_wf b2 value Hwf2) as Hadd.
      pose proof (map_add_to_book_true b2 value) as Htrue.
      destruct (add_to_book b2 value) as [added b3]. simpl in *. subst added.
      simpl. apply Hadd. apply lookup_insert_eq.
    + by rewrite (map_remove_from_book_false _ _ _ Hrm).
Qed.

Lemma map_step_wf b r : map_book_wf b → map_book_wf (step b r).2.
Proof. destruct r; [apply map_place_wf|apply map_modify_wf|apply map_cancel_wf]. Qed.

Lemma map_run_wf b rs : map_book_wf b → map_book_wf (run b rs).
Proof.
  revert b. induction rs as [|r rs IH]; intros b Hwf; [done|].
  simpl. apply IH. by apply map_step_wf.
Qed.

Lemma map_empty_book_wf : map_book_wf empty_book.
Proof.
  split; simpl.
  - intros i o Hi. by rewrite lookup_empty in Hi.
  - split; [apply keys_sorted_nil|]. intros p i Hin. by apply elem_of_nil in Hin.
  - split; [apply keys_sorted_nil|]. intros p i Hin. by apply elem_of_nil in Hin.
Qed.

Lemma map_reachable_wf b : reachable b → map_book_wf b.
Proof. intros [rs ->]. apply map_run_wf, map_empty_book_wf. Qed.

Lemma map_run_app b rs1 rs2 : run b (rs1 ++ rs2) = run (run b rs1) rs2.
Proof. apply foldl_app. Qed.

Lemma map_reachable_run b rs : reachable b → reachable (run b rs).
Proof. intros [rs0 ->]. exists (rs0 ++ rs). by rewrite map_run_app. Qed.

Lemma map_placed_reachable b : placed b → reachable b.
Proof.
  induction 1 as [|b value b' _ IH Hpl]; [by exists []|].
  replace b' with (run b [Place value]); [by apply map_reachable_run|].
  simpl. by rewrite Hpl.
Qed.
End map_invariant.

(** ** base_book_map: the operations one by one *)

Section map_operations.
Import BookMap.

Lemma map_cancel_inactive b i :
  orders_ b !! i = None → cancel b i = (false, b).
Proof. intros Hi. unfold cancel. by rewrite Hi. Qed.

Lemma map_cancel_false b i b' : cancel b i = (false, b') → b' = b.
Proof.
  unfold cancel. destruct (orders_ b !! i) as [value|]; [|congruence].
  destruct (remove_from_book b value) as [[] b1] eqn:Hrm; simpl; [done|].
  intros [= <-]. by eapply map_remove_from_book_false.
Qed.

Lemma map_cancel_true b i b' :
  map_book_wf b → cancel b i = (true, b') →
  ∃ value, orders_ b !! i = Some value
    ∧ ((price value, i) ∈ if is_bid (amount value) then bids_ b else asks_ b)
    ∧ orders_ b' = delete i (orders_ b)
    ∧ unindexed i b'.
Proof.
  intros Hwf. unfold cancel.
  destruct (orders_ b !! i) as [value|] eqn:Hv; [|done].
  destruct (map_store_wf_lookup _ _ _ Hwf Hv) as [<- _].
  destruct (remove_from_book b value) as [[] b1] eqn:Hrm; simpl; [|done].
  intros [= <-]. exists value. split; [done|].
  destruct (map_remove_from_book_true _ _ _ Hwf Hv Hrm) as (Hwf1 & Hun & Hos).
  split; [|split; [by rewrite Hos|done]].
  destruct Hwf as [_ [Hsb _] [Hsa _]].
  unfold remove_from_book in Hrm. destruct (is_bid (amount value)).
  - destruct (erase_in_equal_range greater _ _ _) eqn:Her; [|done].
    by apply (erase_Some greater) in Her as [? _].
  - destruct (erase_in_equal_range less _ _ _) eqn:Her; [|done].
    by apply (erase_Some less) in Her as [? _].
Qed.

Lemma map_modify_zero b value :
  amount value = 0%Z → modify b value = cancel b (id value).
Proof. intros Hz. unfold modify. by rewrite Hz. Qed.

Lemma map_modify_false b value b' : modify b value = (false, b') → b' = b.
Proof.
  unfold modify. destruct (amount value =? 0)%Z; [apply map_cancel_false|].
  destruct (orders_ b !! id value) as [previous|]; [|congruence].
  destruct (eqb _ _ && _); [done|].
  destruct (remove_from_book b previous) as [[] b1] eqn:Hrm; simpl.
  - set (b2 := set_orders b1 _).
    pose proof (map_add_to_book_true b2 value) as Htrue.
    by destruct (add_to_book b2 value) as [[] b3].
  - intros [= <-]. by eapply map_remove_from_book_false.
Qed.

Lemma same_side_is_bid a1 a2 :
  same_side a1 a2 → is_bid a1 = is_bid a2 ∧ a2 ≠ 0%Z.
Proof. unfold same_side, is_bid. intros [[]|[]]; split; lia. Qed.

Lemma map_modify_in_place b value previous :
  orders_ b !! id value = Some previous →
  same_side (amount previous) (amount value) →
  price previous = price value →
  modify b value =
    (true, Book (<[id value := value]> (orders_ b)) (bids_ b) (asks_ b)).
Proof.
  intros Hprev [Hside Hnz]%same_side_is_bid Hprice. unfold modify.
  apply Z.eqb_neq in Hnz. rewrite Hnz, Hprev, Hside, Hprice.
  by rewrite eqb_reflx, Z.eqb_refl.
Qed.
End map_operations.

(** ** The sorted vector of price levels *)

Section level_vector.
Import BookVector.
Context (comp : Z → Z → bool) `{!Compare comp}.

(** The loop of [std::lower_bound] ends before its fuel does: any fuel of
    at least [len] gives the same position, on every vector. *)
Lemma lower_bound_loop_fuel (cmp : price_level → Z → bool) levels value
    fuel fuel' first len :
  len ≤ fuel → len ≤ fuel' →
  lower_bound_loop cmp levels value fuel first len
  = lower_bound_loop cmp levels value fuel' first len.
Proof.
  revert fuel' first len.
  induction fuel as [|fuel IH]; intros fuel' first len Hfuel Hfuel'.
  { assert (len = 0) as -> by lia. by destruct fuel'. }
  destruct fuel' as [|fuel'].
  { assert (len = 0) as -> by lia. done. }
  cbn [lower_bound_loop].
  destruct (len =? 0) eqn:Hz; [done|]. apply Nat.eqb_neq in Hz.
  assert (len / 2 < len) as Hhalf by (apply Nat.div_lt; lia).
  destruct (levels !! (first + len / 2)) as [level|]; [|done].
  destruct (cmp level value); apply IH; lia.
Qed.

Lemma levels_sorted_cons level levels :
  levels_sorted comp (level :: levels) ↔
  levels_sorted comp levels ∧
  ∀ l', l' ∈ levels → comp (Level.price level) (Level.price l') = true.
Proof.
  unfold levels_sorted. split.
  - intros Hs. apply StronglySorted_inv in Hs as [Hm Hall].
    split; [done|]. by apply Forall_forall.
  - intros [Hm Hall]. constructor; [done|]. by apply Forall_forall.
Qed.

Lemma partition_point_le levels value :
  partition_point comp levels value ≤ length levels.
Proof.
  induction levels as [|l levels IH]; simpl; [done|].
  destruct (level_comp comp l value); simpl; lia.
Qed.

Lemma partition_point_before levels value k level :
  levels !! k = Some level → k < partition_point comp levels value →
  level_comp comp level value = true.
Proof.
  revert k. induction levels as [|l levels IH]; intros k Hk Hlt; [done|].
  simpl in Hlt. destruct (level_comp comp l value) eqn:Hl; [|lia].
  destruct k as [|k]; simpl in Hk; [congruence|].
  apply (IH k); [done|lia].
Qed.

Lemma partition_point_after levels value k level :
  levels_sorted comp levels →
  levels !! k = Some level → partition_point comp levels value ≤ k →
  level_comp comp level value = false.
Proof.
  revert k. induction levels as [|l levels IH]; intros k Hs Hk Hle; [done|].
  apply levels_sorted_cons in Hs as [Hs Hhd]. simpl in Hle.
  destruct (level_comp comp l value) eqn:Hl.
  - destruct k as [|k]; [lia|]. simpl in Hk. apply (IH k); [done..|lia].
  - destruct k as [|k]; simpl in Hk; [congruence|].
    apply list_elem_of_lookup_2 in Hk. apply Hhd in Hk.
    unfold level_comp in *. destruct (comp (Level.price level) value) eqn:E; [|done].
    by rewrite (comp_trans _ _ _ Hk E) in Hl.
Qed.

Lemma lower_bound_loop_sorted levels value fuel first len :
  levels_sorted comp levels →
  len ≤ fuel → first ≤ partition_point comp levels value ≤ first + len →
  first + len ≤ length levels →
  lower_bound_loop (level_comp comp) levels value fuel first len
    = partition_point comp levels value.
Proof.
  intros Hs. revert first len.
  induction fuel as [|fuel IH]; intros first len Hfuel Hpp Hlen;
    cbn [lower_bound_loop].
  { lia. }
  destruct (len =? 0) eqn:Hz.
  { apply Nat.eqb_eq in Hz. lia. }
  apply Nat.eqb_neq in Hz.
  assert (len / 2 < len) as Hhalf by (apply Nat.div_lt; lia).
  destruct (levels !! (first + len / 2)) as [level|] eqn:Hmid.
  - destruct (level_comp comp level value) eqn:Hc.
    + apply IH; [lia| |lia]. split; [|lia].
      destruct (decide (partition_point comp levels value ≤ first + len / 2)) as [Hle|]; [|lia].
      by rewrite (partition_point_after _ _ _ _ Hs Hmid Hle) in Hc.
    + apply IH; [lia| |lia]. split; [lia|].
      destruct (decide (first + len / 2 < partition_point comp levels value)) as [Hlt|]; [|lia].
      by rewrite (partition_point_before _ _ _ _ Hmid Hlt) in Hc.
  - apply lookup_ge_None in Hmid. lia.
Qed.

(** On a sorted vector the binary search finds the partition point. *)
Lemma lower_bound_sorted levels value :
  levels_sorted comp levels →
  lower_bound (level_comp comp) levels value = partition_point comp levels value.
Proof.
  intros Hs. unfold lower_bound. apply lower_bound_loop_sorted; [done|lia| |lia].
  pose proof (partition_point_le levels value). lia.
Qed.

Lemma place_in_levels_partition levels p i :
  place_in_levels (ensure_level (partition_point comp)) levels p i
  = levels_add comp p i levels.
Proof.
  induction levels as [|level rest IH]; [done|].
  unfold place_in_levels, ensure_level in *. simpl.
  destruct (level_comp comp level p) eqn:Hc; simpl.
  - rewrite <- IH.
    destruct (rest !! partition_point comp rest p) as [l'|]; [|done].
    by destruct (negb (Level.price l' =? p)%Z).
  - by destruct (Level.price level =? p)%Z.
Qed.

Lemma place_in_levels_sorted levels p i :
  levels_sorted comp levels →
  place_in_levels (ensure_level (lower_bound (level_comp comp))) levels p i
  = levels_add comp p i levels.
Proof.
  intros Hs. rewrite <- place_in_levels_partition.
  unfold place_in_levels, ensure_level. by rewrite lower_bound_sorted.
Qed.

Lemma cancel_in_levels_partition levels p i :
  cancel_in_levels (find_level (partition_point comp)) levels p i
  = levels_remove comp p i levels.
Proof.
  induction levels as [|level rest IH]; [done|].
  unfold cancel_in_levels, find_level in *. simpl.
  destruct (level_comp comp level p) eqn:Hc; simpl.
  - rewrite <- IH.
    destruct (rest !! partition_point comp rest p) as [l'|] eqn:Hl'; simpl.
    + destruct (Level.price l' =? p)%Z; simpl.
      * rewrite Hl'. destruct (remove_id_from_level l' i) as [[] l'']; simpl; [|done].
        by destruct (Level.ids l'').
      * by rewrite (proj2 (lookup_ge_None rest (length rest))).
    + by rewrite (proj2 (lookup_ge_None rest (length rest))).
  - destruct (Level.price level =? p)%Z; simpl.
    + destruct (remove_id_from_level level i) as [[] l'']; simpl; [|done].
      by destruct (Level.ids l'').
    + by rewrite (proj2 (lookup_ge_None rest (length rest))).
Qed.

Lemma cancel_in_levels_sorted levels p i :
  levels_sorted comp levels →
  cancel_in_levels (find_level (lower_bound (level_comp comp))) levels p i
  = levels_remove comp p i levels.
Proof.
  intros Hs. rewrite <- cancel_in_levels_partition.
  unfold cancel_in_levels, find_level. by rewrite lower_bound_sorted.
Qed.
End level_vector.

(** ** Removing an id from a level: swap with the last, then pop *)

Section remove_id.
Import BookVector.

Lemma find_id_None ids i : find_id ids i = None → i ∉ ids.
Proof.
  induction ids as [|x ids IH]; simpl; intros Hf; [apply not_elem_of_nil|].
  destruct (x =? i)%N eqn:Hx; [done|]. apply N.eqb_neq in Hx.
  destruct (find_id ids i); [done|].
  apply not_elem_of_cons. split; [done|by apply IH].
Qed.

Lemma find_id_Some ids i k :
  find_id ids i = Some k →
  ∃ l1 l2, ids = l1 ++ i :: l2 ∧ length l1 = k ∧ i ∉ l1.
Proof.
  revert k. induction ids as [|x ids IH]; simpl; intros k Hf; [done|].
  destruct (x =? i)%N eqn:Hx.
  - apply N.eqb_eq in Hx as ->. injection Hf as <-.
    exists [], ids. split; [done|]. split; [done|apply not_elem_of_nil].
  - apply N.eqb_neq in Hx.
    destruct (find_id ids i) as [k'|]; [|done]. injection Hf as <-.
    destruct (IH k' eq_refl) as (l1 & l2 & -> & <- & Hl1).
    exists (x :: l1), l2. split; [done|]. split; [done|].
    apply not_elem_of_cons. by split.
Qed.

Lemma find_id_app_fresh ids i :
  i ∉ ids → find_id (ids ++ [i]) i = Some (length ids).
Proof.
  induction ids as [|x ids IH]; simpl; intros Hi.
  - by rewrite N.eqb_refl.
  - apply not_elem_of_cons in Hi as [Hx Hi].
    apply not_eq_sym, N.eqb_neq in Hx. by rewrite Hx, IH.
Qed.

Lemma last_app_cons (l : list N) a l' d :
  List.last (l ++ a :: l') d = List.last (a :: l') d.
Proof.
  induction l as [|y l IH]; [done|].
  rewrite <- IH. simpl. by destruct (l ++ a :: l') eqn:E; [destruct l|].
Qed.

Lemma swap_pop l1 (i : N) l2 :
  removelast (<[length l1 := List.last (l1 ++ i :: l2) i]> (l1 ++ i :: l2))
  = match l2 with
    | [] => l1
    | _ :: _ => l1 ++ List.last l2 i :: removelast l2
    end.
Proof.
  replace (length l1) with (length l1 + 0) at 1 by lia.
  rewrite insert_app_r, last_app_cons.
  destruct l2 as [|z l2].
  - apply removelast_last.
  - by rewrite removelast_app.
Qed.

Lemma remove_id_false level i level' :
  remove_id_from_level level i = (false, level') →
  level' = level ∧ i ∉ Level.ids level.
Proof.
  unfold remove_id_from_level.
  destruct (find_id (Level.ids level) i) eqn:Hf; [done|].
  intros [= <-]. split; [done|by apply find_id_None].
Qed.

Lemma remove_id_true level i level' :
  remove_id_from_level level i = (true, level') →
  Level.price level' = Level.price level
  ∧ Level.ids level ≡ₚ i :: Level.ids level'.
Proof.
  unfold remove_id_from_level.
  destruct (find_id (Level.ids level) i) as [k|] eqn:Hf; [|done].
  intros [= <-]. split; [done|]. simpl.
  apply find_id_Some in Hf as (l1 & l2 & -> & <- & _).
  rewrite swap_pop. destruct l2 as [|z l2].
  - symmetry. apply Permutation_cons_append.
  - rewrite <- Permutation_middle. constructor.
    apply Permutation_app_head.
    rewrite (app_removelast_last i (l:=z :: l2)) at 1 by done.
    symmetry. apply Permutation_cons_append.
Qed.

Lemma remove_id_present level i :
  i ∈ Level.ids level → (remove_id_from_level level i).1 = true.
Proof.
  intros Hin. destruct (remove_id_from_level level i) as [[] level'] eqn:Hr; [done|].
  by apply remove_id_false in Hr as [_ ?].
Qed.

(** An id pushed at the back of a level that did not hold it is removed
    again without disturbing the others. *)
Lemma remove_id_push_back level i :
  i ∉ Level.ids level →
  remove_id_from_level (push_back i level) i = (true, level).
Proof.
  intros Hi. unfold remove_id_from_level, push_back. simpl.
  rewrite find_id_app_fresh by done.
  rewrite swap_pop. by destruct level.
Qed.
End remove_id.

(** ** Adding to and removing from a sorted vector of levels *)

Section level_vector_facts.
Import BookVector.
Context (comp : Z → Z → bool) `{!Compare comp}.

Lemma indexed_nil p i : ¬ indexed [] p i.
Proof. intros (level & Hin & _). by apply elem_of_nil in Hin. Qed.

Lemma indexed_cons level rest p i :
  indexed (level :: rest) p i ↔
  (Level.price level = p ∧ i ∈ Level.ids level) ∨ indexed rest p i.
Proof.
  unfold indexed. split.
  - intros (l & [->|Hin]%elem_of_cons & Hp & Hi); [by left|right; by exists l].
  - intros [[Hp Hi]|(l & Hin & Hp & Hi)].
    + exists level. split; [by left|done].
    + exists l. split; [by right|done].
Qed.

Lemma levels_add_price p i levels l' :
  l' ∈ levels_add comp p i levels →
  Level.price l' = p ∨ ∃ l, l ∈ levels ∧ Level.price l' = Level.price l.
Proof.
  induction levels as [|level rest IH]; simpl.
  - intros ->%list_elem_of_singleton. by left.
  - destruct (level_comp comp level p).
    + intros [->|Hin]%elem_of_cons.
      * right. exists level. split; [by left|done].
      * destruct (IH Hin) as [?|(l & Hl & Hp)]; [by left|].
        right. exists l. split; [by right|done].
    + destruct (Level.price level =? p)%Z eqn:Hp.
      * intros [->|Hin]%elem_of_cons.
        -- right. exists level. split; [by left|done].
        -- right. exists l'. split; [by right|done].
      * intros [->|Hin]%elem_of_cons; [by left|].
        right. exists l'. split; [done|done].
Qed.

Lemma levels_add_sorted p i levels :
  levels_sorted comp levels → levels_sorted comp (levels_add comp p i levels).
Proof.
  induction levels as [|level rest IH]; intros Hs; simpl.
  - apply levels_sorted_cons. split; [constructor|].
    intros l' Hl'. by apply elem_of_nil in Hl'.
  - pose proof Hs as Hs'. apply levels_sorted_cons in Hs' as [Hrest Hhd].
    destruct (level_comp comp level p) eqn:Hc.
    + apply levels_sorted_cons. split; [by apply IH|].
      intros l' [->|(l & Hl & ->)]%levels_add_price; [done|by apply Hhd].
    + destruct (Level.price level =? p)%Z eqn:Hp.
      * apply levels_sorted_cons. split; [done|]. simpl. apply Hhd.
      * apply Z.eqb_neq in Hp. unfold level_comp in Hc.
        assert (comp p (Level.price level) = true) as Hlt.
        { destruct (comp p (Level.price level)) eqn:E; [done|].
          destruct Hp. by apply (comp_total (comp:=comp)). }
        apply levels_sorted_cons. split; [done|]. simpl.
        intros l' [->|Hl']%elem_of_cons; [done|].
        eapply comp_trans; [exact Hlt|by apply Hhd].
Qed.

Lemma indexed_levels_add p i levels p' j :
  indexed (levels_add comp p i levels) p' j ↔
  indexed levels p' j ∨ (p' = p ∧ j = i).
Proof.
  induction levels as [|level rest IH]; simpl.
  - rewrite indexed_cons. simpl. rewrite list_elem_of_singleton.
    pose proof (indexed_nil p' j). intuition congruence.
  - destruct (level_comp comp level p).
    + rewrite !indexed_cons, IH. tauto.
    + destruct (Level.price level =? p)%Z eqn:Hp.
      * apply Z.eqb_eq in Hp. rewrite !indexed_cons. simpl.
        rewrite elem_of_app, list_elem_of_singleton. intuition congruence.
      * rewrite !(indexed_cons (Level.Make p [i])). simpl.
        rewrite list_elem_of_singleton. intuition congruence.
Qed.

Lemma levels_add_ok p i levels :
  Forall level_ok levels → ¬ indexed levels p i →
  Forall level_ok (levels_add comp p i levels).
Proof.
  assert (level_ok (Level.Make p [i])) as Hnew.
  { split; simpl; [done|]. apply NoDup_singleton. }
  induction levels as [|level rest IH]; intros Hok Hfresh; simpl.
  - by constructor.
  - apply Forall_cons in Hok as [Hlevel Hrest].
    rewrite indexed_cons in Hfresh.
    destruct (level_comp comp level p).
    + constructor; [done|]. apply IH; [done|tauto].
    + destruct (Level.price level =? p)%Z eqn:Hp.
      * apply Z.eqb_eq in Hp. constructor; [|done].
        destruct Hlevel as [_ Hnd]. split; simpl.
        -- by destruct (Level.ids level).
        -- apply NoDup_app. split; [done|]. split; [|apply NoDup_singleton].
           intros x Hx ->%list_elem_of_singleton. tauto.
      * constructor; [done|]. by constructor.
Qed.
Lemma levels_sorted_price_ne level rest l' :
  levels_sorted comp (level :: rest) → l' ∈ rest →
  Level.price l' ≠ Level.price level.
Proof.
  intros [_ Hhd]%levels_sorted_cons Hin. apply not_eq_sym.
  by apply (comp_ne (comp:=comp)), Hhd.
Qed.

(** Past a level that does not compare before [p] no level has price [p],
    unless it is that level itself. *)
Lemma levels_sorted_passed level rest p l' :
  levels_sorted comp (level :: rest) → level_comp comp level p = false →
  l' ∈ rest → Level.price l' ≠ p.
Proof.
  intros [_ Hhd]%levels_sorted_cons Hc Hin <-.
  apply Hhd in Hin. unfold level_comp in Hc. congruence.
Qed.

Lemma levels_remove_None p i levels :
  levels_sorted comp levels → levels_remove comp p i levels = None →
  ¬ indexed levels p i.
Proof.
  induction levels as [|level rest IH]; intros Hs Hrm; [apply indexed_nil|].
  simpl in Hrm. rewrite indexed_cons.
  pose proof Hs as [Hrest Hhd]%levels_sorted_cons.
  destruct (level_comp comp level p) eqn:Hc.
  - destruct (levels_remove comp p i rest) eqn:Hr; [done|].
    intros [[Hp _]|Hin]; [|by apply IH].
    unfold level_comp in Hc. rewrite Hp in Hc. by rewrite comp_irrefl in Hc.
  - assert (¬ indexed rest p i) as Hnot.
    { intros (l' & Hin & Hp & _). by eapply levels_sorted_passed. }
    intros [[Hp Hi]|Hin]; [|done].
    apply Z.eqb_eq in Hp. rewrite Hp in Hrm.
    destruct (remove_id_from_level level i) as [[] level'] eqn:Hr; simpl in Hrm.
    + by destruct (Level.ids level').
    + by apply remove_id_false in Hr as [_ ?].
Qed.

Lemma levels_remove_price p i levels levels' l' :
  levels_remove comp p i levels = Some levels' → l' ∈ levels' →
  ∃ l, l ∈ levels ∧ Level.price l' = Level.price l.
Proof.
  revert levels'. induction levels as [|level rest IH]; intros levels' Hrm Hl';
    simpl in Hrm; [done|].
  destruct (level_comp comp level p).
  - destruct (levels_remove comp p i rest) as [rest'|]; [|done].
    injection Hrm as <-. apply elem_of_cons in Hl' as [->|Hl'].
    + exists level. split; [by left|done].
    + destruct (IH rest' eq_refl Hl') as (l & Hl & Hp).
      exists l. split; [by right|done].
  - destruct (Level.price level =? p)%Z; [|done].
    destruct (remove_id_from_level level i) as [[] level'] eqn:Hr; simpl in Hrm; [|done].
    apply remove_id_true in Hr as [Hp' _].
    destruct (Level.ids level'); injection Hrm as <-.
    + exists l'. split; [by right|done].
    + apply elem_of_cons in Hl' as [->|Hl'].
      * exists level. split; [by left|done].
      * exists l'. split; [by right|done].
Qed.

Lemma levels_remove_Some p i levels levels' :
  levels_sorted comp levels → Forall level_ok levels →
  levels_remove comp p i levels = Some levels' →
  levels_sorted comp levels' ∧ Forall level_ok levels' ∧ indexed levels p i
  ∧ ∀ p' j, indexed levels' p' j ↔ indexed levels p' j ∧ (p' ≠ p ∨ j ≠ i).
Proof.
  revert levels'.
  induction levels as [|level rest IH]; intros levels' Hs Hok Hrm; [done|].
  simpl in Hrm.
  pose proof Hs as [Hrest Hhd]%levels_sorted_cons.
  pose proof Hok as [Hlevel Hokrest]%Forall_cons.
  destruct (level_comp comp level p) eqn:Hc.
  - destruct (levels_remove comp p i rest) as [rest'|] eqn:Hr; [|done].
    injection Hrm as <-.
    destruct (IH rest' Hrest Hokrest eq_refl) as (Hs' & Hok' & Hin & Hiff).
    assert (Level.price level ≠ p) as Hne by by apply (comp_ne (comp:=comp)).
    split; [|split; [by constructor|split]].
    + apply levels_sorted_cons. split; [done|].
      intros l' Hl'.
      destruct (levels_remove_price _ _ _ _ _ Hr Hl') as (l & Hl & ->). by apply Hhd.
    + rewrite indexed_cons. by right.
    + intros p' j. rewrite !indexed_cons, Hiff. intuition congruence.
  - destruct (Level.price level =? p)%Z eqn:Hp; [|done].
    apply Z.eqb_eq in Hp.
    destruct (remove_id_from_level level i) as [[] level'] eqn:Hr; simpl in Hrm; [|done].
    apply remove_id_true in Hr as [Hp' Hperm].
    destruct Hlevel as [_ Hnd]. rewrite Hperm in Hnd.
    apply NoDup_cons in Hnd as [Hi Hnd'].
    assert (∀ p' j, indexed rest p' j → p' ≠ p) as Hrestp.
    { intros p' j (l' & Hin & <- & _). by eapply levels_sorted_passed. }
    assert (indexed (level :: rest) p i) as Hin.
    { rewrite indexed_cons. left. split; [done|]. rewrite Hperm. by left. }
    destruct (Level.ids level') as [|x ids'] eqn:Hids; injection Hrm as <-.
    + split; [done|]. split; [done|]. split; [done|].
      intros p' j. rewrite indexed_cons, Hperm, list_elem_of_singleton.
      pose proof (Hrestp p' j). intuition congruence.
    + split; [|split; [|split; [done|]]].
      * apply levels_sorted_cons. split; [done|]. by rewrite Hp'.
      * constructor; [|done]. split; rewrite Hids; done.
      * intros p' j. rewrite !indexed_cons, Hperm, Hp', Hids.
        rewrite (elem_of_cons _ j i). split.
        -- intros [[Hpl Hj]|Hr].
           ++ split; [left; split; [done|by right]|].
              right. by intros ->.
           ++ split; [by right|]. left. by eapply Hrestp.
        -- intros [[[Hpl [->|Hj]]|Hr] Hne]; [|by left|by right].
           destruct Hne; congruence.
Qed.

Lemma remove_id_single p i :
  remove_id_from_level (Level.Make p [i]) i = (true, Level.Make p []).
Proof. unfold remove_id_from_level. simpl. by rewrite N.eqb_refl. Qed.

(** Adding an id and removing it again gives the vector back. *)
Lemma levels_remove_add p i levels :
  Forall level_ok levels → ¬ indexed levels p i →
  levels_remove comp p i (levels_add comp p i levels) = Some levels.
Proof.
  induction levels as [|level rest IH]; intros Hok Hfresh.
  { simpl. unfold level_comp. simpl.
    by rewrite comp_irrefl, Z.eqb_refl, remove_id_single. }
  apply Forall_cons in Hok as [[Hne _] Hrest].
  rewrite indexed_cons in Hfresh. simpl.
  destruct (level_comp comp level p) eqn:Hc.
  - simpl. rewrite Hc, IH; [done..|tauto].
  - destruct (Level.price level =? p)%Z eqn:Hp.
    + simpl. unfold level_comp in *. simpl. rewrite Hc, Hp.
      apply Z.eqb_eq in Hp.
      rewrite remove_id_push_back by tauto. simpl.
      by destruct (Level.ids level).
    + simpl. unfold level_comp. simpl.
      by rewrite comp_irrefl, Z.eqb_refl, remove_id_single.
Qed.

(** Removing an id and adding it again at the same price keeps every
    level in place; within its level the id moves to the back, after the
    swap that [remove_id_from_level] did. *)
Lemma levels_add_remove p i levels levels1 :
  levels_sorted comp levels →
  levels_remove comp p i levels = Some levels1 →
  ∃ k level, levels !! k = Some level ∧ Level.price level = p
    ∧ i ∈ Level.ids level
    ∧ levels_add comp p i levels1
      = <[k := push_back i (remove_id_from_level level i).2]> levels.
Proof.
  revert levels1.
  induction levels as [|level rest IH]; intros levels1 Hs Hrm; [done|].
  simpl in Hrm.
  pose proof Hs as [Hrest Hhd]%levels_sorted_cons.
  destruct (level_comp comp level p) eqn:Hc.
  - destruct (levels_remove comp p i rest) as [rest'|] eqn:Hr; [|done].
    injection Hrm as <-.
    destruct (IH rest' Hrest eq_refl) as (k & l & Hk & Hp & Hi & Hadd).
    exists (S k), l. simpl. by rewrite Hc, Hadd.
  - destruct (Level.price level =? p)%Z eqn:Hp; [|done].
    apply Z.eqb_eq in Hp.
    destruct (remove_id_from_level level i) as [[] level'] eqn:Hr; simpl in Hrm; [|done].
    exists 0, level. rewrite Hr. simpl.
    pose proof Hr as [Hp' Hperm]%remove_id_true.
    split; [done|]. split; [done|]. split; [rewrite Hperm; by left|].
    destruct (Level.ids level') as [|x ids'] eqn:Hids; injection Hrm as <-.
    + assert (push_back i level' = Level.Make p [i]) as ->.
      { unfold push_back. by rewrite Hids, Hp', Hp. }
      destruct rest as [|l2 rest]; [done|]. simpl.
      assert (comp (Level.price level) (Level.price l2) = true) as Hlt
        by (apply Hhd; by left).
      rewrite Hp in Hlt. unfold level_comp.
      rewrite (comp_asym _ _ Hlt).
      apply (comp_ne (comp:=comp)), not_eq_sym, Z.eqb_neq in Hlt. by rewrite Hlt.
    + simpl. unfold level_comp in *. rewrite Hp', Hc, Hp.
      by rewrite Z.eqb_refl.
Qed.

(** The front level carries the best price. *)
Lemma levels_sorted_front level rest l' :
  levels_sorted comp (level :: rest) → l' ∈ level :: rest →
  comp (Level.price l') (Level.price level) = false.
Proof.
  intros [_ Hhd]%levels_sorted_cons [->|Hin]%elem_of_cons.
  - apply comp_irrefl.
  - by apply comp_asym, Hhd.
Qed.
End level_vector_facts.

(** ** base_book_vector: what every reachable book satisfies *)

Section vector_invariant.
Import BookVector.

Lemma place_in_bids levels p i :
  levels_sorted greater levels →
  place_in_levels ensure_bid_level levels p i = levels_add greater p i levels.
Proof. apply (place_in_levels_sorted greater). Qed.

Lemma place_in_asks levels p i :
  levels_sorted less levels →
  place_in_levels ensure_ask_level levels p i = levels_add less p i levels.
Proof. apply (place_in_levels_sorted less). Qed.

Lemma cancel_in_bids levels p i :
  levels_sorted greater levels →
  cancel_in_levels find_bid_level levels p i = levels_remove greater p i levels.
Proof. apply (cancel_in_levels_sorted greater). Qed.

Lemma cancel_in_asks levels p i :
  levels_sorted less levels →
  cancel_in_levels find_ask_level levels p i = levels_remove less p i levels.
Proof. apply (cancel_in_levels_sorted less). Qed.

Lemma levels_wf_absent comp side os levels i p :
  levels_wf comp side os levels → os !! i = None → ¬ indexed levels p i.
Proof.
  intros (_ & _ & Hm) Hi Hin. destruct (Hm _ _ Hin) as (o & Ho & _). congruence.
Qed.

Lemma levels_wf_other_side comp side os levels i o p :
  levels_wf comp side os levels → os !! i = Some o →
  is_bid (amount o) ≠ side → ¬ indexed levels p i.
Proof.
  intros (_ & _ & Hm) Hi Hside Hin.
  destruct (Hm _ _ Hin) as (o' & Ho' & _ & Hs). congruence.
Qed.

Lemma levels_wf_store comp side os os' levels i :
  levels_wf comp side os levels → (∀ p, ¬ indexed levels p i) →
  (∀ j, j ≠ i → os' !! j = os !! j) →
  levels_wf comp side os' levels.
Proof.
  intros (Hs & Hok & Hm) Hfree Hagree. split; [done|]. split; [done|].
  intros p j Hin. destruct (Hm _ _ Hin) as (o & Ho & Hp & Hside).
  exists o. rewrite Hagree; [done|]. intros ->. by eapply Hfree.
Qed.

Lemma levels_wf_place comp `{!Compare comp} side os levels o :
  levels_wf comp side os levels → os !! id o = None →
  is_bid (amount o) = side →
  levels_wf comp side (<[id o := o]> os) (levels_add comp (price o) (id o) levels).
Proof.
  intros Hwf Hnone Hside. pose proof Hwf as (Hs & Hok & Hm).
  split; [by apply levels_add_sorted|]. split.
  - apply levels_add_ok; [done..|]. by eapply levels_wf_absent.
  - intros p j [Hin|[-> ->]]%indexed_levels_add.
    + destruct (Hm _ _ Hin) as (o' & Ho' & Hp & Hs').
      exists o'. rewrite lookup_insert_ne; [done|]. intros <-. congruence.
    + exists o. by rewrite lookup_insert_eq.
Qed.

Lemma levels_wf_remove comp `{!Compare comp} side os levels levels' o :
  levels_wf comp side os levels → os !! id o = Some o →
  levels_remove comp (price o) (id o) levels = Some levels' →
  levels_wf comp side os levels' ∧ ∀ p, ¬ indexed levels' p (id o).
Proof.
  intros (Hs & Hok & Hm) Ho Hrm.
  apply levels_remove_Some in Hrm as (Hs' & Hok' & Hin & Hiff); [|done..].
  split.
  - split; [done|]. split; [done|]. intros p j Hpj. apply Hm. by apply Hiff.
  - intros p Hp. apply Hiff in Hp as [Hp Hne].
    destruct (Hm _ _ Hp) as (o' & Ho' & Hprice & _).
    destruct Hne; congruence.
Qed.
Lemma vector_place_unfold b value :
  place b value =
    if (amount value =? 0)%Z || bool_decide (is_Some (orders_ b !! id value))
    then (false, b)
    else if is_bid (amount value) then
      (true, Book (<[id value := value]> (orders_ b))
                  (place_in_levels ensure_bid_level (bids_ b) (price value) (id value))
                  (asks_ b))
    else
      (true, Book (<[id value := value]> (orders_ b)) (bids_ b)
                  (place_in_levels ensure_ask_level (asks_ b) (price value) (id value))).
Proof.
  unfold place. destruct (amount value =? 0)%Z; [done|].
  case_bool_decide as Hact; [done|]. simpl.
  assert (orders_ b !! id value = None) as Hnone.
  { destruct (orders_ b !! id value) eqn:E; [|done]. destruct Hact. by eexists. }
  unfold orders_emplace. destruct (is_bid (amount value)); simpl; by rewrite Hnone.
Qed.

Lemma vector_place_wf b value :
  vector_book_wf b → vector_book_wf (place b value).2.
Proof.
  intros Hwf. rewrite vector_place_unfold.
  destruct (amount value =? 0)%Z eqn:Hamt; [done|]. apply Z.eqb_neq in Hamt.
  case_bool_decide as Hact; [done|]. simpl.
  assert (orders_ b !! id value = None) as Hnone.
  { destruct (orders_ b !! id value) eqn:E; [|done]. destruct Hact. by eexists. }
  destruct Hwf as [Hos Hb Ha Hidx].
  assert (∀ j, j ≠ id value →
    <[id value:=value]> (orders_ b) !! j = orders_ b !! j) as Hagree.
  { intros j Hj. by rewrite lookup_insert_ne. }
  destruct (is_bid (amount value)) eqn:Hside; simpl.
  - rewrite place_in_bids by apply Hb. split; simpl.
    + by apply store_wf_insert.
    + by apply (levels_wf_place greater).
    + eapply levels_wf_store; [done| |done].
      intros p. by eapply levels_wf_absent.
    + intros j o. destruct (decide (j = id value)) as [->|Hj].
      * rewrite lookup_insert_eq. intros [= <-]. rewrite Hside.
        apply indexed_levels_add. by right.
      * rewrite lookup_insert_ne by done. intros Ho. apply Hidx in Ho.
        destruct (is_bid (amount o)); [|done].
        apply indexed_levels_add. by left.
  - rewrite place_in_asks by apply Ha. split; simpl.
    + by apply store_wf_insert.
    + eapply levels_wf_store; [done| |done].
      intros p. by eapply levels_wf_absent.
    + by apply (levels_wf_place less).
    + intros j o. destruct (decide (j = id value)) as [->|Hj].
      * rewrite lookup_insert_eq. intros [= <-]. rewrite Hside.
        apply indexed_levels_add. by right.
      * rewrite lookup_insert_ne by done. intros Ho. apply Hidx in Ho.
        destruct (is_bid (amount o)); [done|].
        apply indexed_levels_add. by left.
Qed.

Lemma vector_store_wf_lookup b i o :
  vector_book_wf b → orders_ b !! i = Some o → id o = i ∧ amount o ≠ 0%Z.
Proof. intros [Hos _ _ _]. apply Hos. Qed.

(** In a well-formed book [cancel] succeeds exactly on the active ids. *)
Lemma vector_cancel_unfold b i :
  vector_book_wf b →
  cancel b i =
    match orders_ b !! i with
    | None => (false, b)
    | Some current =>
        if is_bid (amount current) then
          match levels_remove greater (price current) i (bids_ b) with
          | None => (false, b)
          | Some bids' => (true, Book (delete i (orders_ b)) bids' (asks_ b))
          end
        else
          match levels_remove less (price current) i (asks_ b) with
          | None => (false, b)
          | Some asks' => (true, Book (delete i (orders_ b)) (bids_ b) asks')
          end
    end.
Proof.
  intros [_ Hb Ha _]. unfold cancel.
  destruct (orders_ b !! i) as [current|]; [|done].
  by rewrite cancel_in_bids, cancel_in_asks by (apply Hb || apply Ha).
Qed.

Lemma vector_cancel_wf b i :
  vector_book_wf b → vector_book_wf (cancel b i).2.
Proof.
  intros Hwf. rewrite vector_cancel_unfold by done.
  destruct (orders_ b !! i) as [current|] eqn:Hcur; [|done].
  destruct (vector_store_wf_lookup _ _ _ Hwf Hcur) as [<- _].
  destruct Hwf as [Hos Hb Ha Hidx].
  assert (∀ j, j ≠ id current →
    delete (id current) (orders_ b) !! j = orders_ b !! j) as Hagree.
  { intros j Hj. by rewrite lookup_delete_ne. }
  destruct (is_bid (amount current)) eqn:Hside.
  - destruct (levels_remove greater _ _ _) as [bids'|] eqn:Hrm; [|done]. simpl.
    destruct (levels_wf_remove greater _ _ _ _ _ Hb Hcur Hrm) as [Hb' Hfree].
    split; simpl.
    + by apply store_wf_delete.
    + by eapply levels_wf_store.
    + eapply levels_wf_store; [done| |done]. intros p.
      eapply levels_wf_other_side; [done..|]. by rewrite Hside.
    + intros j o [Hj Ho]%lookup_delete_Some. apply Hidx in Ho.
      destruct (is_bid (amount o)); [|done].
      destruct Hb as (Hsb & Hokb & _).
      apply (levels_remove_Some greater) in Hrm as (_ & _ & _ & Hiff); [|done..].
      apply Hiff. split; [done|]. right. congruence.
  - destruct (levels_remove less _ _ _) as [asks'|] eqn:Hrm; [|done]. simpl.
    destruct (levels_wf_remove less _ _ _ _ _ Ha Hcur Hrm) as [Ha' Hfree].
    split; simpl.
    + by apply store_wf_delete.
    + eapply levels_wf_store; [done| |done]. intros p.
      eapply levels_wf_other_side; [done..|]. by rewrite Hside.
    + by eapply levels_wf_store.
    + intros j o [Hj Ho]%lookup_delete_Some. apply Hidx in Ho.
      destruct (is_bid (amount o)); [done|].
      destruct Ha as (Hsa & Hoka & _).
      apply (levels_remove_Some less) in Hrm as (_ & _ & _ & Hiff); [|done..].
      apply Hiff. split; [done|]. right. congruence.
Qed.

Lemma vector_modify_wf b value :
  vector_book_wf b → vector_book_wf (modify b value).2.
Proof.
  intros Hwf. unfold modify.
  destruct (amount value =? 0)%Z; [by apply vector_cancel_wf|].
  destruct (negb _); [done|].
  pose proof (vector_cancel_wf b (id value) Hwf) as Hwf1.
  destruct (cancel b (id value)) as [[] b1]; simpl in *; [|done].
  by apply vector_place_wf.
Qed.

Lemma vector_step_wf b r : vector_book_wf b → vector_book_wf (step b r).2.
Proof.
  destruct r; [apply vector_place_wf|apply vector_modify_wf|apply vector_cancel_wf].
Qed.

Lemma vector_run_wf b rs : vector_book_wf b → vector_book_wf (run b rs).
Proof.
  revert b. induction rs as [|r rs IH]; intros b Hwf; [done|].
  simpl. apply IH. by apply vector_step_wf.
Qed.

Lemma vector_empty_book_wf : vector_book_wf empty_book.
Proof.
  assert (∀ comp side, levels_wf comp side ∅ []) as Hnil.
  { intros comp side. split; [constructor|]. split; [constructor|].
    intros p i Hin. by apply indexed_nil in Hin. }
  split; simpl; [|done..|].
  - intros i o Hi. by rewrite lookup_empty in Hi.
  - intros i o Hi. by rewrite lookup_empty in Hi.
Qed.

Lemma vector_reachable_wf b : reachable b → vector_book_wf b.
Proof. intros [rs ->]. apply vector_run_wf, vector_empty_book_wf. Qed.

Lemma vector_run_app b rs1 rs2 : run b (rs1 ++ rs2) = run (run b rs1) rs2.
Proof. apply foldl_app. Qed.

Lemma vector_reachable_run b rs : reachable b → reachable (run b rs).
Proof. intros [rs0 ->]. exists (rs0 ++ rs). by rewrite vector_run_app. Qed.

Lemma vector_placed_reachable b : placed b → reachable b.
Proof.
  induction 1 as [|b value b' _ IH Hpl]; [by exists []|].
  replace b' with (run b [Place value]); [by apply vector_reachable_run|].
  simpl. by rewrite Hpl.
Qed.
End vector_invariant.

(** ** base_book_vector: the operations one by one *)

Section vector_operations.
Import BookVector.

Lemma vector_cancel_inactive b i :
  orders_ b !! i = None → cancel b i = (false, b).
Proof. intros Hi. unfold cancel. by rewrite Hi. Qed.

Lemma vector_cancel_false b i b' : cancel b i = (false, b') → b' = b.
Proof.
  unfold cancel. destruct (orders_ b !! i) as [current|]; [|congruence].
  destruct (is_bid (amount current));
    destruct (cancel_in_levels _ _ _ _); congruence.
Qed.

Lemma vector_cancel_orders b i b' :
  cancel b i = (true, b') → orders_ b' = delete i (orders_ b).
Proof.
  unfold cancel. destruct (orders_ b !! i) as [current|]; [|done].
  destruct (is_bid (amount current));
    destruct (cancel_in_levels _ _ _ _); by intros [= <-].
Qed.

Lemma vector_cancel_true b i b' :
  vector_book_wf b → cancel b i = (true, b') →
  ∃ value, orders_ b !! i = Some value
    ∧ indexed (if is_bid (amount value) then bids_ b else asks_ b) (price value) i
    ∧ orders_ b' = delete i (orders_ b)
    ∧ unlisted i b'.
Proof.
  intros Hwf Hc. pose proof (vector_cancel_wf b i Hwf) as Hwf'.
  rewrite Hc in Hwf'. simpl in Hwf'.
  pose proof (vector_cancel_orders _ _ _ Hc) as Hos.
  unfold cancel in Hc. destruct (orders_ b !! i) as [value|] eqn:Hv; [|done].
  exists value. split; [done|]. split; [by apply Hwf|]. split; [done|].
  assert (orders_ b' !! i = None) as Hgone by (rewrite Hos; apply lookup_delete_eq).
  destruct Hwf' as [_ Hb' Ha' _].
  intros level [Hin|Hin] Hi.
  - eapply (levels_wf_absent _ _ _ _ _ (Level.price level) Hb' Hgone).
    by exists level.
  - eapply (levels_wf_absent _ _ _ _ _ (Level.price level) Ha' Hgone).
    by exists level.
Qed.

Lemma vector_modify_zero b value :
  amount value = 0%Z → modify b value = cancel b (id value).
Proof. intros Hz. unfold modify. by rewrite Hz. Qed.

(** After its [cancel] succeeded, the [place] inside [modify] cannot be
    rejected: a failed [modify] changed nothing. *)
Lemma vector_modify_false b value b' : modify b value = (false, b') → b' = b.
Proof.
  unfold modify.
  destruct (amount value =? 0)%Z eqn:Hamt; [apply vector_cancel_false|].
  destruct (negb _); [congruence|].
  destruct (cancel b (id value)) as [[] b1] eqn:Hc; simpl.
  - apply vector_cancel_orders in Hc. rewrite vector_place_unfold, Hamt, Hc. simpl.
    rewrite bool_decide_eq_false_2.
    + by destruct (is_bid (amount value)).
    + rewrite lookup_delete_eq. by intros [? ?].
  - intros [= <-]. by eapply vector_cancel_false.
Qed.
End vector_operations.

(** * The claims *)

(** C4. In both books [place] returns [false] when the amount is 0 or the id
    is active, and a [place] that returns [false] leaves the whole book (the
    order store and both price indexes) as it was. *)
Theorem place_rejected_leaves_book :
  (∀ b value, (amount value = 0%Z ∨ is_Some (BookMap.orders_ b !! id value)) →
     BookMap.place b value = (false, b)) ∧
  (∀ b value b', BookMap.place b value = (false, b') → b' = b) ∧
  (∀ b value, (amount value = 0%Z ∨ is_Some (BookVector.orders_ b !! id value)) →
     BookVector.place b value = (false, b)) ∧
  (∀ b value b', BookVector.place b value = (false, b') → b' = b).
Proof.
  split; [|split; [|split]].
  - intros b value Hrej. rewrite map_place_unfold.
    destruct Hrej as [->|Hact]; [done|].
    rewrite (bool_decide_eq_true_2 _ Hact). by rewrite orb_true_r.
  - intros b value b'. rewrite map_place_unfold.
    destruct (_ || _); congruence.
  - intros b value Hrej. rewrite vector_place_unfold.
    destruct Hrej as [->|Hact]; [done|].
    rewrite (bool_decide_eq_true_2 _ Hact). by rewrite orb_true_r.
  - intros b value b'. rewrite vector_place_unfold.
    destruct (_ || _); [congruence|]. by destruct (is_bid (amount value)).
Qed.

Lemma place_rejected_leaves_book_witness :
  let mb := BookMap.run BookMap.empty_book [Place (Order 1 100 5)] in
  let vb := BookVector.run BookVector.empty_book [Place (Order 1 100 5)] in
  BookMap.place mb (Order 1 99 7) = (false, mb) ∧
  (BookMap.place mb (Order 2 99 0)).2 = mb ∧
  BookVector.place vb (Order 1 99 7) = (false, vb) ∧
  (BookVector.place vb (Order 2 99 0)).2 = vb.
Proof.
  intros mb vb.
  destruct place_rejected_leaves_book as (Hm1 & Hm2 & Hv1 & Hv2).
  split; [|split; [|split]].
  - apply Hm1. right. vm_compute. eexists. reflexivity.
  - apply (Hm2 mb (Order 2 99 0)). vm_compute. reflexivity.
  - apply Hv1. right. vm_compute. eexists. reflexivity.
  - apply (Hv2 vb (Order 2 99 0)). vm_compute. reflexivity.
Defined.

(** C6. In both books a [modify] that returns [false] leaves the book (the
    order store and both price indexes) exactly as it was before the call,
    so a failed [modify] never leaves an order half moved. *)
Theorem modify_failed_leaves_book :
  (∀ b value b', BookMap.modify b value = (false, b') → b' = b) ∧
  (∀ b value b', BookVector.modify b value = (false, b') → b' = b).
Proof. split; [apply map_modify_false|apply vector_modify_false]. Qed.

Lemma modify_failed_leaves_book_witness :
  let mb := BookMap.run BookMap.empty_book [Place (Order 1 100 5)] in
  let vb := BookVector.run BookVector.empty_book [Place (Order 1 100 5)] in
  (BookMap.modify mb (Order 2 99 7)).2 = mb ∧
  (BookVector.modify vb (Order 2 99 7)).2 = vb.
Proof.
  intros mb vb. destruct modify_failed_leaves_book as [Hm Hv]. split.
  - apply (Hm mb (Order 2 99 7)). vm_compute. reflexivity.
  - apply (Hv vb (Order 2 99 7)). vm_compute. reflexivity.
Defined.

(** C7. In both books, and in every state, [modify] with an order of amount
    0 returns what [cancel] of its id returns and ends in the same book; and
    no reachable book stores an order of amount 0. *)
Theorem modify_zero_is_cancel :
  (∀ b i p, BookMap.modify b (Order i p 0) = BookMap.cancel b i) ∧
  (∀ b i p, BookVector.modify b (Order i p 0) = BookVector.cancel b i) ∧
  (∀ b i o, BookMap.reachable b → BookMap.orders_ b !! i = Some o →
     amount o ≠ 0%Z) ∧
  (∀ b i o, BookVector.reachable b → BookVector.orders_ b !! i = Some o →
     amount o ≠ 0%Z).
Proof.
  split; [|split; [|split]].
  - intros b i p. by apply map_modify_zero.
  - intros b i p. by apply vector_modify_zero.
  - intros b i o Hr%map_reachable_wf Ho. by apply (map_store_wf_lookup b i o).
  - intros b i o Hr%vector_reachable_wf Ho. by apply (vector_store_wf_lookup b i o).
Qed.

Lemma modify_zero_is_cancel_witness :
  let mb := BookMap.run BookMap.empty_book [Place (Order 1 100 5)] in
  let vb := BookVector.run BookVector.empty_book [Place (Order 1 100 5)] in
  BookMap.modify mb (Order 1 100 0) = BookMap.cancel mb 1 ∧
  BookVector.modify vb (Order 1 100 0) = BookVector.cancel vb 1 ∧
  amount (Order 1 100 5) ≠ 0%Z ∧ amount (Order 1 100 5) ≠ 0%Z.
Proof.
  intros mb vb. destruct modify_zero_is_cancel as (Hm & Hv & Hmz & Hvz).
  split; [apply Hm|]. split; [apply Hv|]. split.
  - apply (Hmz mb 1%N); [by exists [Place (Order 1 100 5)]|].
    vm_compute. reflexivity.
  - apply (Hvz vb 1%N); [by exists [Place (Order 1 100 5)]|].
    vm_compute. reflexivity.
Defined.

(** C5. In every reachable book of either kind: [cancel] of an id that is
    not active returns [false]; when [cancel] returns [true] the order was
    active and indexed at its price on its side, and afterwards it is in
    neither the order store nor any price index; and when [cancel] returns
    [false] the order store is unchanged. *)
Theorem cancel_contract :
  (∀ b i, BookMap.reachable b →
     (BookMap.orders_ b !! i = None → BookMap.cancel b i = (false, b)) ∧
     (∀ b', BookMap.cancel b i = (true, b') →
        (∃ value, BookMap.orders_ b !! i = Some value ∧
           (price value, i) ∈
             (if is_bid (amount value) then BookMap.bids_ b else BookMap.asks_ b)) ∧
        BookMap.orders_ b' = delete i (BookMap.orders_ b) ∧
        BookMap.orders_ b' !! i = None ∧
        ∀ p, ((p, i) ∉ BookMap.bids_ b') ∧ ((p, i) ∉ BookMap.asks_ b')) ∧
     (∀ b', BookMap.cancel b i = (false, b') →
        BookMap.orders_ b' = BookMap.orders_ b)) ∧
  (∀ b i, BookVector.reachable b →
     (BookVector.orders_ b !! i = None → BookVector.cancel b i = (false, b)) ∧
     (∀ b', BookVector.cancel b i = (true, b') →
        (∃ value, BookVector.orders_ b !! i = Some value ∧
           indexed (if is_bid (amount value)
                    then BookVector.bids_ b else BookVector.asks_ b)
                   (price value) i) ∧
        BookVector.orders_ b' = delete i (BookVector.orders_ b) ∧
        BookVector.orders_ b' !! i = None ∧
        ∀ level, level ∈ BookVector.bids_ b' ∨ level ∈ BookVector.asks_ b' →
                 i ∉ BookVector.Level.ids level) ∧
     (∀ b', BookVector.cancel b i = (false, b') →
        BookVector.orders_ b' = BookVector.orders_ b)).
Proof.
  split.
  - intros b i Hwf%map_reachable_wf. split; [apply map_cancel_inactive|]. split.
    + intros b' Hc.
      destruct (map_cancel_true _ _ _ Hwf Hc) as (value & Hv & Hin & Hos & Hun).
      split; [by exists value|]. split; [done|]. split; [|done].
      rewrite Hos. apply lookup_delete_eq.
    + by intros b' ->%map_cancel_false.
  - intros b i Hwf%vector_reachable_wf. split; [apply vector_cancel_inactive|]. split.
    + intros b' Hc.
      destruct (vector_cancel_true _ _ _ Hwf Hc) as (value & Hv & Hin & Hos & Hun).
      split; [by exists value|]. split; [done|]. split; [|done].
      rewrite Hos. apply lookup_delete_eq.
    + by intros b' ->%vector_cancel_false.
Qed.

Lemma cancel_contract_witness :
  let mb := BookMap.run BookMap.empty_book [Place (Order 1 100 5)] in
  let vb := BookVector.run BookVector.empty_book [Place (Order 1 100 5)] in
  (BookMap.cancel mb 2 = (false, mb) ∧
   BookMap.orders_ (BookMap.cancel mb 1).2 !! 1%N = None ∧
   BookMap.orders_ (BookMap.cancel mb 2).2 = BookMap.orders_ mb) ∧
  (BookVector.cancel vb 2 = (false, vb) ∧
   BookVector.orders_ (BookVector.cancel vb 1).2 !! 1%N = None ∧
   BookVector.orders_ (BookVector.cancel vb 2).2 = BookVector.orders_ vb).
Proof.
  intros mb vb. destruct cancel_contract as [Hm Hv]. split.
  - assert (BookMap.reachable mb) as Hr by (by exists [Place (Order 1 100 5)]).
    split; [|split].
    + apply (Hm mb 2%N Hr). vm_compute. reflexivity.
    + apply (Hm mb 1%N Hr). vm_compute. reflexivity.
    + apply (Hm mb 2%N Hr). vm_compute. reflexivity.
  - assert (BookVector.reachable vb) as Hr by (by exists [Place (Order 1 100 5)]).
    split; [|split].
    + apply (Hv vb 2%N Hr). vm_compute. reflexivity.
    + apply (Hv vb 1%N Hr). vm_compute. reflexivity.
    + apply (Hv vb 2%N Hr). vm_compute. reflexivity.
Defined.

(** ** Best prices *)

Lemma side_best_bid os r : side_best greater true os r → best_bid_of os r.
Proof.
  unfold side_best, best_bid_of, is_bid, greater. destruct r as [o|].
  - intros (Hact & Hside & Hbest). split; [done|]. split; [lia|].
    intros o' Ho' Hpos. specialize (Hbest o' Ho'). lia.
  - intros Hnone o' Ho' Hpos. specialize (Hnone o' Ho'). lia.
Qed.

Lemma side_best_ask os r :
  store_wf os → side_best less false os r → best_ask_of os r.
Proof.
  unfold side_best, best_ask_of, is_bid, less. intros Hos. destruct r as [o|].
  - intros ([i Hi] & Hside & Hbest). split; [by exists i|].
    apply Hos in Hi as [_ Hnz]. split; [lia|].
    intros o' Ho' Hneg. specialize (Hbest o' Ho'). lia.
  - intros Hnone o' Ho' Hneg. specialize (Hnone o' Ho'). lia.
Qed.

Section map_best.
Import BookMap.
Context (comp : Z → Z → bool) `{!Compare comp}.

Lemma emplace_keeps k v m e : e ∈ m → e ∈ emplace comp k v m.
Proof.
  induction m as [|[k' v'] m IH]; simpl; [by intros ?%elem_of_nil|].
  intros He. destruct (comp k' k); [|destruct (comp k k'); [by right|done]].
  apply elem_of_cons in He as [->|He]; [by left|right; by apply IH].
Qed.

Lemma emplace_covers k v m : ∃ j, (k, j) ∈ emplace comp k v m.
Proof.
  induction m as [|[k' v'] m [j IH]]; simpl; [exists v; by left|].
  destruct (comp k' k) eqn:Hk'k; [exists j; by right|].
  destruct (comp k k') eqn:Hkk'; [exists v; by left|].
  assert (k = k') as <- by by apply comp_total. exists v'. by left.
Qed.

Lemma map_side_best side b m :
  index_wf comp side (orders_ b) m →
  (∀ i o, orders_ b !! i = Some o → is_bid (amount o) = side →
     ∃ j, (price o, j) ∈ m) →
  side_best comp side (orders_ b) (best_from_book b m).
Proof.
  intros [Hs Hm] Hcov. destruct m as [|[p i] m]; simpl.
  - intros o' [i' Ho'] Hside. destruct (Hcov _ _ Ho' Hside) as [j Hj].
    by apply elem_of_nil in Hj.
  - destruct (Hm p i) as (o & Ho & Hp & Hside); [by left|].
    rewrite Ho. split; [by exists i|]. split; [done|].
    intros o' [i' Ho'] Hside'. destruct (Hcov _ _ Ho' Hside') as [j Hj].
    rewrite Hp. by apply (keys_sorted_head comp p i m (price o', j)).
Qed.
End map_best.

Section vector_best.
Import BookVector.
Context (comp : Z → Z → bool) `{!Compare comp}.

(** The front level of a well-formed side is occupied, and its first id
    resolves to an active order of the front price. *)
Lemma vector_front b side levels front rest :
  store_wf (orders_ b) → levels_wf comp side (orders_ b) levels →
  levels = front :: rest →
  ∃ i ids o, Level.ids front = i :: ids
    ∧ best_from_levels b levels = Some o ∧ orders_ b !! i = Some o
    ∧ id o = i ∧ price o = Level.price front ∧ is_bid (amount o) = side.
Proof.
  intros Hos (Hs & Hok & Hm) ->. simpl.
  apply Forall_cons in Hok as [[Hne _] _].
  destruct (Level.ids front) as [|i ids] eqn:Hids; [done|].
  destruct (Hm (Level.price front) i) as (o & Ho & Hp & Hside).
  { exists front. split; [by left|]. split; [done|]. rewrite Hids. by left. }
  exists i, ids, o. split; [done|]. split; [done|]. split; [done|].
  split; [by apply (Hos i o)|done].
Qed.

Lemma vector_side_best side b levels :
  store_wf (orders_ b) → levels_wf comp side (orders_ b) levels →
  (∀ i o, orders_ b !! i = Some o → is_bid (amount o) = side →
     indexed levels (price o) i) →
  side_best comp side (orders_ b) (best_from_levels b levels).
Proof.
  intros Hos Hwf Hcov. destruct levels as [|front rest] eqn:Hlevels.
  - intros o' [i' Ho'] Hside. by apply Hcov, indexed_nil in Ho'.
  - rewrite <- Hlevels in *.
    destruct (vector_front b side levels front rest Hos Hwf Hlevels)
      as (i & ids & o & Hids & -> & Ho & Hid & Hp & Hside).
    split; [by exists i|]. split; [done|].
    intros o' [i' Ho'] Hside'.
    destruct (Hcov _ _ Ho' Hside') as (l' & Hl' & <- & _).
    rewrite Hp. destruct Hwf as [Hs _]. rewrite Hlevels in Hs, Hl'.
    by apply (levels_sorted_front comp front rest l').
Qed.
End vector_best.

(** Every active order of a book built by successful [place] calls finds
    its price occupied in the index of its side. *)
Lemma map_placed_covered b :
  BookMap.placed b →
  ∀ i o, BookMap.orders_ b !! i = Some o →
    ∃ j, (price o, j) ∈
      (if is_bid (amount o) then BookMap.bids_ b else BookMap.asks_ b).
Proof.
  induction 1 as [|b value b' _ IH Hpl]; intros i o; simpl.
  { by rewrite lookup_empty. }
  rewrite map_place_unfold in Hpl.
  destruct (_ || _); [done|]. injection Hpl as <-.
  rewrite map_add_to_book_orders. unfold BookMap.add_to_book. simpl.
  destruct (decide (i = id value)) as [->|Hne].
  - rewrite lookup_insert_eq. intros [= <-].
    destruct (is_bid (amount value)); simpl.
    + apply (emplace_covers greater).
    + apply (emplace_covers less).
  - rewrite lookup_insert_ne by done. intros [j Hj]%IH. exists j.
    destruct (is_bid (amount value)), (is_bid (amount o)); simpl; try done.
    + by apply emplace_keeps.
    + by apply emplace_keeps.
Qed.

(** C2. In a book of either kind built by successful [place] calls only,
    [best_bid()] returns an active order with amount > 0 whose price is the
    highest among the active orders with amount > 0, [best_ask()] an active
    order with amount < 0 whose price is the lowest among those with
    amount < 0, and each returns nothing when its side has no active
    order. *)
Theorem best_after_places :
  (∀ b, BookMap.placed b →
     best_bid_of (BookMap.orders_ b) (BookMap.best_bid b) ∧
     best_ask_of (BookMap.orders_ b) (BookMap.best_ask b)) ∧
  (∀ b, BookVector.placed b →
     best_bid_of (BookVector.orders_ b) (BookVector.best_bid b) ∧
     best_ask_of (BookVector.orders_ b) (BookVector.best_ask b)).
Proof.
  split.
  - intros b Hpl. pose proof (map_placed_covered b Hpl) as Hcov.
    apply map_placed_reachable, map_reachable_wf in Hpl as [Hos Hb Ha].
    split.
    + apply side_best_bid, (map_side_best greater); [done|].
      intros i o Ho Hside. specialize (Hcov i o Ho). by rewrite Hside in Hcov.
    + apply side_best_ask; [done|]. apply (map_side_best less); [done|].
      intros i o Ho Hside. specialize (Hcov i o Ho). by rewrite Hside in Hcov.
  - intros b [Hos Hb Ha Hidx]%vector_placed_reachable%vector_reachable_wf.
    split.
    + apply side_best_bid, (vector_side_best greater); [done..|].
      intros i o Ho Hside. specialize (Hidx i o Ho). by rewrite Hside in Hidx.
    + apply side_best_ask; [done|]. apply (vector_side_best less); [done..|].
      intros i o Ho Hside. specialize (Hidx i o Ho). by rewrite Hside in Hidx.
Qed.

Lemma best_after_places_witness :
  let mb := (BookMap.place
               (BookMap.place BookMap.empty_book (Order 1 100 5)).2
               (Order 2 100 7)).2 in
  let vb := (BookVector.place
               (BookVector.place BookVector.empty_book (Order 1 100 5)).2
               (Order 2 100 7)).2 in
  (best_bid_of (BookMap.orders_ mb) (BookMap.best_bid mb) ∧
   best_ask_of (BookMap.orders_ mb) (BookMap.best_ask mb)) ∧
  (best_bid_of (BookVector.orders_ vb) (BookVector.best_bid vb) ∧
   best_ask_of (BookVector.orders_ vb) (BookVector.best_ask vb)).
Proof.
  intros mb vb. destruct best_after_places as [Hm Hv]. split.
  - apply Hm.
    apply (BookMap.placed_place
             (BookMap.place BookMap.empty_book (Order 1 100 5)).2 (Order 2 100 7)).
    + apply (BookMap.placed_place BookMap.empty_book (Order 1 100 5)).
      * apply BookMap.placed_empty.
      * vm_compute. reflexivity.
    + vm_compute. reflexivity.
  - apply Hv.
    apply (BookVector.placed_place
             (BookVector.place BookVector.empty_book (Order 1 100 5)).2
             (Order 2 100 7)).
    + apply (BookVector.placed_place BookVector.empty_book (Order 1 100 5)).
      * apply BookVector.placed_empty.
      * vm_compute. reflexivity.
    + vm_compute. reflexivity.
Defined.

(** C9. In every reachable sorted-bucket book no price level of either side
    is empty; so [best_bid()] and [best_ask()] return nothing exactly when
    their side has no level, and an order they return is the first id of the
    front level, which is occupied. *)
Theorem levels_never_empty :
  ∀ b, BookVector.reachable b →
    (∀ level, level ∈ BookVector.bids_ b ∨ level ∈ BookVector.asks_ b →
       BookVector.Level.ids level ≠ []) ∧
    (BookVector.best_bid b = None ↔ BookVector.bids_ b = []) ∧
    (BookVector.best_ask b = None ↔ BookVector.asks_ b = []) ∧
    (∀ o, BookVector.best_bid b = Some o →
       ∃ front rest ids, BookVector.bids_ b = front :: rest ∧
         BookVector.Level.ids front = id o :: ids) ∧
    (∀ o, BookVector.best_ask b = Some o →
       ∃ front rest ids, BookVector.asks_ b = front :: rest ∧
         BookVector.Level.ids front = id o :: ids).
Proof.
  intros b [Hos Hb Ha _]%vector_reachable_wf.
  assert (∀ comp side levels, Compare comp →
    levels_wf comp side (BookVector.orders_ b) levels →
    (BookVector.best_from_levels b levels = None ↔ levels = []) ∧
    (∀ o, BookVector.best_from_levels b levels = Some o →
       ∃ front rest ids, levels = front :: rest ∧
         BookVector.Level.ids front = id o :: ids)) as Hside.
  { intros comp side levels Hcomp Hwf. destruct levels as [|front rest] eqn:Hl.
    { split; [done|]. by intros o. }
    rewrite <- Hl in *.
    destruct (vector_front comp b side levels front rest Hos Hwf Hl)
      as (i & ids & o & Hids & -> & Ho & Hid & _).
    split; [by rewrite Hl|]. intros o' [= <-].
    exists front, rest, ids. by rewrite Hid. }
  split.
  - intros level [Hin|Hin].
    + destruct Hb as (_ & Hok & _). rewrite Forall_forall in Hok.
      by apply Hok in Hin as [? _].
    + destruct Ha as (_ & Hok & _). rewrite Forall_forall in Hok.
      by apply Hok in Hin as [? _].
  - destruct (Hside greater true _ _ Hb) as [Hb1 Hb2].
    destruct (Hside less false _ _ Ha) as [Ha1 Ha2].
    done.
Qed.

Lemma levels_never_empty_witness :
  let b := BookVector.run BookVector.empty_book
             [Place (Order 1 100 5); Place (Order 2 101 (-3)); Cancel 1] in
  (BookVector.best_bid b = None ↔ BookVector.bids_ b = []) ∧
  (BookVector.best_ask b = None ↔ BookVector.asks_ b = []).
Proof.
  intros b.
  assert (BookVector.reachable b) as Hr by (by eexists).
  destruct (levels_never_empty b Hr) as (_ & Hbid & Hask & _). by split.
Defined.

(** ** [place] followed by [cancel] *)

Lemma emplace_found_or_unchanged comp k v m :
  (k, v) ∈ BookMap.emplace comp k v m ∨ BookMap.emplace comp k v m = m.
Proof.
  induction m as [|[k' v'] m IH]; simpl; [left; by left|].
  destruct (comp k' k).
  - destruct IH as [Hin|Heq]; [left; by right|right; by rewrite Heq].
  - destruct (comp k k'); [left; by left|by right].
Qed.

(** In the ordered-map book, placing an order of a fresh id and cancelling
    its id gives back both indexes and every other stored order. *)
Lemma map_place_cancel b o :
  map_book_wf b → BookMap.orders_ b !! id o = None →
  let b2 := (BookMap.cancel (BookMap.place b o).2 (id o)).2 in
  BookMap.bids_ b2 = BookMap.bids_ b ∧ BookMap.asks_ b2 = BookMap.asks_ b ∧
  ∀ j, j ≠ id o → BookMap.orders_ b2 !! j = BookMap.orders_ b !! j.
Proof.
  intros Hwf Hnone. rewrite map_place_unfold.
  destruct (_ || _); simpl.
  { by rewrite (map_cancel_inactive b (id o) Hnone). }
  assert (∀ comp side m, Compare comp →
    index_wf comp side (BookMap.orders_ b) m →
    match BookMap.erase_in_equal_range comp (price o) (id o)
            (BookMap.emplace comp (price o) (id o) m) with
    | Some m' => m' = m
    | None => BookMap.emplace comp (price o) (id o) m = m
    end) as Hside.
  { intros comp side m Hcomp Hm. pose proof Hm as [Hs _].
    destruct (BookMap.erase_in_equal_range _ _ _ _) as [m'|] eqn:Her.
    - pose proof Her as (Hin & _)%(erase_Some comp); [|by apply emplace_sorted].
      apply (elem_of_emplace comp) in Hin; [|done].
      destruct Hin as [Hin|[_ Hfree]].
      + by apply (index_wf_absent _ _ _ _ _ _ Hm Hnone) in Hin.
      + rewrite erase_emplace in Her by done. congruence.
    - apply (erase_None comp) in Her; [|by apply emplace_sorted].
      by destruct (emplace_found_or_unchanged comp (price o) (id o) m). }
  destruct Hwf as [_ Hb Ha].
  specialize (Hside greater true _ _ Hb) as Hbid.
  specialize (Hside less false _ _ Ha) as Hask.
  unfold BookMap.cancel, BookMap.add_to_book, BookMap.remove_from_book.
  destruct (is_bid (amount o)) eqn:Hbido; simpl;
    rewrite lookup_insert_eq; simpl; rewrite Hbido; simpl.
  - destruct (BookMap.erase_in_equal_range greater _ _ _) as [m'|]; simpl.
    + split; [done|]. split; [done|]. intros j Hj.
      by rewrite lookup_delete_ne, lookup_insert_ne.
    + split; [done|]. split; [done|]. intros j Hj. by rewrite lookup_insert_ne.
  - destruct (BookMap.erase_in_equal_range less _ _ _) as [m'|]; simpl.
    + split; [done|]. split; [done|]. intros j Hj.
      by rewrite lookup_delete_ne, lookup_insert_ne.
    + split; [done|]. split; [done|]. intros j Hj. by rewrite lookup_insert_ne.
Qed.

(** In the sorted-bucket book the same round trip gives back the book. *)
Lemma vector_place_cancel b o :
  vector_book_wf b → BookVector.orders_ b !! id o = None →
  (BookVector.cancel (BookVector.place b o).2 (id o)).2 = b.
Proof.
  intros Hwf Hnone. pose proof (vector_place_wf b o Hwf) as Hwf1.
  rewrite vector_place_unfold in *.
  destruct (_ || _); simpl in *.
  { by rewrite (vector_cancel_inactive b (id o) Hnone). }
  rewrite vector_cancel_unfold by done.
  destruct Hwf as [_ Hb Ha _].
  destruct (is_bid (amount o)) eqn:Hbido; simpl;
    rewrite lookup_insert_eq, Hbido.
  - rewrite place_in_bids by apply Hb.
    rewrite (levels_remove_add greater); [|apply Hb|by eapply levels_wf_absent].
    simpl. rewrite delete_insert_id by done. by destruct b.
  - rewrite place_in_asks by apply Ha.
    rewrite (levels_remove_add less); [|apply Ha|by eapply levels_wf_absent].
    simpl. rewrite delete_insert_id by done. by destruct b.
Qed.

(** C8, as amended. In every reachable book of either kind, for every order
    [o] whose id is not active, [place o] followed by [cancel (id o)] leaves
    [best_bid()] and [best_ask()] as they were before the [place]. *)
Theorem place_cancel_restores_best :
  (∀ b o, BookMap.reachable b → BookMap.orders_ b !! id o = None →
     let b2 := (BookMap.cancel (BookMap.place b o).2 (id o)).2 in
     BookMap.best_bid b2 = BookMap.best_bid b ∧
     BookMap.best_ask b2 = BookMap.best_ask b) ∧
  (∀ b o, BookVector.reachable b → BookVector.orders_ b !! id o = None →
     let b2 := (BookVector.cancel (BookVector.place b o).2 (id o)).2 in
     BookVector.best_bid b2 = BookVector.best_bid b ∧
     BookVector.best_ask b2 = BookVector.best_ask b).
Proof.
  split.
  - intros b o Hwf%map_reachable_wf Hnone b2.
    destruct (map_place_cancel b o Hwf Hnone) as (Hbids & Hasks & Hos).
    fold b2 in Hbids, Hasks, Hos.
    unfold BookMap.best_bid, BookMap.best_ask. rewrite Hbids, Hasks.
    assert (∀ comp side m, index_wf comp side (BookMap.orders_ b) m →
      BookMap.best_from_book b2 m = BookMap.best_from_book b m) as Hbest.
    { intros comp side [|[p i] m] Hm; [done|]. simpl. apply Hos. intros ->.
      eapply index_wf_absent; [done..|]. by left. }
    destruct Hwf as [_ Hb Ha]. split; by eapply Hbest.
  - intros b o Hwf%vector_reachable_wf Hnone b2.
    subst b2. by rewrite vector_place_cancel.
Qed.

Lemma place_cancel_restores_best_witness :
  let mb := BookMap.run BookMap.empty_book [Place (Order 1 100 5)] in
  let vb := BookVector.run BookVector.empty_book [Place (Order 1 100 5)] in
  (BookMap.best_bid
     (BookMap.cancel (BookMap.place mb (Order 2 100 7)).2 2).2
   = BookMap.best_bid mb) ∧
  (BookVector.best_bid
     (BookVector.cancel (BookVector.place vb (Order 2 100 7)).2 2).2
   = BookVector.best_bid vb).
Proof.
  intros mb vb. destruct place_cancel_restores_best as [Hm Hv]. split.
  - apply (Hm mb (Order 2 100 7)); [by eexists|]. vm_compute. reflexivity.
  - apply (Hv vb (Order 2 100 7)); [by eexists|]. vm_compute. reflexivity.
Defined.

(** C8 as stated fails when the id of [o] is already active: [place] is
    rejected and [cancel] then removes the order that was there. *)
Lemma place_cancel_active_id_changes_best :
  let o := Order 1 100 5 in
  let mb := BookMap.run BookMap.empty_book [Place o] in
  let vb := BookVector.run BookVector.empty_book [Place o] in
  (BookMap.reachable mb ∧
   BookMap.best_bid mb = Some o ∧
   BookMap.best_bid (BookMap.cancel (BookMap.place mb o).2 (id o)).2 = None ∧
   BookMap.best_bid (BookMap.cancel (BookMap.place mb o).2 (id o)).2
     ≠ BookMap.best_bid mb) ∧
  (BookVector.reachable vb ∧
   BookVector.best_bid vb = Some o ∧
   BookVector.best_bid (BookVector.cancel (BookVector.place vb o).2 (id o)).2
     = None ∧
   BookVector.best_bid (BookVector.cancel (BookVector.place vb o).2 (id o)).2
     ≠ BookVector.best_bid vb).
Proof.
  intros o mb vb. split; (split; [by eexists|]); vm_compute; done.
Qed.

(** ** [modify] at the same price and side *)

(** In the sorted-bucket book [modify] is [cancel] followed by [place]:
    the id is swapped out of its level and pushed at the back again. *)
Lemma vector_modify_same_level b value previous :
  vector_book_wf b →
  BookVector.orders_ b !! id value = Some previous →
  same_side (amount previous) (amount value) →
  price previous = price value →
  ∃ k level,
    (if is_bid (amount value) then BookVector.bids_ b else BookVector.asks_ b)
      !! k = Some level
    ∧ BookVector.Level.price level = price value
    ∧ id value ∈ BookVector.Level.ids level
    ∧ let level' :=
        BookVector.push_back (id value)
          (BookVector.remove_id_from_level level (id value)).2 in
      BookVector.modify b value =
        (true,
         if is_bid (amount value) then
           BookVector.Book (<[id value := value]> (BookVector.orders_ b))
             (<[k := level']> (BookVector.bids_ b)) (BookVector.asks_ b)
         else
           BookVector.Book (<[id value := value]> (BookVector.orders_ b))
             (BookVector.bids_ b) (<[k := level']> (BookVector.asks_ b))).
Proof.
  intros Hwf Hprev [Hside Hnz]%same_side_is_bid Hprice.
  pose proof Hwf as [Hos Hb Ha Hidx].
  pose proof (Hidx _ _ Hprev) as Hin. rewrite Hside, Hprice in Hin.
  apply Z.eqb_neq in Hnz.
  unfold BookVector.modify. rewrite Hnz.
  rewrite bool_decide_eq_true_2 by (by eexists). simpl.
  pose proof (vector_cancel_wf b (id value) Hwf) as Hwf1.
  rewrite vector_cancel_unfold in * by done.
  rewrite Hprev, Hside, Hprice in *.
  assert (∀ comp levels, Compare comp → levels_sorted comp levels →
    indexed levels (price value) (id value) →
    ∃ levels1 k level,
      levels_remove comp (price value) (id value) levels = Some levels1
      ∧ levels !! k = Some level
      ∧ BookVector.Level.price level = price value
      ∧ id value ∈ BookVector.Level.ids level
      ∧ levels_add comp (price value) (id value) levels1
        = <[k := BookVector.push_back (id value)
                   (BookVector.remove_id_from_level level (id value)).2]> levels)
    as Hmove.
  { intros comp levels Hcomp Hs Hi.
    destruct (levels_remove comp (price value) (id value) levels)
      as [levels1|] eqn:Hrm; [|by apply (levels_remove_None comp) in Hrm].
    destruct (levels_add_remove comp _ _ _ _ Hs Hrm) as (k & level & ?).
    by exists levels1, k, level. }
  destruct (is_bid (amount value)) eqn:Hbid.
  - destruct (Hmove greater (BookVector.bids_ b) _ (proj1 Hb) Hin)
      as (bids1 & k & level & Hrm & Hk & Hp & Hi & Hadd).
    exists k, level. split; [done|]. split; [done|]. split; [done|].
    rewrite Hrm in *. simpl in *.
    rewrite vector_place_unfold, Hnz. simpl.
    rewrite bool_decide_eq_false_2
      by (rewrite lookup_delete_eq; by intros [? ?]).
    rewrite Hbid. simpl.
    rewrite place_in_bids by apply Hwf1.
    by rewrite Hadd, insert_delete_eq.
  - destruct (Hmove less (BookVector.asks_ b) _ (proj1 Ha) Hin)
      as (asks1 & k & level & Hrm & Hk & Hp & Hi & Hadd).
    exists k, level. split; [done|]. split; [done|]. split; [done|].
    rewrite Hrm in *. simpl in *.
    rewrite vector_place_unfold, Hnz. simpl.
    rewrite bool_decide_eq_false_2
      by (rewrite lookup_delete_eq; by intros [? ?]).
    rewrite Hbid. simpl.
    rewrite place_in_asks by apply Hwf1.
    by rewrite Hadd, insert_delete_eq.
Qed.

(** C3, as amended. In every reachable book, [modify] with an order of the
    same side and price as the active order stored under its id returns
    [true] and changes only that entry of the order store.  The ordered-map
    book leaves both price indexes as they were.  The sorted-bucket book
    leaves the other side and every other level as they were and keeps the
    ids of the order's level, but moves the id to the back of that level:
    it is removed by the swap with the last id and pushed again. *)
Theorem modify_same_price_and_side :
  (∀ b value previous,
     BookMap.reachable b →
     BookMap.orders_ b !! id value = Some previous →
     same_side (amount previous) (amount value) →
     price previous = price value →
     BookMap.modify b value =
       (true, BookMap.Book (<[id value := value]> (BookMap.orders_ b))
                (BookMap.bids_ b) (BookMap.asks_ b))) ∧
  (∀ b value previous,
     BookVector.reachable b →
     BookVector.orders_ b !! id value = Some previous →
     same_side (amount previous) (amount value) →
     price previous = price value →
     ∃ k level,
       (if is_bid (amount value) then BookVector.bids_ b else BookVector.asks_ b)
         !! k = Some level
       ∧ BookVector.Level.price level = price value
       ∧ id value ∈ BookVector.Level.ids level
       ∧ let level' :=
           BookVector.push_back (id value)
             (BookVector.remove_id_from_level level (id value)).2 in
         BookVector.Level.ids level' ≡ₚ BookVector.Level.ids level
         ∧ BookVector.modify b value =
             (true,
              if is_bid (amount value) then
                BookVector.Book (<[id value := value]> (BookVector.orders_ b))
                  (<[k := level']> (BookVector.bids_ b)) (BookVector.asks_ b)
              else
                BookVector.Book (<[id value := value]> (BookVector.orders_ b))
                  (BookVector.bids_ b) (<[k := level']> (BookVector.asks_ b)))).
Proof.
  split.
  - intros b value previous _. apply map_modify_in_place.
  - intros b value previous Hwf%vector_reachable_wf Hprev Hside Hprice.
    destruct (vector_modify_same_level b value previous Hwf Hprev Hside Hprice)
      as (k & level & Hk & Hp & Hi & Hmod).
    exists k, level. split; [done|]. split; [done|]. split; [done|].
    split; [|done]. simpl.
    pose proof (remove_id_present level (id value) Hi) as Hrm.
    destruct (BookVector.remove_id_from_level level (id value))
      as [removed level1] eqn:Hr.
    simpl in *. subst removed. apply remove_id_true in Hr as [_ Hperm].
    rewrite Hperm. symmetry. apply Permutation_cons_append.
Qed.

Lemma modify_same_price_and_side_witness :
  let rs := [Place (Order 1 100 5); Place (Order 2 100 7); Place (Order 3 100 9)] in
  let mb := BookMap.run BookMap.empty_book rs in
  let vb := BookVector.run BookVector.empty_book rs in
  BookMap.modify mb (Order 1 100 6) =
    (true, BookMap.Book (<[1%N := Order 1 100 6]> (BookMap.orders_ mb))
             (BookMap.bids_ mb) (BookMap.asks_ mb)) ∧
  ∃ k level, BookVector.bids_ vb !! k = Some level ∧
    (BookVector.modify vb (Order 1 100 6)).1 = true.
Proof.
  intros rs mb vb. destruct modify_same_price_and_side as [Hm Hv]. split.
  - apply (Hm mb (Order 1 100 6) (Order 1 100 5)).
    + by exists rs.
    + vm_compute. reflexivity.
    + left. simpl. lia.
    + reflexivity.
  - destruct (Hv vb (Order 1 100 6) (Order 1 100 5))
      as (k & level & Hk & _ & _ & _ & Hmod).
    + by exists rs.
    + vm_compute. reflexivity.
    + left. simpl. lia.
    + reflexivity.
    + exists k, level. split; [exact Hk|]. rewrite Hmod. reflexivity.
Defined.

(** C3 as stated fails in the sorted-bucket book: the bid index changes and
    [best_bid()] returns another order of the same price. *)
Lemma vector_modify_in_place_moves_id :
  let b := BookVector.run BookVector.empty_book
             [Place (Order 1 100 5); Place (Order 2 100 7)] in
  let value := Order 1 100 6 in
  BookVector.reachable b ∧
  BookVector.orders_ b !! id value = Some (Order 1 100 5) ∧
  BookVector.bids_ b = [BookVector.Level.Make 100 [1; 2]%N] ∧
  BookVector.best_bid b = Some (Order 1 100 5) ∧
  (BookVector.modify b value).1 = true ∧
  BookVector.bids_ (BookVector.modify b value).2
    = [BookVector.Level.Make 100 [2; 1]%N] ∧
  BookVector.bids_ (BookVector.modify b value).2 ≠ BookVector.bids_ b ∧
  BookVector.best_bid (BookVector.modify b value).2 = Some (Order 2 100 7) ∧
  id <$> BookVector.best_bid (BookVector.modify b value).2
    ≠ id <$> BookVector.best_bid b.
Proof. intros b value. split; [by eexists|]. vm_compute. done. Qed.

(** ** base_book_map: an order placed at an occupied price *)

Section stranded_order.
Import BookMap.

Lemma emplace_elem comp k v m e :
  e ∈ emplace comp k v m → e ∈ m ∨ e = (k, v).
Proof.
  induction m as [|[k' v'] m IH]; simpl.
  - intros ->%list_elem_of_singleton. by right.
  - destruct (comp k' k).
    + intros [->|[He| ->]%IH]%elem_of_cons;
        [left; by left|left; by right|by right].
    + destruct (comp k k'); [|by left].
      intros [->|He]%elem_of_cons; [by right|by left].
Qed.

Lemma unindexed_add_to_book i b value :
  unindexed i b → id value ≠ i → unindexed i (add_to_book b value).2.
Proof.
  intros Hun Hne p. specialize (Hun p) as [Hb Ha]. unfold add_to_book.
  destruct (is_bid (amount value)); simpl; split; try done;
    intros [Hin|[= _ Heq]]%emplace_elem; done.
Qed.

Lemma unindexed_remove_from_book i b value b1 :
  map_book_wf b → unindexed i b → remove_from_book b value = (true, b1) →
  unindexed i b1 ∧ orders_ b1 = orders_ b.
Proof.
  intros [_ [Hsb _] [Hsa _]] Hun. unfold remove_from_book.
  destruct (is_bid (amount value)).
  - destruct (erase_in_equal_range greater _ _ _) as [bids'|] eqn:Her; [|done].
    intros [= <-]. split; [|done]. intros p. specialize (Hun p) as [Hb Ha].
    split; [|done]. simpl. intros Hin.
    apply (erase_Some greater) in Her as (_ & _ & Hiff); [|done].
    by apply Hiff in Hin as [? _].
  - destruct (erase_in_equal_range less _ _ _) as [asks'|] eqn:Her; [|done].
    intros [= <-]. split; [|done]. intros p. specialize (Hun p) as [Hb Ha].
    split; [done|]. simpl. intros Hin.
    apply (erase_Some less) in Her as (_ & _ & Hiff); [|done].
    by apply Hiff in Hin as [? _].
Qed.

(** Nothing can be removed from the indexes for an id they do not hold. *)
Lemma unindexed_remove_fails b value :
  map_book_wf b → unindexed (id value) b →
  remove_from_book b value = (false, b).
Proof.
  intros [_ [Hsb _] [Hsa _]] Hun. specialize (Hun (price value)) as [Hb Ha].
  unfold remove_from_book. destruct (is_bid (amount value)).
  - destruct (erase_in_equal_range greater _ _ _) eqn:Her; [|done].
    by apply (erase_Some greater) in Her as (? & _).
  - destruct (erase_in_equal_range less _ _ _) eqn:Her; [|done].
    by apply (erase_Some less) in Her as (? & _).
Qed.

Lemma stranded_cancel o b :
  map_book_wf b → stranded o b → cancel b (id o) = (false, b).
Proof.
  intros Hwf [(o' & Ho' & Hid & _) Hun]. unfold cancel. rewrite Ho'.
  rewrite unindexed_remove_fails; [done..|]. by rewrite Hid.
Qed.

Lemma stranded_cancel_step o b i :
  map_book_wf b → stranded o b → stranded o (cancel b i).2.
Proof.
  intros Hwf Hst. destruct (decide (i = id o)) as [->|Hne].
  { by rewrite stranded_cancel. }
  destruct Hst as [(o' & Ho' & Hrest) Hun]. unfold cancel.
  destruct (orders_ b !! i) as [value|]; [|by split; [exists o'|]].
  destruct (remove_from_book b value) as [[] b1] eqn:Hrm; simpl.
  - destruct (unindexed_remove_from_book _ _ _ _ Hwf Hun Hrm) as [Hun1 Hos].
    split; [|done]. exists o'. simpl. by rewrite Hos, lookup_delete_ne.
  - apply map_remove_from_book_false in Hrm as ->. by split; [exists o'|].
Qed.

Lemma stranded_step o b r :
  map_book_wf b → stranded o b → stranded o (step b r).2.
Proof.
  intros Hwf Hst. destruct r as [value|value|i]; simpl;
    [| |by apply stranded_cancel_step].
  - rewrite map_place_unfold. case_bool_decide as Hact.
    { by rewrite orb_true_r. }
    destruct (amount value =? 0)%Z; [done|]. simpl.
    destruct Hst as [(o' & Ho' & Hrest) Hun].
    assert (id value ≠ id o) as Hne.
    { intros Heq. apply Hact. rewrite Heq. by eexists. }
    split.
    + exists o'. by rewrite map_add_to_book_orders; simpl; rewrite lookup_insert_ne.
    + by apply unindexed_add_to_book.
  - unfold modify.
    destruct (amount value =? 0)%Z; [by apply stranded_cancel_step|].
    destruct (orders_ b !! id value) as [previous|] eqn:Hprev; [|done].
    destruct (map_store_wf_lookup _ _ _ Hwf Hprev) as [Hidp _].
    pose proof Hst as [(o' & Ho' & Hid & Hp & Hside) Hun].
    destruct (eqb _ _ && _) eqn:Hsame.
    + apply andb_true_iff in Hsame as [Hs Hpr].
      apply eqb_prop in Hs. apply Z.eqb_eq in Hpr. simpl.
      split; [|done]. simpl.
      destruct (decide (id value = id o)) as [Heq|Hne].
      * exists value. rewrite Heq, lookup_insert_eq.
        rewrite Heq, Ho' in Hprev. injection Hprev as <-.
        split; [done|]. split; [done|]. split; congruence.
      * exists o'. by rewrite lookup_insert_ne.
    + destruct (decide (id value = id o)) as [Heq|Hne].
      { rewrite unindexed_remove_fails; [done..|]. by rewrite Hidp, Heq. }
      destruct (remove_from_book b previous) as [[] b1] eqn:Hrm; simpl.
      * destruct (unindexed_remove_from_book _ _ _ _ Hwf Hun Hrm) as [Hun1 Hos].
        set (b2 := set_orders b1 _).
        pose proof (map_add_to_book_true b2 value) as Htrue.
        pose proof (map_add_to_book_orders b2 value) as Hos3.
        pose proof (unindexed_add_to_book (id o) b2 value Hun1 Hne) as Hun3.
        destruct (add_to_book b2 value) as [added b3]. simpl in *. subst added.
        simpl. split; [|done]. exists o'.
        by rewrite Hos3, lookup_insert_ne, Hos.
      * by apply map_remove_from_book_false in Hrm as ->.
Qed.

Lemma stranded_run o b rs :
  map_book_wf b → stranded o b → stranded o (run b rs).
Proof.
  revert b. induction rs as [|r rs IH]; intros b Hwf Hst; [done|].
  simpl. apply IH; [by apply map_step_wf|by apply stranded_step].
Qed.

(** A successful [place] at an occupied price strands the order. *)
Lemma place_occupied_stranded b o b1 j :
  map_book_wf b → place b o = (true, b1) →
  (price o, j) ∈ (if is_bid (amount o) then bids_ b else asks_ b) →
  orders_ b1 !! id o = Some o ∧ bids_ b1 = bids_ b ∧ asks_ b1 = asks_ b
  ∧ stranded o b1.
Proof.
  intros Hwf Hpl Hocc. rewrite map_place_unfold in Hpl.
  case_bool_decide as Hact; [by rewrite orb_true_r in Hpl|].
  destruct (amount o =? 0)%Z; [done|]. simpl in Hpl. injection Hpl as <-.
  assert (orders_ b !! id o = None) as Hnone.
  { destruct (orders_ b !! id o) eqn:E; [|done]. destruct Hact. by eexists. }
  pose proof (map_absent_unindexed b (id o) Hwf Hnone) as Hun.
  destruct Hwf as [_ [Hsb _] [Hsa _]].
  assert (∀ b', orders_ b' !! id o = Some o → bids_ b' = bids_ b →
            asks_ b' = asks_ b →
            orders_ b' !! id o = Some o ∧ bids_ b' = bids_ b ∧
            asks_ b' = asks_ b ∧ stranded o b') as Hfin.
  { intros b' Ho Hb Ha. split; [done|]. split; [done|]. split; [done|].
    split; [by exists o|]. intros p. rewrite Hb, Ha. apply Hun. }
  unfold add_to_book. destruct (is_bid (amount o)); apply Hfin; simpl;
    try apply lookup_insert_eq; try done.
  - by apply (emplace_occupied greater _ _ j).
  - by apply (emplace_occupied less _ _ j).
Qed.
End stranded_order.

(** Calls on other ids leave the stored order alone. *)
Lemma stranded_value_step o b r :
  map_book_wf b → stranded o b → (∀ value, r = Modify value → id value ≠ id o) →
  BookMap.orders_ (BookMap.step b r).2 !! id o = BookMap.orders_ b !! id o.
Proof.
  intros Hwf Hst Hr. destruct r as [value|value|i]; simpl.
  - rewrite map_place_unfold. case_bool_decide as Hact.
    { by rewrite orb_true_r. }
    destruct (amount value =? 0)%Z; [done|]. simpl.
    rewrite map_add_to_book_orders. simpl. apply lookup_insert_ne.
    intros Heq. apply Hact. rewrite Heq.
    destruct Hst as [(o' & Ho' & _) _]. by eexists.
  - specialize (Hr value eq_refl).
    pose proof (stranded_cancel_step o b (id value) Hwf Hst) as Hc.
    unfold BookMap.modify.
    destruct (amount value =? 0)%Z.
    { unfold BookMap.cancel.
      destruct (BookMap.orders_ b !! id value) as [v|]; [|done].
      destruct (BookMap.remove_from_book b v) as [[] b1] eqn:Hrm; simpl.
      - destruct Hst as [_ Hun].
        destruct (unindexed_remove_from_book _ _ _ _ Hwf Hun Hrm) as [_ ->].
        by apply lookup_delete_ne.
      - by apply map_remove_from_book_false in Hrm as ->. }
    destruct (BookMap.orders_ b !! id value) as [previous|]; [|done].
    destruct (eqb _ _ && _); [by apply lookup_insert_ne|].
    destruct (BookMap.remove_from_book b previous) as [[] b1] eqn:Hrm; simpl.
    + destruct Hst as [_ Hun].
      destruct (unindexed_remove_from_book _ _ _ _ Hwf Hun Hrm) as [_ Hos].
      set (b2 := BookMap.set_orders b1 _).
      pose proof (map_add_to_book_true b2 value) as Htrue.
      pose proof (map_add_to_book_orders b2 value) as Hos3.
      destruct (BookMap.add_to_book b2 value) as [added b3].
      simpl in *. subst added. simpl.
      by rewrite Hos3, lookup_insert_ne, Hos.
    + by apply map_remove_from_book_false in Hrm as ->.
  - destruct (decide (i = id o)) as [->|Hne].
    { by rewrite stranded_cancel. }
    unfold BookMap.cancel.
    destruct (BookMap.orders_ b !! i) as [v|]; [|done].
    destruct (BookMap.remove_from_book b v) as [[] b1] eqn:Hrm; simpl.
    + destruct Hst as [_ Hun].
      destruct (unindexed_remove_from_book _ _ _ _ Hwf Hun Hrm) as [_ ->].
      by apply lookup_delete_ne.
    + by apply map_remove_from_book_false in Hrm as ->.
Qed.

Lemma stranded_value_run o b rs :
  map_book_wf b → stranded o b →
  (∀ value, Modify value ∈ rs → id value ≠ id o) →
  BookMap.orders_ (BookMap.run b rs) !! id o = BookMap.orders_ b !! id o.
Proof.
  revert b. induction rs as [|r rs IH]; intros b Hwf Hst Hrs; [done|].
  simpl. rewrite IH.
  - apply stranded_value_step; [done..|]. intros value ->. apply Hrs. by left.
  - by apply map_step_wf.
  - by apply stranded_step.
  - intros value Hin. apply Hrs. by right.
Qed.

(** C10. In the ordered-map book, when [place] succeeds in a reachable book
    for an order [o] whose side already holds an entry at the price of [o],
    [o] is stored but its id is not written into the index; after any
    further calls [cancel (id o)] returns [false] and changes nothing, the
    order is still active under its id with its price and side, and its id
    is in no index.  The stored value is [o] itself as long as no [modify]
    was called on its id. *)
Theorem crowded_order_never_cancelled :
  ∀ b o b1 rs,
    BookMap.reachable b → BookMap.place b o = (true, b1) →
    (∃ j, (price o, j) ∈
       (if is_bid (amount o) then BookMap.bids_ b else BookMap.asks_ b)) →
    (BookMap.orders_ b1 !! id o = Some o ∧
     BookMap.bids_ b1 = BookMap.bids_ b ∧ BookMap.asks_ b1 = BookMap.asks_ b) ∧
    let b2 := BookMap.run b1 rs in
    BookMap.cancel b2 (id o) = (false, b2) ∧
    (∃ o', BookMap.orders_ b2 !! id o = Some o' ∧ id o' = id o ∧
           price o' = price o ∧ is_bid (amount o') = is_bid (amount o)) ∧
    (∀ p, ((p, id o) ∉ BookMap.bids_ b2) ∧ ((p, id o) ∉ BookMap.asks_ b2)) ∧
    ((∀ value, Modify value ∈ rs → id value ≠ id o) →
     BookMap.orders_ b2 !! id o = Some o).
Proof.
  intros b o b1 rs Hwf%map_reachable_wf Hpl [j Hocc].
  destruct (place_occupied_stranded b o b1 j Hwf Hpl Hocc) as (Ho & Hb & Ha & Hst).
  split; [done|].
  pose proof (map_place_wf b o Hwf) as Hwf1. rewrite Hpl in Hwf1. simpl in Hwf1.
  pose proof (map_run_wf b1 rs Hwf1) as Hwf2.
  pose proof (stranded_run o b1 rs Hwf1 Hst) as Hst2.
  split; [by apply stranded_cancel|]. split; [apply Hst2|]. split; [apply Hst2|].
  intros Hrs. by rewrite stranded_value_run.
Qed.

Lemma crowded_order_never_cancelled_witness :
  let b := BookMap.run BookMap.empty_book [Place (Order 1 100 5)] in
  let o := Order 2 100 7 in
  let b2 := BookMap.run (BookMap.place b o).2
              [Cancel 2; Modify (Order 2 101 7); Cancel 1; Cancel 2] in
  BookMap.cancel b2 2 = (false, b2) ∧ BookMap.orders_ b2 !! 2%N = Some o.
Proof.
  intros b o b2.
  destruct (crowded_order_never_cancelled b o (BookMap.place b o).2
              [Cancel 2; Modify (Order 2 101 7); Cancel 1; Cancel 2])
    as (_ & Hc & (o' & Ho' & _) & _).
  - by eexists.
  - vm_compute. reflexivity.
  - exists 1%N. vm_compute. left.
  - split; [exact Hc|]. vm_compute. reflexivity.
Defined.

(** ** Agreement of the order store and the price indexes *)

(** The sorted-bucket book keeps the store and the indexes in agreement:
    every id resting in a level is an active order of that price and side,
    and every active order rests in the level of its price on its side. *)
Theorem vector_store_index_agree :
  ∀ b, BookVector.reachable b →
    (∀ p i, indexed (BookVector.bids_ b) p i →
       ∃ o, BookVector.orders_ b !! i = Some o ∧ price o = p ∧ (0 < amount o)%Z) ∧
    (∀ p i, indexed (BookVector.asks_ b) p i →
       ∃ o, BookVector.orders_ b !! i = Some o ∧ price o = p ∧ (amount o < 0)%Z) ∧
    (∀ i o, BookVector.orders_ b !! i = Some o →
       id o = i ∧
       indexed (if is_bid (amount o)
                then BookVector.bids_ b else BookVector.asks_ b) (price o) i).
Proof.
  intros b [Hos (_ & _ & Hb) (_ & _ & Ha) Hidx]%vector_reachable_wf.
  split; [|split].
  - intros p i (o & Ho & Hp & Hside)%Hb. exists o. unfold is_bid in Hside.
    split; [done|]. split; [done|lia].
  - intros p i (o & Ho & Hp & Hside)%Ha. exists o. unfold is_bid in Hside.
    destruct (Hos _ _ Ho) as [_ Hnz]. split; [done|]. split; [done|lia].
  - intros i o Ho. split; [by apply (Hos i o)|by apply Hidx].
Qed.

(** The ordered-map book keeps one half of it: every index entry points to
    an active order of that price and side. *)
Theorem map_index_entries_active :
  ∀ b, BookMap.reachable b →
    (∀ p i, (p, i) ∈ BookMap.bids_ b →
       ∃ o, BookMap.orders_ b !! i = Some o ∧ price o = p ∧ (0 < amount o)%Z) ∧
    (∀ p i, (p, i) ∈ BookMap.asks_ b →
       ∃ o, BookMap.orders_ b !! i = Some o ∧ price o = p ∧ (amount o < 0)%Z).
Proof.
  intros b [Hos [_ Hb] [_ Ha]]%map_reachable_wf. split.
  - intros p i (o & Ho & Hp & Hside)%Hb. exists o. unfold is_bid in Hside.
    split; [done|]. split; [done|lia].
  - intros p i (o & Ho & Hp & Hside)%Ha. exists o. unfold is_bid in Hside.
    destruct (Hos _ _ Ho) as [_ Hnz]. split; [done|]. split; [done|lia].
Qed.

(** C1 at its failing input. In the ordered-map book a second bid at an
    occupied price is accepted and stored, but [bids_.emplace] does not
    insert it: order 2 is active and no price index holds its id. *)
Theorem map_second_order_at_price_unindexed :
  let '(r1, b1) := BookMap.place BookMap.empty_book (Order 1 100 5) in
  let '(r2, b2) := BookMap.place b1 (Order 2 100 7) in
  r1 = true ∧ r2 = true ∧
  BookMap.reachable b2 ∧
  BookMap.orders_ b2 !! 2%N = Some (Order 2 100 7) ∧
  BookMap.bids_ b2 = [(100%Z, 1%N)] ∧ BookMap.asks_ b2 = [] ∧
  (∀ p, ((p, 2%N) ∉ BookMap.bids_ b2) ∧ ((p, 2%N) ∉ BookMap.asks_ b2)).
Proof.
  vm_compute BookMap.place. split; [done|]. split; [done|].
  split; [by exists [Place (Order 1 100 5); Place (Order 2 100 7)]|].
  split; [done|]. split; [done|]. split; [done|].
  intros p. split.
  - intros [[= _ ?]|[]%elem_of_nil]%elem_of_cons.
  - apply not_elem_of_nil.
Qed.

(** * Further properties *)

(** ** The search and update functions of the level vector *)

Section level_search.
Import BookVector.
Context (comp : Z → Z → bool) `{!Compare comp}.

Lemma partition_point_spec levels p k level :
  levels_sorted comp levels → levels !! k = Some level →
  k < partition_point comp levels p ↔ comp (Level.price level) p = true.
Proof.
  intros Hs Hk. split.
  - intros Hlt. by apply (partition_point_before comp levels p k).
  - intros Hc.
    destruct (decide (k < partition_point comp levels p)) as [|Hge]; [done|].
    assert (level_comp comp level p = false) as Hf.
    { apply (partition_point_after comp levels p k); [done..|lia]. }
    unfold level_comp in Hf. congruence.
Qed.

Lemma find_level_cons level rest p :
  find_level (partition_point comp) (level :: rest) p =
    if comp (Level.price level) p then S (find_level (partition_point comp) rest p)
    else if (Level.price level =? p)%Z then 0
    else S (length rest).
Proof.
  unfold find_level. simpl. unfold level_comp.
  destruct (comp (Level.price level) p); simpl; [|done].
  destruct (rest !! partition_point comp rest p) as [l'|]; [|done].
  by destruct (Level.price l' =? p)%Z.
Qed.

Lemma find_level_present levels p level :
  levels_sorted comp levels → level ∈ levels → Level.price level = p →
  levels !! find_level (partition_point comp) levels p = Some level.
Proof.
  induction levels as [|l rest IH]; intros Hs Hin Hp; [by apply elem_of_nil in Hin|].
  rewrite find_level_cons.
  pose proof Hs as [Hrest Hhd]%levels_sorted_cons.
  destruct (comp (Level.price l) p) eqn:Hc.
  - apply elem_of_cons in Hin as [->|Hin].
    + rewrite Hp in Hc. by rewrite comp_irrefl in Hc.
    + simpl. by apply IH.
  - apply elem_of_cons in Hin as [->|Hin].
    + by rewrite Hp, Z.eqb_refl.
    + exfalso. by apply (levels_sorted_passed comp l rest p level).
Qed.

Lemma find_level_absent levels p :
  (∀ level, level ∈ levels → Level.price level ≠ p) →
  find_level (partition_point comp) levels p = length levels.
Proof.
  induction levels as [|l rest IH]; intros Hnone; [done|].
  rewrite find_level_cons.
  destruct (comp (Level.price l) p).
  - simpl. rewrite IH; [done|]. intros level Hin. apply Hnone. by right.
  - assert (Level.price l ≠ p) as Hne by (apply Hnone; by left).
    apply Z.eqb_neq in Hne. by rewrite Hne.
Qed.

Lemma find_level_sorted levels p :
  levels_sorted comp levels →
  find_level (lower_bound (level_comp comp)) levels p
  = find_level (partition_point comp) levels p.
Proof. intros Hs. unfold find_level. by rewrite lower_bound_sorted. Qed.

Lemma ensure_level_cons level rest p :
  ensure_level (partition_point comp) (level :: rest) p =
    if comp (Level.price level) p then
      let '(rest', it) := ensure_level (partition_point comp) rest p in
      (level :: rest', S it)
    else if (Level.price level =? p)%Z then (level :: rest, 0)
    else (Level.Make p [] :: level :: rest, 0).
Proof.
  unfold ensure_level. simpl. unfold level_comp.
  destruct (comp (Level.price level) p); simpl.
  - destruct (rest !! partition_point comp rest p) as [l'|]; [|done].
    by destruct (Level.price l' =? p)%Z.
  - by destruct (Level.price level =? p)%Z.
Qed.

Lemma ensure_level_sorted_eq levels p :
  levels_sorted comp levels →
  ensure_level (lower_bound (level_comp comp)) levels p
  = ensure_level (partition_point comp) levels p.
Proof. intros Hs. unfold ensure_level. by rewrite lower_bound_sorted. Qed.

(** What [ensure_..._level] does to a sorted vector. *)
Lemma ensure_level_spec levels p :
  levels_sorted comp levels →
  let '(levels', it) := ensure_level (partition_point comp) levels p in
  levels_sorted comp levels' ∧
  (∃ level, levels' !! it = Some level ∧ Level.price level = p ∧
     (level ∈ levels ∨ Level.ids level = [])) ∧
  (∀ l', l' ∈ levels' → l' ∈ levels ∨ l' = Level.Make p []) ∧
  ((∃ level, level ∈ levels ∧ Level.price level = p) → levels' = levels) ∧
  ((∀ level, level ∈ levels → Level.price level ≠ p) →
     levels' = take it levels ++ Level.Make p [] :: drop it levels).
Proof.
  induction levels as [|l rest IH]; intros Hs.
  { cbn. split; [|split; [|split; [|split]]].
    - apply levels_sorted_cons. split; [constructor|].
      intros l' Hl'. by apply elem_of_nil in Hl'.
    - exists (Level.Make p []). split; [done|]. split; [done|by right].
    - intros l' ->%list_elem_of_singleton. by right.
    - intros (level & Hin & _). by apply elem_of_nil in Hin.
    - done. }
  rewrite ensure_level_cons.
  pose proof Hs as [Hrest Hhd]%levels_sorted_cons.
  destruct (comp (Level.price l) p) eqn:Hc.
  - specialize (IH Hrest).
    destruct (ensure_level (partition_point comp) rest p) as [rest' it].
    destruct IH as (Hs' & (level & Hit & Hp & Hor) & Helem & Hsame & Hnew).
    assert (Level.price l ≠ p) as Hne by by apply (comp_ne (comp:=comp)).
    split; [|split; [|split; [|split]]].
    + apply levels_sorted_cons. split; [done|].
      intros l' [Hin| ->]%Helem; [by apply Hhd|done].
    + exists level. split; [done|]. split; [done|].
      destruct Hor as [Hin|Hids]; [left; by right|by right].
    + intros l' [->|[Hin| ->]%Helem]%elem_of_cons;
        [left; by left|left; by right|by right].
    + intros (level' & [->|Hin]%elem_of_cons & Hp'); [done|].
      rewrite Hsame; [done|]. by exists level'.
    + intros Hnone. simpl. rewrite Hnew; [done|].
      intros level' Hin. apply Hnone. by right.
  - destruct (Level.price l =? p)%Z eqn:Hp.
    + apply Z.eqb_eq in Hp. split; [done|]. split; [|split; [|split]].
      * exists l. split; [done|]. split; [done|]. left. by left.
      * intros l' Hl'. by left.
      * done.
      * intros Hnone. exfalso. apply (Hnone l); [by left|done].
    + apply Z.eqb_neq in Hp. split; [|split; [|split; [|split]]].
      * assert (comp p (Level.price l) = true) as Hlt.
        { destruct (comp p (Level.price l)) eqn:E; [done|].
          destruct Hp. by apply (comp_total (comp:=comp)). }
        apply levels_sorted_cons. split; [done|]. simpl.
        intros l' [->|Hl']%elem_of_cons; [done|].
        eapply comp_trans; [exact Hlt|by apply Hhd].
      * exists (Level.Make p []). split; [done|]. split; [done|by right].
      * intros l' [->|Hl']%elem_of_cons; [by right|by left].
      * intros (level' & [->|Hin]%elem_of_cons & Hp'); [done|].
        exfalso. by apply (levels_sorted_passed comp l rest p level').
      * done.
Qed.
End level_search.

(** X1. On a sorted level vector [find_bid_insert] and [find_ask_insert]
    return a position inside the vector or its end, and exactly the
    levels before that position have a price better than the searched one
    (higher for bids, lower for asks). *)
Theorem find_insert_partitions :
  (∀ levels p, levels_sorted greater levels →
     BookVector.find_bid_insert levels p ≤ length levels ∧
     ∀ k level, levels !! k = Some level →
       (k < BookVector.find_bid_insert levels p
        ↔ (p < BookVector.Level.price level)%Z)) ∧
  (∀ levels p, levels_sorted less levels →
     BookVector.find_ask_insert levels p ≤ length levels ∧
     ∀ k level, levels !! k = Some level →
       (k < BookVector.find_ask_insert levels p
        ↔ (BookVector.Level.price level < p)%Z)).
Proof.
  split; intros levels p Hs.
  - change (BookVector.find_bid_insert levels p)
      with (BookVector.lower_bound (level_comp greater) levels p).
    rewrite (lower_bound_sorted greater) by done.
    split; [apply partition_point_le|]. intros k level Hk.
    rewrite (partition_point_spec greater) by done. unfold greater. lia.
  - change (BookVector.find_ask_insert levels p)
      with (BookVector.lower_bound (level_comp less) levels p).
    rewrite (lower_bound_sorted less) by done.
    split; [apply partition_point_le|]. intros k level Hk.
    rewrite (partition_point_spec less) by done. unfold less. lia.
Qed.

Lemma find_insert_partitions_witness :
  let bids := [BookVector.Level.Make 101 [3%N]; BookVector.Level.Make 100 [1%N];
               BookVector.Level.Make 98 [2%N]] in
  let asks := [BookVector.Level.Make 98 [2%N]; BookVector.Level.Make 100 [1%N]] in
  BookVector.find_bid_insert bids 99 ≤ 3 ∧ BookVector.find_ask_insert asks 99 ≤ 2.
Proof.
  intros bids asks. destruct find_insert_partitions as [Hb Ha]. split.
  - apply (Hb bids 99%Z). unfold bids. repeat constructor.
  - apply (Ha asks 99%Z). unfold asks. repeat constructor.
Defined.

(** X2. On a sorted level vector [find_bid_level] and [find_ask_level]
    return the position of the level of the searched price when there is
    one, and [end()] when no level has that price. *)
Theorem find_level_finds :
  (∀ levels p, levels_sorted greater levels →
     (∀ level, level ∈ levels → BookVector.Level.price level = p →
        levels !! BookVector.find_bid_level levels p = Some level) ∧
     ((∀ level, level ∈ levels → BookVector.Level.price level ≠ p) →
        BookVector.find_bid_level levels p = length levels)) ∧
  (∀ levels p, levels_sorted less levels →
     (∀ level, level ∈ levels → BookVector.Level.price level = p →
        levels !! BookVector.find_ask_level levels p = Some level) ∧
     ((∀ level, level ∈ levels → BookVector.Level.price level ≠ p) →
        BookVector.find_ask_level levels p = length levels)).
Proof.
  split; intros levels p Hs.
  - change (BookVector.find_bid_level levels p) with
      (BookVector.find_level (BookVector.lower_bound (level_comp greater)) levels p).
    rewrite (find_level_sorted greater) by done. split.
    + intros level Hin Hp. by apply (find_level_present greater).
    + apply (find_level_absent greater).
  - change (BookVector.find_ask_level levels p) with
      (BookVector.find_level (BookVector.lower_bound (level_comp less)) levels p).
    rewrite (find_level_sorted less) by done. split.
    + intros level Hin Hp. by apply (find_level_present less).
    + apply (find_level_absent less).
Qed.

Lemma find_level_finds_witness :
  let bids := [BookVector.Level.Make 101 [3%N]; BookVector.Level.Make 100 [1%N];
               BookVector.Level.Make 98 [2%N]] in
  let asks := [BookVector.Level.Make 98 [2%N]; BookVector.Level.Make 100 [1%N]] in
  bids !! BookVector.find_bid_level bids 100 = Some (BookVector.Level.Make 100 [1%N]) ∧
  BookVector.find_bid_level bids 99 = 3 ∧
  asks !! BookVector.find_ask_level asks 100 = Some (BookVector.Level.Make 100 [1%N]) ∧
  BookVector.find_ask_level asks 99 = 2.
Proof.
  intros bids asks. destruct find_level_finds as [Hb Ha].
  assert (levels_sorted greater bids) as Hsb by (unfold bids; repeat constructor).
  assert (levels_sorted less asks) as Hsa by (unfold asks; repeat constructor).
  split; [|split; [|split]].
  - apply (Hb bids 100%Z Hsb); [|reflexivity]. unfold bids. right. left.
  - apply (Hb bids 99%Z Hsb). intros level Hin.
    unfold bids in Hin. repeat (apply elem_of_cons in Hin as [->|Hin]; [simpl; lia|]).
    by apply elem_of_nil in Hin.
  - apply (Ha asks 100%Z Hsa); [|reflexivity]. unfold asks. right. left.
  - apply (Ha asks 99%Z Hsa). intros level Hin.
    unfold asks in Hin. repeat (apply elem_of_cons in Hin as [->|Hin]; [simpl; lia|]).
    by apply elem_of_nil in Hin.
Defined.

(** X3. On a sorted level vector [ensure_bid_level] and [ensure_ask_level]
    return a vector that is still sorted and an iterator to a level of the
    wanted price.  When a level of that price exists the vector is returned
    as it is; otherwise one empty level is inserted at the iterator and all
    other levels are kept in order. *)
Theorem ensure_level_keeps_sorted :
  (∀ levels p, levels_sorted greater levels →
     let r := BookVector.ensure_bid_level levels p in
     levels_sorted greater r.1 ∧
     (∃ level, r.1 !! r.2 = Some level ∧ BookVector.Level.price level = p ∧
        (level ∈ levels ∨ BookVector.Level.ids level = [])) ∧
     ((∃ level, level ∈ levels ∧ BookVector.Level.price level = p) →
        r.1 = levels) ∧
     ((∀ level, level ∈ levels → BookVector.Level.price level ≠ p) →
        r.1 = take r.2 levels ++ BookVector.Level.Make p [] :: drop r.2 levels)) ∧
  (∀ levels p, levels_sorted less levels →
     let r := BookVector.ensure_ask_level levels p in
     levels_sorted less r.1 ∧
     (∃ level, r.1 !! r.2 = Some level ∧ BookVector.Level.price level = p ∧
        (level ∈ levels ∨ BookVector.Level.ids level = [])) ∧
     ((∃ level, level ∈ levels ∧ BookVector.Level.price level = p) →
        r.1 = levels) ∧
     ((∀ level, level ∈ levels → BookVector.Level.price level ≠ p) →
        r.1 = take r.2 levels ++ BookVector.Level.Make p [] :: drop r.2 levels)).
Proof.
  split; intros levels p Hs r; subst r.
  - change (BookVector.ensure_bid_level levels p) with
      (BookVector.ensure_level (BookVector.lower_bound (level_comp greater)) levels p).
    rewrite (ensure_level_sorted_eq greater) by done.
    pose proof (ensure_level_spec greater levels p Hs) as Hspec.
    destruct (BookVector.ensure_level _ levels p) as [levels' it].
    destruct Hspec as (? & ? & _ & ? & ?). done.
  - change (BookVector.ensure_ask_level levels p) with
      (BookVector.ensure_level (BookVector.lower_bound (level_comp less)) levels p).
    rewrite (ensure_level_sorted_eq less) by done.
    pose proof (ensure_level_spec less levels p Hs) as Hspec.
    destruct (BookVector.ensure_level _ levels p) as [levels' it].
    destruct Hspec as (? & ? & _ & ? & ?). done.
Qed.

Lemma ensure_level_keeps_sorted_witness :
  let bids := [BookVector.Level.Make 101 [3%N]; BookVector.Level.Make 98 [2%N]] in
  let asks := [BookVector.Level.Make 98 [2%N]; BookVector.Level.Make 101 [3%N]] in
  levels_sorted greater (BookVector.ensure_bid_level bids 100).1 ∧
  levels_sorted less (BookVector.ensure_ask_level asks 100).1.
Proof.
  intros bids asks. destruct ensure_level_keeps_sorted as [Hb Ha]. split.
  - apply (Hb bids 100%Z). unfold bids. repeat constructor.
  - apply (Ha asks 100%Z). unfold asks. repeat constructor.
Defined.

(** X4. [remove_id_from_level] returns [false] and leaves the level alone
    when the id is not in it.  Otherwise it returns [true], removes the
    first occurrence of the id and moves the last id of the level into its
    slot: the ids before the slot keep their place, the ids after it lose
    their arrival order. *)
Theorem remove_id_swaps_with_last :
  ∀ level i,
    (i ∉ BookVector.Level.ids level →
       BookVector.remove_id_from_level level i = (false, level)) ∧
    (∀ before after,
       BookVector.Level.ids level = before ++ i :: after → i ∉ before →
       BookVector.remove_id_from_level level i =
         (true,
          BookVector.Level.Make (BookVector.Level.price level)
            (match after with
             | [] => before
             | _ :: _ => before ++ List.last after i :: removelast after
             end))).
Proof.
  intros level i. split.
  - intros Hi. unfold BookVector.remove_id_from_level.
    destruct (BookVector.find_id (BookVector.Level.ids level) i) as [k|] eqn:Hf;
      [|done].
    apply find_id_Some in Hf as (l1 & l2 & Heq & _). destruct Hi.
    rewrite Heq. apply elem_of_app. right. by left.
  - intros before after Hids Hbefore. unfold BookVector.remove_id_from_level.
    rewrite Hids.
    assert (BookVector.find_id (before ++ i :: after) i = Some (length before))
      as ->.
    { clear Hids. induction before as [|x before IH]; simpl.
      - by rewrite N.eqb_refl.
      - apply not_elem_of_cons in Hbefore as [Hx Hb].
        apply not_eq_sym, N.eqb_neq in Hx. by rewrite Hx, IH. }
    by rewrite swap_pop.
Qed.

Lemma remove_id_swaps_with_last_witness :
  BookVector.remove_id_from_level (BookVector.Level.Make 100 [1; 2; 3; 4]%N) 2
  = (true, BookVector.Level.Make 100 [1; 4; 3]%N) ∧
  BookVector.remove_id_from_level (BookVector.Level.Make 100 [1; 2; 3; 4]%N) 7
  = (false, BookVector.Level.Make 100 [1; 2; 3; 4]%N).
Proof.
  split.
  - apply (proj2 (remove_id_swaps_with_last
                    (BookVector.Level.Make 100 [1; 2; 3; 4]%N) 2%N) [1%N] [3; 4]%N).
    + reflexivity.
    + intros [[=]|[]%elem_of_nil]%elem_of_cons.
  - apply (proj1 (remove_id_swaps_with_last
                    (BookVector.Level.Make 100 [1; 2; 3; 4]%N) 7%N)).
    simpl. intros Hin.
    repeat (apply elem_of_cons in Hin as [[=]|Hin]). by apply elem_of_nil in Hin.
Defined.

(** ** The sorted-bucket book in every reachable state *)

Lemma levels_sorted_lookup comp levels k1 k2 l1 l2 :
  levels_sorted comp levels → k1 < k2 →
  levels !! k1 = Some l1 → levels !! k2 = Some l2 →
  comp (BookVector.Level.price l1) (BookVector.Level.price l2) = true.
Proof.
  revert k1 k2. induction levels as [|l rest IH]; intros k1 k2 Hs Hlt H1 H2; [done|].
  apply levels_sorted_cons in Hs as [Hrest Hhd].
  destruct k2 as [|k2]; [lia|]. simpl in H2.
  destruct k1 as [|k1]; simpl in H1.
  - injection H1 as <-. apply Hhd. by eapply list_elem_of_lookup_2.
  - apply (IH k1 k2); [done|lia|done..].
Qed.

Lemma levels_sorted_price_inj comp `{!Compare comp} levels l1 l2 :
  levels_sorted comp levels → l1 ∈ levels → l2 ∈ levels →
  BookVector.Level.price l1 = BookVector.Level.price l2 → l1 = l2.
Proof.
  intros Hs [k1 H1]%list_elem_of_lookup_1 [k2 H2]%list_elem_of_lookup_1 Hp.
  destruct (Nat.lt_total k1 k2) as [Hlt|[->|Hlt]]; [|congruence|].
  - pose proof (levels_sorted_lookup comp _ _ _ _ _ Hs Hlt H1 H2) as Hc.
    rewrite Hp in Hc. by rewrite comp_irrefl in Hc.
  - pose proof (levels_sorted_lookup comp _ _ _ _ _ Hs Hlt H2 H1) as Hc.
    rewrite Hp in Hc. by rewrite comp_irrefl in Hc.
Qed.

(** X5. In every reachable sorted-bucket book the bid levels are in
    strictly descending and the ask levels in strictly ascending price
    order, no level holds an id twice, and an id rests in at most one level
    of the whole book. *)
Theorem vector_levels_ordered :
  ∀ b, BookVector.reachable b →
    (∀ k1 k2 l1 l2, k1 < k2 →
       BookVector.bids_ b !! k1 = Some l1 → BookVector.bids_ b !! k2 = Some l2 →
       (BookVector.Level.price l2 < BookVector.Level.price l1)%Z) ∧
    (∀ k1 k2 l1 l2, k1 < k2 →
       BookVector.asks_ b !! k1 = Some l1 → BookVector.asks_ b !! k2 = Some l2 →
       (BookVector.Level.price l1 < BookVector.Level.price l2)%Z) ∧
    (∀ level, level ∈ BookVector.bids_ b ∨ level ∈ BookVector.asks_ b →
       NoDup (BookVector.Level.ids level)) ∧
    (∀ l1 l2 i,
       l1 ∈ BookVector.bids_ b ∨ l1 ∈ BookVector.asks_ b →
       l2 ∈ BookVector.bids_ b ∨ l2 ∈ BookVector.asks_ b →
       i ∈ BookVector.Level.ids l1 → i ∈ BookVector.Level.ids l2 → l1 = l2).
Proof.
  intros b [Hos (Hsb & Hokb & Hb) (Hsa & Hoka & Ha) _]%vector_reachable_wf.
  split; [|split; [|split]].
  - intros k1 k2 l1 l2 Hlt H1 H2.
    pose proof (levels_sorted_lookup greater _ _ _ _ _ Hsb Hlt H1 H2) as Hc.
    unfold greater in Hc. lia.
  - intros k1 k2 l1 l2 Hlt H1 H2.
    pose proof (levels_sorted_lookup less _ _ _ _ _ Hsa Hlt H1 H2) as Hc.
    unfold less in Hc. lia.
  - rewrite Forall_forall in Hokb, Hoka.
    intros level [Hin|Hin]; [by apply Hokb in Hin as [_ ?]|by apply Hoka in Hin as [_ ?]].
  - intros l1 l2 i Hl1 Hl2 Hi1 Hi2.
    assert (∀ l, l ∈ BookVector.bids_ b → i ∈ BookVector.Level.ids l →
      ∃ o, BookVector.orders_ b !! i = Some o ∧ price o = BookVector.Level.price l
           ∧ is_bid (amount o) = true) as Hbid.
    { intros l Hl Hi. apply Hb. by exists l. }
    assert (∀ l, l ∈ BookVector.asks_ b → i ∈ BookVector.Level.ids l →
      ∃ o, BookVector.orders_ b !! i = Some o ∧ price o = BookVector.Level.price l
           ∧ is_bid (amount o) = false) as Hask.
    { intros l Hl Hi. apply Ha. by exists l. }
    destruct Hl1 as [Hl1|Hl1], Hl2 as [Hl2|Hl2].
    + destruct (Hbid _ Hl1 Hi1) as (o1 & Ho1 & Hp1 & _).
      destruct (Hbid _ Hl2 Hi2) as (o2 & Ho2 & Hp2 & _).
      apply (levels_sorted_price_inj greater (BookVector.bids_ b)); [done..|].
      congruence.
    + destruct (Hbid _ Hl1 Hi1) as (o1 & Ho1 & _ & Hs1).
      destruct (Hask _ Hl2 Hi2) as (o2 & Ho2 & _ & Hs2). congruence.
    + destruct (Hask _ Hl1 Hi1) as (o1 & Ho1 & _ & Hs1).
      destruct (Hbid _ Hl2 Hi2) as (o2 & Ho2 & _ & Hs2). congruence.
    + destruct (Hask _ Hl1 Hi1) as (o1 & Ho1 & Hp1 & _).
      destruct (Hask _ Hl2 Hi2) as (o2 & Ho2 & Hp2 & _).
      apply (levels_sorted_price_inj less (BookVector.asks_ b)); [done..|].
      congruence.
Qed.

Lemma vector_levels_ordered_witness :
  let b := BookVector.run BookVector.empty_book
             [Place (Order 1 100 5); Place (Order 2 99 7); Place (Order 3 101 1);
              Modify (Order 2 102 7); Cancel 1] in
  BookVector.reachable b ∧
  ∀ level, level ∈ BookVector.bids_ b ∨ level ∈ BookVector.asks_ b →
    NoDup (BookVector.Level.ids level).
Proof.
  intros b.
  assert (BookVector.reachable b) as Hr by (by eexists).
  split; [exact Hr|].
  destruct (vector_levels_ordered b Hr) as (_ & _ & Hnd & _). exact Hnd.
Defined.

Lemma vector_cancel_active b i :
  vector_book_wf b → is_Some (BookVector.orders_ b !! i) →
  (BookVector.cancel b i).1 = true.
Proof.
  intros Hwf [current Hcur]. rewrite vector_cancel_unfold by done. rewrite Hcur.
  pose proof (vector_wf_indexed b Hwf i current Hcur) as Hidx.
  destruct Hwf as [_ Hb Ha _].
  destruct (is_bid (amount current)).
  - destruct (levels_remove greater _ _ _) eqn:Hrm; [done|].
    by apply (levels_remove_None greater) in Hrm; [|apply Hb].
  - destruct (levels_remove less _ _ _) eqn:Hrm; [done|].
    by apply (levels_remove_None less) in Hrm; [|apply Ha].
Qed.

(** X6. In every reachable sorted-bucket book [cancel] returns [true]
    exactly for the active ids: an active order can always be cancelled. *)
Theorem vector_cancel_succeeds_iff_active :
  ∀ b i, BookVector.reachable b →
    ((BookVector.cancel b i).1 = true ↔ is_Some (BookVector.orders_ b !! i)).
Proof.
  intros b i Hwf%vector_reachable_wf. split.
  - rewrite vector_cancel_unfold by done.
    destruct (BookVector.orders_ b !! i) as [current|]; [by eexists|done].
  - by apply vector_cancel_active.
Qed.

Lemma vector_cancel_succeeds_iff_active_witness :
  let b := BookVector.run BookVector.empty_book
             [Place (Order 1 100 5); Place (Order 2 100 7)] in
  (BookVector.cancel b 2).1 = true.
Proof.
  intros b. apply vector_cancel_succeeds_iff_active; [by eexists|].
  vm_compute. eexists. reflexivity.
Defined.

(** Where [levels_add] puts the id: at the back of the level of its price,
    or alone in a new level. *)
Lemma levels_add_at comp `{!Compare comp} p i levels :
  levels_sorted comp levels →
  (∀ k level, levels !! k = Some level → BookVector.Level.price level = p →
     levels_add comp p i levels = <[k := BookVector.push_back i level]> levels) ∧
  ((∀ level, level ∈ levels → BookVector.Level.price level ≠ p) →
     ∃ k, k ≤ length levels ∧
       levels_add comp p i levels
       = take k levels ++ BookVector.Level.Make p [i] :: drop k levels).
Proof.
  induction levels as [|l rest IH]; intros Hs.
  { split; [done|]. intros _. by exists 0. }
  pose proof Hs as [Hrest Hhd]%levels_sorted_cons.
  destruct (IH Hrest) as [IHat IHnew]. simpl. unfold level_comp.
  destruct (comp (BookVector.Level.price l) p) eqn:Hc.
  - assert (BookVector.Level.price l ≠ p) as Hne by by apply (comp_ne (comp:=comp)).
    split.
    + intros [|k] level Hk Hp; simpl in Hk; [congruence|].
      simpl. f_equal. by apply IHat.
    + intros Hnone. destruct IHnew as (k & Hk & ->).
      { intros level Hin. apply Hnone. by right. }
      exists (S k). split; [simpl; lia|done].
  - split.
    + intros k level Hk Hp. destruct k as [|k]; simpl in Hk.
      * injection Hk as <-. by rewrite Hp, Z.eqb_refl.
      * exfalso. apply list_elem_of_lookup_2 in Hk.
        by apply (levels_sorted_passed comp l rest p level).
    + intros Hnone.
      assert (BookVector.Level.price l ≠ p) as Hne by (apply Hnone; by left).
      apply Z.eqb_neq in Hne. rewrite Hne. exists 0. split; [lia|done].
Qed.

(** X7. In every reachable sorted-bucket book a [place] that passes the
    guard (amount not 0, id not active) returns [true], stores the order,
    leaves the other side alone, and on its own side pushes the id at the
    back of the level of its price, or inserts a new level holding only this
    id when no level has that price; all other levels stay as they are. *)
Theorem vector_place_appends :
  ∀ b value, BookVector.reachable b →
    amount value ≠ 0%Z → BookVector.orders_ b !! id value = None →
    let side (b : BookVector.book) :=
      if is_bid (amount value) then BookVector.bids_ b else BookVector.asks_ b in
    let other (b : BookVector.book) :=
      if is_bid (amount value) then BookVector.asks_ b else BookVector.bids_ b in
    ∃ b', BookVector.place b value = (true, b') ∧
      BookVector.orders_ b' = <[id value := value]> (BookVector.orders_ b) ∧
      other b' = other b ∧
      (∀ k level, side b !! k = Some level →
         BookVector.Level.price level = price value →
         side b' = <[k := BookVector.push_back (id value) level]> (side b)) ∧
      ((∀ level, level ∈ side b → BookVector.Level.price level ≠ price value) →
         ∃ k, k ≤ length (side b) ∧
           side b' = take k (side b)
                     ++ BookVector.Level.Make (price value) [id value]
                     :: drop k (side b)).
Proof.
  intros b value [_ [Hsb _] [Hsa _] _]%vector_reachable_wf Hnz Hnone side other.
  rewrite vector_place_unfold. apply Z.eqb_neq in Hnz. rewrite Hnz. simpl.
  rewrite bool_decide_eq_false_2 by (rewrite Hnone; by intros [? ?]).
  subst side other. destruct (is_bid (amount value)).
  - eexists. split; [done|]. simpl. split; [done|]. split; [done|].
    rewrite place_in_bids by done. by apply (levels_add_at greater).
  - eexists. split; [done|]. simpl. split; [done|]. split; [done|].
    rewrite place_in_asks by done. by apply (levels_add_at less).
Qed.

Lemma vector_place_appends_witness :
  let b := BookVector.run BookVector.empty_book [Place (Order 1 100 5)] in
  ∃ b', BookVector.place b (Order 2 100 7) = (true, b') ∧
    BookVector.orders_ b' = <[2%N := Order 2 100 7]> (BookVector.orders_ b).
Proof.
  intros b.
  destruct (vector_place_appends b (Order 2 100 7)) as (b' & Hpl & Hos & _).
  - by eexists.
  - simpl. lia.
  - vm_compute. reflexivity.
  - exists b'. split; [exact Hpl|exact Hos].
Defined.

(** X8. In every reachable sorted-bucket book a [modify] with an amount that
    is not 0 fails, changing nothing, when the id is not active; when the id
    is active it returns [true], the store is the old store with the new
    value under the id, and the id rests at the new price on the new side. *)
Theorem vector_modify_active :
  ∀ b value, BookVector.reachable b → amount value ≠ 0%Z →
    (BookVector.orders_ b !! id value = None →
       BookVector.modify b value = (false, b)) ∧
    (is_Some (BookVector.orders_ b !! id value) →
       ∃ b', BookVector.modify b value = (true, b') ∧
         BookVector.orders_ b' = <[id value := value]> (BookVector.orders_ b) ∧
         indexed (if is_bid (amount value)
                  then BookVector.bids_ b' else BookVector.asks_ b')
                 (price value) (id value)).
Proof.
  intros b value Hr Hnz. pose proof Hr as Hwf%vector_reachable_wf.
  pose proof (vector_modify_wf b value Hwf) as Hwf'.
  unfold BookVector.modify in *. apply Z.eqb_neq in Hnz. rewrite Hnz in *.
  split.
  - intros Hnone. rewrite bool_decide_eq_false_2; [done|].
    rewrite Hnone. by intros [? ?].
  - intros Hact. rewrite (bool_decide_eq_true_2 _ Hact) in *. simpl in *.
    pose proof (vector_cancel_active b (id value) Hwf Hact) as Hc.
    destruct (BookVector.cancel b (id value)) as [cancelled b1] eqn:Hcancel.
    simpl in Hc. subst cancelled. simpl in *.
    apply vector_cancel_orders in Hcancel.
    rewrite vector_place_unfold in *. rewrite Hnz in *. simpl in *.
    rewrite bool_decide_eq_false_2 in *
      by (rewrite Hcancel, lookup_delete_eq; by intros [? ?]).
    assert (∀ b', vector_book_wf b' →
      BookVector.orders_ b' = <[id value:=value]> (BookVector.orders_ b1) →
      BookVector.orders_ b' = <[id value:=value]> (BookVector.orders_ b) ∧
      indexed (if is_bid (amount value)
               then BookVector.bids_ b' else BookVector.asks_ b')
              (price value) (id value)) as Hfin.
    { intros b' Hb' Hos. rewrite Hcancel, insert_delete_eq in Hos.
      split; [done|]. apply (vector_wf_indexed b' Hb' (id value) value).
      rewrite Hos. apply lookup_insert_eq. }
    destruct (is_bid (amount value)); eexists; (split; [done|]);
      by apply Hfin.
Qed.

Lemma vector_modify_active_witness :
  let b := BookVector.run BookVector.empty_book [Place (Order 1 100 5)] in
  BookVector.modify b (Order 2 100 7) = (false, b) ∧
  ∃ b', BookVector.modify b (Order 1 90 (-6)) = (true, b').
Proof.
  intros b. split.
  - apply (vector_modify_active b (Order 2 100 7)); [by eexists|simpl; lia|].
    vm_compute. reflexivity.
  - destruct (vector_modify_active b (Order 1 90 (-6))) as [_ Hact];
      [by eexists|simpl; lia|].
    destruct Hact as (b' & Hm & _); [vm_compute; eexists; reflexivity|].
    by exists b'.
Defined.

(** X9. In every reachable sorted-bucket book, whatever calls led to it,
    [best_bid()] returns an active order with amount > 0 of the highest
    price among the active orders with amount > 0, [best_ask()] an active
    order with amount < 0 of the lowest price among those with amount < 0,
    and each returns nothing exactly when its side has no active order. *)
Theorem vector_best_is_extreme :
  ∀ b, BookVector.reachable b →
    best_bid_of (BookVector.orders_ b) (BookVector.best_bid b) ∧
    best_ask_of (BookVector.orders_ b) (BookVector.best_ask b).
Proof.
  intros b [Hos Hb Ha Hidx]%vector_reachable_wf. split.
  - apply side_best_bid, (vector_side_best greater); [done..|].
    intros i o Ho Hside. specialize (Hidx i o Ho). by rewrite Hside in Hidx.
  - apply side_best_ask; [done|]. apply (vector_side_best less); [done..|].
    intros i o Ho Hside. specialize (Hidx i o Ho). by rewrite Hside in Hidx.
Qed.

Lemma vector_best_is_extreme_witness :
  let b := BookVector.run BookVector.empty_book
             [Place (Order 1 100 5); Place (Order 2 99 7); Modify (Order 2 101 7);
              Place (Order 3 101 2); Cancel 2; Modify (Order 1 90 (-6))] in
  best_bid_of (BookVector.orders_ b) (BookVector.best_bid b) ∧
  best_ask_of (BookVector.orders_ b) (BookVector.best_ask b).
Proof. intros b. apply vector_best_is_extreme. by eexists. Defined.

(** ** Both books, in every state *)

Lemma map_remove_from_book_orders b value :
  BookMap.orders_ (BookMap.remove_from_book b value).2 = BookMap.orders_ b.
Proof.
  unfold BookMap.remove_from_book.
  destruct (is_bid (amount value));
    [destruct (BookMap.erase_in_equal_range greater _ _ _)
    |destruct (BookMap.erase_in_equal_range less _ _ _)]; done.
Qed.

Lemma map_cancel_orders b i b' :
  BookMap.cancel b i = (true, b') →
  BookMap.orders_ b' = delete i (BookMap.orders_ b).
Proof.
  unfold BookMap.cancel. destruct (BookMap.orders_ b !! i) as [value|]; [|done].
  pose proof (map_remove_from_book_orders b value) as Hos.
  destruct (BookMap.remove_from_book b value) as [[] b1]; simpl in *; [|done].
  intros [= <-]. simpl. by rewrite Hos.
Qed.

(** X10. In both books and in every state, a second [cancel] of the same id
    right after a first one returns [false] and changes nothing, whatever
    the first one returned. *)
Theorem cancel_twice_fails :
  (∀ b i, BookMap.cancel (BookMap.cancel b i).2 i
          = (false, (BookMap.cancel b i).2)) ∧
  (∀ b i, BookVector.cancel (BookVector.cancel b i).2 i
          = (false, (BookVector.cancel b i).2)).
Proof.
  split; intros b i.
  - destruct (BookMap.cancel b i) as [[] b'] eqn:Hc; simpl.
    + apply map_cancel_inactive. rewrite (map_cancel_orders _ _ _ Hc).
      apply lookup_delete_eq.
    + pose proof (map_cancel_false _ _ _ Hc) as ->. exact Hc.
  - destruct (BookVector.cancel b i) as [[] b'] eqn:Hc; simpl.
    + apply vector_cancel_inactive. rewrite (vector_cancel_orders _ _ _ Hc).
      apply lookup_delete_eq.
    + pose proof (vector_cancel_false _ _ _ Hc) as ->. exact Hc.
Qed.

Lemma map_step_orders_other b r j :
  j ≠ request_id r →
  BookMap.orders_ (BookMap.step b r).2 !! j = BookMap.orders_ b !! j.
Proof.
  assert (∀ i, j ≠ i →
    BookMap.orders_ (BookMap.cancel b i).2 !! j = BookMap.orders_ b !! j) as Hcancel.
  { intros i Hj. destruct (BookMap.cancel b i) as [[] b'] eqn:Hc; simpl.
    - rewrite (map_cancel_orders _ _ _ Hc). by apply lookup_delete_ne.
    - by rewrite (map_cancel_false _ _ _ Hc). }
  destruct r as [value|value|i]; simpl; intros Hj; [| |by apply Hcancel].
  - rewrite map_place_unfold. destruct (_ || _); [done|]. simpl.
    rewrite map_add_to_book_orders. simpl. by apply lookup_insert_ne.
  - unfold BookMap.modify.
    destruct (amount value =? 0)%Z; [by apply Hcancel|].
    destruct (BookMap.orders_ b !! id value) as [previous|]; [|done].
    destruct (eqb _ _ && _); [by apply lookup_insert_ne|].
    pose proof (map_remove_from_book_orders b previous) as Hos.
    destruct (BookMap.remove_from_book b previous) as [[] b1]; simpl in *;
      [|by rewrite Hos].
    set (b2 := BookMap.set_orders b1 _).
    pose proof (map_add_to_book_true b2 value) as Htrue.
    pose proof (map_add_to_book_orders b2 value) as Hos3.
    destruct (BookMap.add_to_book b2 value) as [added b3].
    simpl in *. subst added. simpl.
    by rewrite Hos3, lookup_insert_ne, Hos.
Qed.

Lemma vector_step_orders_other b r j :
  j ≠ request_id r →
  BookVector.orders_ (BookVector.step b r).2 !! j = BookVector.orders_ b !! j.
Proof.
  assert (∀ b i, j ≠ i →
    BookVector.orders_ (BookVector.cancel b i).2 !! j
    = BookVector.orders_ b !! j) as Hcancel.
  { intros b0 i Hj. destruct (BookVector.cancel b0 i) as [[] b'] eqn:Hc; simpl.
    - rewrite (vector_cancel_orders _ _ _ Hc). by apply lookup_delete_ne.
    - by rewrite (vector_cancel_false _ _ _ Hc). }
  assert (∀ b value, j ≠ id value →
    BookVector.orders_ (BookVector.place b value).2 !! j
    = BookVector.orders_ b !! j) as Hplace.
  { intros b0 value Hj. rewrite vector_place_unfold.
    destruct (_ || _); [done|].
    destruct (is_bid (amount value)); simpl; by apply lookup_insert_ne. }
  destruct r as [value|value|i]; simpl; intros Hj;
    [by apply Hplace| |by apply Hcancel].
  unfold BookVector.modify.
  destruct (amount value =? 0)%Z; [by apply Hcancel|].
  destruct (negb _); [done|].
  specialize (Hcancel b (id value) Hj).
  destruct (BookVector.cancel b (id value)) as [[] b1]; simpl in *; [|done].
  by rewrite Hplace.
Qed.

(** X11. In both books and in every state, a call about one id ([place],
    [modify] or [cancel]) leaves the stored order of every other id as it
    was. *)
Theorem other_orders_untouched :
  (∀ b r j, j ≠ request_id r →
     BookMap.orders_ (BookMap.step b r).2 !! j = BookMap.orders_ b !! j) ∧
  (∀ b r j, j ≠ request_id r →
     BookVector.orders_ (BookVector.step b r).2 !! j
     = BookVector.orders_ b !! j).
Proof. split; [apply map_step_orders_other|apply vector_step_orders_other]. Qed.

Lemma other_orders_untouched_witness :
  let mb := BookMap.run BookMap.empty_book
              [Place (Order 1 100 5); Place (Order 2 99 7)] in
  let vb := BookVector.run BookVector.empty_book
              [Place (Order 1 100 5); Place (Order 2 99 7)] in
  BookMap.orders_ (BookMap.step mb (Modify (Order 2 100 (-3)))).2 !! 1%N
    = BookMap.orders_ mb !! 1%N ∧
  BookVector.orders_ (BookVector.step vb (Modify (Order 2 100 (-3)))).2 !! 1%N
    = BookVector.orders_ vb !! 1%N.
Proof.
  intros mb vb. destruct other_orders_untouched as [Hm Hv]. split.
  - apply Hm. simpl. lia.
  - apply Hv. simpl. lia.
Defined.

(** ** Round trips *)

(** X12. A [place] that passes the guard followed by [cancel] of the same
    id: both return [true] and the whole book (order store and both price
    indexes) is as before.  This holds in every reachable sorted-bucket
    book, and in every reachable ordered-map book when the price of the
    order is free on its side. *)
Theorem place_cancel_round_trip :
  (∀ b o, BookVector.reachable b →
     amount o ≠ 0%Z → BookVector.orders_ b !! id o = None →
     ∃ b1, BookVector.place b o = (true, b1) ∧
           BookVector.cancel b1 (id o) = (true, b)) ∧
  (∀ b o, BookMap.reachable b →
     amount o ≠ 0%Z → BookMap.orders_ b !! id o = None →
     (∀ j, (price o, j) ∉
        (if is_bid (amount o) then BookMap.bids_ b else BookMap.asks_ b)) →
     ∃ b1, BookMap.place b o = (true, b1) ∧
           BookMap.cancel b1 (id o) = (true, b)).
Proof.
  split.
  - intros b o Hwf%vector_reachable_wf Hnz Hnone.
    pose proof (vector_place_cancel b o Hwf Hnone) as Hback.
    pose proof (vector_place_wf b o Hwf) as Hwf1.
    destruct (BookVector.place b o) as [r b1] eqn:Hpl. simpl in *.
    assert (r = true ∧ BookVector.orders_ b1 !! id o = Some o) as [-> Ho].
    { rewrite vector_place_unfold in Hpl. apply Z.eqb_neq in Hnz.
      rewrite Hnz in Hpl. simpl in Hpl.
      rewrite bool_decide_eq_false_2 in Hpl by (rewrite Hnone; by intros [? ?]).
      destruct (is_bid (amount o)); injection Hpl as <- <-;
        (split; [done|]); apply lookup_insert_eq. }
    exists b1. split; [done|].
    pose proof (vector_cancel_active b1 (id o) Hwf1) as Hc.
    destruct (BookVector.cancel b1 (id o)) as [c b2]. simpl in *.
    rewrite Hc by (by eexists). by rewrite Hback.
  - intros b o Hwf%map_reachable_wf Hnz Hnone Hfree.
    rewrite map_place_unfold. apply Z.eqb_neq in Hnz. rewrite Hnz. simpl.
    rewrite bool_decide_eq_false_2 by (rewrite Hnone; by intros [? ?]).
    eexists. split; [done|].
    unfold BookMap.cancel, BookMap.add_to_book, BookMap.remove_from_book.
    destruct (is_bid (amount o)) eqn:Hbid; simpl;
      rewrite lookup_insert_eq; simpl; rewrite Hbid.
    + rewrite (erase_emplace greater) by done. simpl.
      rewrite delete_insert_id by done. by destruct b.
    + rewrite (erase_emplace less) by done. simpl.
      rewrite delete_insert_id by done. by destruct b.
Qed.

Lemma place_cancel_round_trip_witness :
  let vb := BookVector.run BookVector.empty_book [Place (Order 1 100 5)] in
  let mb := BookMap.run BookMap.empty_book [Place (Order 1 100 5)] in
  (∃ b1, BookVector.place vb (Order 2 100 7) = (true, b1) ∧
         BookVector.cancel b1 2 = (true, vb)) ∧
  (∃ b1, BookMap.place mb (Order 2 101 7) = (true, b1) ∧
         BookMap.cancel b1 2 = (true, mb)).
Proof.
  intros vb mb. destruct place_cancel_round_trip as [Hv Hm]. split.
  - apply (Hv vb (Order 2 100 7)); [by eexists|simpl; lia|].
    vm_compute. reflexivity.
  - apply (Hm mb (Order 2 101 7)); [by eexists|simpl; lia| |].
    + vm_compute. reflexivity.
    + intros j Hin. simpl in Hin.
      apply elem_of_cons in Hin as [[=]|Hin]. by apply elem_of_nil in Hin.
Defined.

(** ** The benchmark body: place every order, then cancel every order *)

Section vector_bench.
Import BookVector BookVectorBench.

Lemma vector_place_all_spec b orders :
  vector_book_wf b → NoDup (id <$> orders) →
  (∀ o, o ∈ orders → amount o ≠ 0%Z ∧ orders_ b !! id o = None) →
  (place_all b orders).1 = replicate (length orders) true ∧
  vector_book_wf (place_all b orders).2 ∧
  (∀ o, o ∈ orders → orders_ (place_all b orders).2 !! id o = Some o) ∧
  (∀ j, j ∉ id <$> orders →
     orders_ (place_all b orders).2 !! j = orders_ b !! j).
Proof.
  revert b. induction orders as [|value rest IH]; intros b Hwf Hnd Hfresh.
  { split; [done|]. split; [done|]. split; [|done].
    intros o Ho. by apply elem_of_nil in Ho. }
  rewrite fmap_cons in Hnd. apply NoDup_cons in Hnd as [Hnotin Hnd].
  destruct (Hfresh value) as [Hnz Hnone]; [by left|].
  pose proof (vector_place_wf b value Hwf) as Hwf1.
  simpl. rewrite vector_place_unfold in *.
  apply Z.eqb_neq in Hnz. rewrite Hnz in *. simpl in *.
  rewrite bool_decide_eq_false_2 in * by (rewrite Hnone; by intros [? ?]).
  set (b1 := if is_bid (amount value) then _ else _) in *.
  assert (b1.1 = true ∧ orders_ b1.2 = <[id value := value]> (orders_ b))
    as [Hr Hos] by (subst b1; by destruct (is_bid (amount value))).
  destruct b1 as [r b1]. simpl in *. subst r.
  destruct (IH b1 Hwf1 Hnd) as (Hrs & Hwf2 & Hin & Hout).
  { intros o Ho. destruct (Hfresh o) as [Hnzo Hnoneo]; [by right|].
    split; [done|]. rewrite Hos, lookup_insert_ne; [done|].
    intros Heq. apply Hnotin. rewrite Heq. by apply list_elem_of_fmap_2. }
  destruct (place_all b1 rest) as [rs b2]. simpl in *.
  split; [by rewrite Hrs|]. split; [done|]. split.
  - intros o [->|Ho]%elem_of_cons; [|by apply Hin].
    rewrite Hout by done. rewrite Hos. apply lookup_insert_eq.
  - intros j [Hj Hjrest]%not_elem_of_cons.
    rewrite Hout by done. rewrite Hos. by apply lookup_insert_ne.
Qed.

Lemma vector_cancel_all_spec b orders :
  vector_book_wf b → NoDup (id <$> orders) →
  (∀ o, o ∈ orders → is_Some (orders_ b !! id o)) →
  (cancel_all b orders).1 = replicate (length orders) true ∧
  vector_book_wf (cancel_all b orders).2 ∧
  (∀ o, o ∈ orders → orders_ (cancel_all b orders).2 !! id o = None) ∧
  (∀ j, j ∉ id <$> orders →
     orders_ (cancel_all b orders).2 !! j = orders_ b !! j).
Proof.
  revert b. induction orders as [|value rest IH]; intros b Hwf Hnd Hact.
  { split; [done|]. split; [done|]. split; [|done].
    intros o Ho. by apply elem_of_nil in Ho. }
  rewrite fmap_cons in Hnd. apply NoDup_cons in Hnd as [Hnotin Hnd].
  pose proof (vector_cancel_wf b (id value) Hwf) as Hwf1.
  pose proof (vector_cancel_active b (id value) Hwf) as Hc.
  simpl. destruct (cancel b (id value)) as [r b1] eqn:Hcancel. simpl in *.
  assert (r = true) as -> by (apply Hc, Hact; by left). clear Hc.
  apply vector_cancel_orders in Hcancel as Hos.
  destruct (IH b1 Hwf1 Hnd) as (Hrs & Hwf2 & Hin & Hout).
  { intros o Ho. rewrite Hos, lookup_delete_ne; [apply Hact; by right|].
    intros Heq. apply Hnotin. rewrite Heq. by apply list_elem_of_fmap_2. }
  destruct (cancel_all b1 rest) as [rs b2]. simpl in *.
  split; [by rewrite Hrs|]. split; [done|]. split.
  - intros o [->|Ho]%elem_of_cons; [|by apply Hin].
    rewrite Hout by done. rewrite Hos. apply lookup_delete_eq.
  - intros j [Hj Hjrest]%not_elem_of_cons.
    rewrite Hout by done. rewrite Hos. by apply lookup_delete_ne.
Qed.

(** A well-formed book with an empty store is the empty book. *)
Lemma vector_wf_empty_store b :
  vector_book_wf b → orders_ b = ∅ → b = empty_book.
Proof.
  intros [_ Hb Ha _] Hempty.
  assert (∀ comp side levels, levels_wf comp side (orders_ b) levels →
            levels = []) as Hnil.
  { intros comp side [|level rest] (_ & Hok & Hm); [done|].
    apply Forall_cons in Hok as [[Hne _] _].
    destruct (Level.ids level) as [|i ids] eqn:Hids; [done|].
    destruct (Hm (Level.price level) i) as (o & Ho & _).
    { exists level. split; [by left|]. split; [done|]. rewrite Hids. by left. }
    by rewrite Hempty, lookup_empty in Ho. }
  destruct b as [os bids asks]. simpl in *. subst os.
  by rewrite (Hnil _ _ _ Hb), (Hnil _ _ _ Ha).
Qed.
End vector_bench.

(** X13. The benchmark body on the sorted-bucket book: for orders with
    pairwise different ids and amounts other than 0, none of them active
    in a reachable book, every [place] and every [cancel] returns [true]
    and the order store ends as it started; started on the empty book, the
    body ends on the empty book. *)
Theorem vector_place_all_cancel_all :
  ∀ b orders, BookVector.reachable b →
    NoDup (id <$> orders) →
    (∀ o, o ∈ orders → amount o ≠ 0%Z ∧ BookVector.orders_ b !! id o = None) →
    (BookVectorBench.place_cancel b orders).1
      = replicate (length orders + length orders) true ∧
    BookVector.orders_ (BookVectorBench.place_cancel b orders).2
      = BookVector.orders_ b ∧
    (b = BookVector.empty_book →
     (BookVectorBench.place_cancel b orders).2 = BookVector.empty_book).
Proof.
  intros b orders Hwf%vector_reachable_wf Hnd Hfresh.
  unfold BookVectorBench.place_cancel.
  destruct (vector_place_all_spec b orders Hwf Hnd Hfresh)
    as (Hrs1 & Hwf1 & Hin1 & Hout1).
  destruct (BookVectorBench.place_all b orders) as [rs1 b1]. simpl in *.
  destruct (vector_cancel_all_spec b1 orders Hwf1 Hnd)
    as (Hrs2 & Hwf2 & Hin2 & Hout2).
  { intros o Ho. rewrite Hin1 by done. by eexists. }
  destruct (BookVectorBench.cancel_all b1 orders) as [rs2 b2]. simpl in *.
  assert (BookVector.orders_ b2 = BookVector.orders_ b) as Hos.
  { apply map_eq. intros j.
    destruct (decide (j ∈ id <$> orders)) as [Hj|Hj].
    - apply list_elem_of_fmap in Hj as (o & -> & Ho).
      rewrite Hin2 by done. symmetry. by apply Hfresh.
    - by rewrite Hout2, Hout1. }
  split; [by rewrite Hrs1, Hrs2, replicate_add|]. split; [done|].
  intros ->. apply vector_wf_empty_store; [done|]. by rewrite Hos.
Qed.

Lemma vector_place_all_cancel_all_witness :
  let orders := [Order 7 100 5; Order 3 100 2; Order 9 95 1; Order 4 100 6] in
  BookVectorBench.place_cancel BookVector.empty_book orders
  = (replicate 8 true, BookVector.empty_book).
Proof.
  intros orders.
  destruct (vector_place_all_cancel_all BookVector.empty_book orders)
    as (Hrs & _ & Hend).
  - by exists [].
  - unfold orders. apply (bool_decide_unpack _). vm_compute. exact I.
  - intros o Ho. split; [|apply lookup_empty].
    unfold orders in Ho.
    repeat (apply elem_of_cons in Ho as [->|Ho]; [simpl; lia|]).
    by apply elem_of_nil in Ho.
  - destruct (BookVectorBench.place_cancel BookVector.empty_book orders)
      as [rs b2]. simpl in *. by rewrite Hrs, Hend.
Defined.

(** ** The ordered-map book in every reachable state *)

(** X14. In every reachable ordered-map book [best_bid()] and [best_ask()]
    return nothing exactly when their index is empty; otherwise they return
    the active order whose entry is the first of the index: it is of the
    side of the index, and no index entry has a better price. *)
Theorem map_best_is_head :
  ∀ b, BookMap.reachable b →
    (BookMap.best_bid b = None ↔ BookMap.bids_ b = []) ∧
    (BookMap.best_ask b = None ↔ BookMap.asks_ b = []) ∧
    (∀ o, BookMap.best_bid b = Some o →
       BookMap.orders_ b !! id o = Some o ∧ (0 < amount o)%Z ∧
       head (BookMap.bids_ b) = Some (price o, id o) ∧
       ∀ p j, (p, j) ∈ BookMap.bids_ b → (p ≤ price o)%Z) ∧
    (∀ o, BookMap.best_ask b = Some o →
       BookMap.orders_ b !! id o = Some o ∧ (amount o < 0)%Z ∧
       head (BookMap.asks_ b) = Some (price o, id o) ∧
       ∀ p j, (p, j) ∈ BookMap.asks_ b → (price o ≤ p)%Z).
Proof.
  intros b [Hos [Hsb Hb] [Hsa Ha]]%map_reachable_wf.
  unfold BookMap.best_bid, BookMap.best_ask.
  split; [|split; [|split]].
  - destruct (BookMap.bids_ b) as [|[p i] m]; [done|]. simpl.
    destruct (Hb p i) as (o & -> & _); [by left|]. done.
  - destruct (BookMap.asks_ b) as [|[p i] m]; [done|]. simpl.
    destruct (Ha p i) as (o & -> & _); [by left|]. done.
  - intros o. destruct (BookMap.bids_ b) as [|[p i] m] eqn:Hbids; [done|].
    simpl. destruct (Hb p i) as (o' & Ho' & Hp & Hside); [by left|].
    rewrite Ho'. intros [= ->]. destruct (Hos _ _ Ho') as [Hid _].
    unfold is_bid in Hside. rewrite Hid.
    split; [done|]. split; [lia|]. split; [by rewrite Hp|].
    intros p' j Hin.
    pose proof (keys_sorted_head greater p i m (p', j) Hsb Hin) as Hc.
    unfold greater in Hc. simpl in Hc. lia.
  - intros o. destruct (BookMap.asks_ b) as [|[p i] m] eqn:Hasks; [done|].
    simpl. destruct (Ha p i) as (o' & Ho' & Hp & Hside); [by left|].
    rewrite Ho'. intros [= ->]. destruct (Hos _ _ Ho') as [Hid Hnz].
    unfold is_bid in Hside. rewrite Hid.
    split; [done|]. split; [lia|]. split; [by rewrite Hp|].
    intros p' j Hin.
    pose proof (keys_sorted_head less p i m (p', j) Hsa Hin) as Hc.
    unfold less in Hc. simpl in Hc. lia.
Qed.

Lemma map_best_is_head_witness :
  let b := BookMap.run BookMap.empty_book
             [Place (Order 1 100 5); Place (Order 2 100 7); Cancel 1] in
  (BookMap.best_bid b = None ↔ BookMap.bids_ b = []) ∧
  (BookMap.best_ask b = None ↔ BookMap.asks_ b = []).
Proof.
  intros b. assert (BookMap.reachable b) as Hr by (by eexists).
  destruct (map_best_is_head b Hr) as (Hbid & Hask & _). by split.
Defined.

(** After [cancel], whatever it returned, no index holds the id. *)
Lemma map_cancel_unindexes b i :
  map_book_wf b → unindexed i (BookMap.cancel b i).2.
Proof.
  intros Hwf. destruct (BookMap.cancel b i) as [[] b'] eqn:Hc; simpl.
  - by destruct (map_cancel_true _ _ _ Hwf Hc) as (_ & _ & _ & _ & ?).
  - pose proof (map_cancel_false _ _ _ Hc) as ->.
    unfold BookMap.cancel in Hc.
    destruct (BookMap.orders_ b !! i) as [value|] eqn:Hv;
      [|by apply map_absent_unindexed].
    destruct (map_store_wf_lookup _ _ _ Hwf Hv) as [Hid _].
    destruct Hwf as [_ Hb Ha]. pose proof Hb as [Hsb Hmb]. pose proof Ha as [Hsa Hma].
    unfold BookMap.remove_from_book in Hc.
    intros p. destruct (is_bid (amount value)) eqn:Hside.
    + destruct (BookMap.erase_in_equal_range greater _ _ _) eqn:Her; [done|].
      apply (erase_None greater) in Her; [|done]. rewrite Hid in Her. split.
      * intros Hin. destruct (Hmb _ _ Hin) as (o & Ho & Hp & _). congruence.
      * eapply index_wf_other_side; [done..|]. by rewrite Hside.
    + destruct (BookMap.erase_in_equal_range less _ _ _) eqn:Her; [done|].
      apply (erase_None less) in Her; [|done]. rewrite Hid in Her. split.
      * eapply index_wf_other_side; [done..|]. by rewrite Hside.
      * intros Hin. destruct (Hma _ _ Hin) as (o & Ho & Hp & _). congruence.
Qed.

Lemma map_cancel_keeps_unindexed b i j :
  map_book_wf b → unindexed j b → unindexed j (BookMap.cancel b i).2.
Proof.
  intros Hwf Hun. unfold BookMap.cancel.
  destruct (BookMap.orders_ b !! i) as [value|]; [|done].
  destruct (BookMap.remove_from_book b value) as [[] b1] eqn:Hrm; simpl.
  - by destruct (unindexed_remove_from_book _ _ _ _ Hwf Hun Hrm) as [? _].
  - by apply map_remove_from_book_false in Hrm as ->.
Qed.

(** X15. In every reachable ordered-map book [cancel] returns [true]
    exactly when the id is active and the index of its side holds its entry
    at its price; and after [cancel], whatever it returned, no index entry
    carries the id. *)
Theorem map_cancel_succeeds_iff_indexed :
  ∀ b i, BookMap.reachable b →
    ((BookMap.cancel b i).1 = true ↔
     ∃ value, BookMap.orders_ b !! i = Some value ∧
       (price value, i) ∈
         (if is_bid (amount value) then BookMap.bids_ b else BookMap.asks_ b)) ∧
    (∀ p, ((p, i) ∉ BookMap.bids_ (BookMap.cancel b i).2) ∧
          ((p, i) ∉ BookMap.asks_ (BookMap.cancel b i).2)).
Proof.
  intros b i Hwf%map_reachable_wf. split; [|by apply map_cancel_unindexes].
  split.
  - destruct (BookMap.cancel b i) as [r b'] eqn:Hc. simpl. intros ->.
    destruct (map_cancel_true _ _ _ Hwf Hc) as (value & Hv & Hin & _).
    by exists value.
  - intros (value & Hv & Hin).
    destruct (map_store_wf_lookup _ _ _ Hwf Hv) as [Hid _].
    destruct Hwf as [_ [Hsb _] [Hsa _]].
    unfold BookMap.cancel, BookMap.remove_from_book. rewrite Hv, Hid.
    destruct (is_bid (amount value)).
    + destruct (erase_present greater _ _ _ Hsb Hin) as [m' ->]. done.
    + destruct (erase_present less _ _ _ Hsa Hin) as [m' ->]. done.
Qed.

Lemma map_cancel_succeeds_iff_indexed_witness :
  let b := BookMap.run BookMap.empty_book
             [Place (Order 1 100 5); Place (Order 2 100 7)] in
  (BookMap.cancel b 1).1 = true ∧
  ∀ p, ((p, 2%N) ∉ BookMap.bids_ (BookMap.cancel b 2).2) ∧
       ((p, 2%N) ∉ BookMap.asks_ (BookMap.cancel b 2).2).
Proof.
  intros b. assert (BookMap.reachable b) as Hr by (by eexists). split.
  - apply (map_cancel_succeeds_iff_indexed b 1%N Hr).
    exists (Order 1 100 5). split; [vm_compute; reflexivity|]. simpl. left.
  - apply (map_cancel_succeeds_iff_indexed b 2%N Hr).
Defined.

Lemma erase_frees_key comp `{!Compare comp} m m' k i j :
  keys_sorted comp m → BookMap.erase_in_equal_range comp k i m = Some m' →
  (k, j) ∉ m'.
Proof.
  intros Hs Her Hin. apply (erase_Some comp) in Her as (Hki & _ & Hiff); [|done].
  apply Hiff in Hin as [Hin Hne]. apply Hne. f_equal.
  by apply (keys_sorted_unique comp m k).
Qed.

(** X16. In every reachable ordered-map book, [modify] with an amount that
    is not 0 for an active order, to another price or to the other side:
    it fails, changing nothing, when the index does not hold the entry of
    the order at its current price; otherwise it returns [true], the store
    holds the new value under the id, the current price is left free in the
    index of the current side, and the new price is occupied in the index of
    the new side, by this id when that price was free. *)
Theorem map_modify_moves :
  ∀ b value previous, BookMap.reachable b →
    amount value ≠ 0%Z →
    BookMap.orders_ b !! id value = Some previous →
    is_bid (amount previous) ≠ is_bid (amount value)
      ∨ price previous ≠ price value →
    let old_index (b : BookMap.book) :=
      if is_bid (amount previous) then BookMap.bids_ b else BookMap.asks_ b in
    let new_index (b : BookMap.book) :=
      if is_bid (amount value) then BookMap.bids_ b else BookMap.asks_ b in
    ((price previous, id value) ∉ old_index b →
       BookMap.modify b value = (false, b)) ∧
    ((price previous, id value) ∈ old_index b →
       ∃ b', BookMap.modify b value = (true, b') ∧
         BookMap.orders_ b' = <[id value := value]> (BookMap.orders_ b) ∧
         (∀ j, (price previous, j) ∉ old_index b') ∧
         (∃ j, (price value, j) ∈ new_index b') ∧
         ((∀ j, (price value, j) ∉ new_index b) →
            (price value, id value) ∈ new_index b')).
Proof.
  intros b value previous Hwf%map_reachable_wf Hnz Hprev Hdiff old_index new_index.
  destruct (map_store_wf_lookup _ _ _ Hwf Hprev) as [Hid _].
  pose proof Hwf as [_ [Hsb _] [Hsa _]].
  unfold BookMap.modify. apply Z.eqb_neq in Hnz. rewrite Hnz, Hprev.
  assert (eqb (is_bid (amount previous)) (is_bid (amount value))
          && (price previous =? price value)%Z = false) as ->.
  { apply andb_false_iff. destruct Hdiff as [Hs|Hp].
    - left. by apply eqb_false_iff.
    - right. by apply Z.eqb_neq. }
  unfold BookMap.remove_from_book, BookMap.add_to_book. rewrite Hid.
  subst old_index new_index. simpl.
  destruct (is_bid (amount previous)) eqn:Hbp.
  - split.
    + intros Hnotin.
      destruct (BookMap.erase_in_equal_range greater _ _ _) eqn:Her; [|done].
      by apply (erase_Some greater) in Her as (? & _).
    + intros Hin.
      destruct (erase_present greater _ _ _ Hsb Hin) as [m' Her]. rewrite Her.
      pose proof (erase_Some greater _ _ _ _ Hsb Her) as (_ & Hsm' & Hiff).
      simpl. destruct (is_bid (amount value)) eqn:Hbv; simpl.
      * destruct Hdiff as [?|Hp]; [done|].
        eexists. split; [done|]. simpl. split; [done|]. split; [|split].
        -- intros j [Hj|[= ? _]]%emplace_elem; [|done].
           by apply (erase_frees_key greater _ _ _ _ j Hsb Her).
        -- apply (emplace_covers greater).
        -- intros Hfree. apply (elem_of_emplace greater); [done|]. right.
           split; [done|]. intros v' Hv'. apply (Hfree v'). by apply Hiff.
      * eexists. split; [done|]. simpl. split; [done|]. split; [|split].
        -- intros j. by apply (erase_frees_key greater _ _ _ _ j Hsb Her).
        -- apply (emplace_covers less).
        -- intros Hfree. apply (elem_of_emplace less); [done|]. by right.
  - split.
    + intros Hnotin.
      destruct (BookMap.erase_in_equal_range less _ _ _) eqn:Her; [|done].
      by apply (erase_Some less) in Her as (? & _).
    + intros Hin.
      destruct (erase_present less _ _ _ Hsa Hin) as [m' Her]. rewrite Her.
      pose proof (erase_Some less _ _ _ _ Hsa Her) as (_ & Hsm' & Hiff).
      simpl. destruct (is_bid (amount value)) eqn:Hbv; simpl.
      * eexists. split; [done|]. simpl. split; [done|]. split; [|split].
        -- intros j. by apply (erase_frees_key less _ _ _ _ j Hsa Her).
        -- apply (emplace_covers greater).
        -- intros Hfree. apply (elem_of_emplace greater); [done|]. by right.
      * destruct Hdiff as [?|Hp]; [done|].
        eexists. split; [done|]. simpl. split; [done|]. split; [|split].
        -- intros j [Hj|[= ? _]]%emplace_elem; [|done].
           by apply (erase_frees_key less _ _ _ _ j Hsa Her).
        -- apply (emplace_covers less).
        -- intros Hfree. apply (elem_of_emplace less); [done|]. right.
           split; [done|]. intros v' Hv'. apply (Hfree v'). by apply Hiff.
Qed.

Lemma map_modify_moves_witness :
  let b := BookMap.run BookMap.empty_book
             [Place (Order 1 100 5); Place (Order 2 99 7)] in
  ∃ b', BookMap.modify b (Order 2 101 7) = (true, b') ∧
    BookMap.orders_ b' = <[2%N := Order 2 101 7]> (BookMap.orders_ b).
Proof.
  intros b.
  destruct (map_modify_moves b (Order 2 101 7) (Order 2 99 7)) as [_ Hmove].
  - by eexists.
  - simpl. lia.
  - vm_compute. reflexivity.
  - right. simpl. lia.
  - destruct Hmove as (b' & Hm & Hos & _).
    + simpl. right. left.
    + exists b'. split; [exact Hm|exact Hos].
Defined.

(** X17. In every reachable ordered-map book an index holds one id per
    price, and an id is carried by at most one entry of the two indexes. *)
Theorem map_id_indexed_once :
  ∀ b, BookMap.reachable b →
    (∀ p i j, (p, i) ∈ BookMap.bids_ b → (p, j) ∈ BookMap.bids_ b → i = j) ∧
    (∀ p i j, (p, i) ∈ BookMap.asks_ b → (p, j) ∈ BookMap.asks_ b → i = j) ∧
    (∀ i p p', (p, i) ∈ BookMap.bids_ b → (p', i) ∈ BookMap.bids_ b → p = p') ∧
    (∀ i p p', (p, i) ∈ BookMap.asks_ b → (p', i) ∈ BookMap.asks_ b → p = p') ∧
    (∀ i p p', (p, i) ∈ BookMap.bids_ b → (p', i) ∉ BookMap.asks_ b).
Proof.
  intros b [_ [Hsb Hb] [Hsa Ha]]%map_reachable_wf.
  split; [|split; [|split; [|split]]].
  - intros p i j. by apply (keys_sorted_unique greater).
  - intros p i j. by apply (keys_sorted_unique less).
  - intros i p p' (o & Ho & Hp & _)%Hb (o' & Ho' & Hp' & _)%Hb. congruence.
  - intros i p p' (o & Ho & Hp & _)%Ha (o' & Ho' & Hp' & _)%Ha. congruence.
  - intros i p p' (o & Ho & _ & Hs)%Hb (o' & Ho' & _ & Hs')%Ha. congruence.
Qed.

Lemma map_id_indexed_once_witness :
  let b := BookMap.run BookMap.empty_book
             [Place (Order 1 100 5); Place (Order 2 99 7); Modify (Order 2 98 (-7))] in
  BookMap.reachable b ∧ ∀ p, (p, 1%N) ∉ BookMap.asks_ b.
Proof.
  intros b. assert (BookMap.reachable b) as Hr by (by eexists).
  split; [exact Hr|]. intros p.
  destruct (map_id_indexed_once b Hr) as (_ & _ & _ & _ & Hside).
  apply (Hside 1%N 100%Z p). vm_compute. left.
Defined.

Section map_bench.
Import BookMap BookMapBench.

Lemma map_place_all_spec b orders :
  map_book_wf b →
  map_book_wf (place_all b orders).2 ∧
  ∀ j o, orders_ (place_all b orders).2 !! j = Some o →
    orders_ b !! j = Some o ∨ o ∈ orders.
Proof.
  revert b. induction orders as [|value rest IH]; intros b Hwf.
  { split; [done|]. intros j o Ho. by left. }
  simpl. pose proof (map_place_wf b value Hwf) as Hwf1.
  assert (∀ j o, orders_ (place b value).2 !! j = Some o →
            orders_ b !! j = Some o ∨ o = value) as Hstep.
  { intros j o. rewrite map_place_unfold. destruct (_ || _); [by left|]. simpl.
    rewrite map_add_to_book_orders. simpl.
    destruct (decide (j = id value)) as [->|Hne].
    - rewrite lookup_insert_eq. intros [= <-]. by right.
    - rewrite lookup_insert_ne by done. by left. }
  destruct (place b value) as [r b1]. simpl in *.
  destruct (IH b1 Hwf1) as [Hwf2 Hin].
  destruct (place_all b1 rest) as [rs b2]. simpl in *.
  split; [done|]. intros j o [[Ho| ->]%Hstep|Ho]%Hin;
    [by left|right; by left|right; by right].
Qed.

Lemma map_cancel_all_spec b orders :
  map_book_wf b →
  map_book_wf (cancel_all b orders).2 ∧
  (∀ o, o ∈ orders → unindexed (id o) (cancel_all b orders).2) ∧
  (∀ i, unindexed i b → unindexed i (cancel_all b orders).2) ∧
  (∀ j o, orders_ (cancel_all b orders).2 !! j = Some o →
     orders_ b !! j = Some o).
Proof.
  revert b. induction orders as [|value rest IH]; intros b Hwf.
  { split; [done|]. split; [|done]. intros o Ho. by apply elem_of_nil in Ho. }
  simpl. pose proof (map_cancel_wf b (id value) Hwf) as Hwf1.
  pose proof (map_cancel_unindexes b (id value) Hwf) as Hun.
  pose proof (λ i, map_cancel_keeps_unindexed b (id value) i Hwf) as Hkeep.
  assert (∀ j o, orders_ (cancel b (id value)).2 !! j = Some o →
            orders_ b !! j = Some o) as Hstep.
  { intros j o. destruct (cancel b (id value)) as [[] b'] eqn:Hc; simpl.
    - rewrite (map_cancel_orders _ _ _ Hc). by intros [_ ?]%lookup_delete_Some.
    - by rewrite (map_cancel_false _ _ _ Hc). }
  destruct (cancel b (id value)) as [r b1]. simpl in *.
  destruct (IH b1 Hwf1) as (Hwf2 & Hin & Hpres & Hos).
  destruct (cancel_all b1 rest) as [rs b2]. simpl in *.
  split; [done|]. split; [|split].
  - intros o [->|Ho]%elem_of_cons; [by apply Hpres|by apply Hin].
  - intros i Hi. by apply Hpres, Hkeep.
  - intros j o Ho. by apply Hstep, Hos.
Qed.
End map_bench.

(** X18. The benchmark body on the ordered-map book, started on the empty
    book with any orders: when it ends both price indexes are empty, so
    [best_bid()] and [best_ask()] return nothing, and every order still in
    the store is one of the orders of the run. *)
Theorem map_place_all_cancel_all :
  ∀ orders,
    let b2 := (BookMapBench.place_cancel BookMap.empty_book orders).2 in
    BookMap.bids_ b2 = [] ∧ BookMap.asks_ b2 = [] ∧
    BookMap.best_bid b2 = None ∧ BookMap.best_ask b2 = None ∧
    ∀ i o, BookMap.orders_ b2 !! i = Some o → o ∈ orders.
Proof.
  intros orders. unfold BookMapBench.place_cancel.
  destruct (map_place_all_spec BookMap.empty_book orders map_empty_book_wf)
    as [Hwf1 Hin1].
  destruct (BookMapBench.place_all BookMap.empty_book orders) as [rs1 b1].
  simpl in *.
  destruct (map_cancel_all_spec b1 orders Hwf1) as (Hwf2 & Hun & _ & Hos).
  destruct (BookMapBench.cancel_all b1 orders) as [rs2 b2]. simpl in *.
  assert (∀ i o, BookMap.orders_ b2 !! i = Some o → o ∈ orders) as Hleft.
  { intros i o Ho%Hos. apply Hin1 in Ho as [Ho|Ho]; [|done].
    by rewrite lookup_empty in Ho. }
  assert (∀ comp side m, index_wf comp side (BookMap.orders_ b2) m →
            (∀ p i, (p, i) ∈ m → ∀ o, o ∈ orders → id o = i → False) →
            m = []) as Hnil.
  { intros comp side [|[p i] m] [_ Hm] Hno; [done|]. exfalso.
    destruct (Hm p i) as (o & Ho & _); [by left|].
    apply (Hno p i) with (o := o); [by left|by eapply Hleft|].
    by apply (map_store_wf_lookup b2 i o). }
  destruct Hwf2 as [Hstore Hb Ha].
  assert (BookMap.bids_ b2 = []) as Hbids.
  { apply (Hnil _ _ _ Hb). intros p i Hin o Ho <-.
    destruct (Hun o Ho p) as [Hnb _]. by apply Hnb. }
  assert (BookMap.asks_ b2 = []) as Hasks.
  { apply (Hnil _ _ _ Ha). intros p i Hin o Ho <-.
    destruct (Hun o Ho p) as [_ Hna]. by apply Hna. }
  unfold BookMap.best_bid, BookMap.best_ask. rewrite Hbids, Hasks. done.
Qed.

Lemma map_place_all_cancel_all_witness :
  let b2 := (BookMapBench.place_cancel BookMap.empty_book
               [Order 1 100 10; Order 2 100 5; Order 3 101 (-4)]).2 in
  BookMap.best_bid b2 = None ∧
  ∀ i o, BookMap.orders_ b2 !! i = Some o →
    o ∈ [Order 1 100 10; Order 2 100 5; Order 3 101 (-4)].
Proof.
  intros b2.
  destruct (map_place_all_cancel_all
              [Order 1 100 10; Order 2 100 5; Order 3 101 (-4)])
    as (_ & _ & Hbest & _ & Hleft).
  split; [exact Hbest|exact Hleft].
Defined.

(** ** probe.hpp: the load balancer *)

(** The test cases of [TEST_SUITE("probe")]. *)
Example probe_some :
  let lb := Probe.run Probe.create [Probe.Add 1%Z; Probe.Add 2%Z; Probe.Add 3%Z] in
  (Probe.get_n 4 lb).1 = [Some 1%Z; Some 2%Z; Some 3%Z; Some 1%Z].
Proof. vm_compute. reflexivity. Qed.

Example probe_get_from_empty :
  (Probe.GetResource (Probe.create (T:=Z))).1 = None.
Proof. reflexivity. Qed.


Section probe_facts.
Context {T : Type}.
Implicit Types lb : Probe.LoadBalancer T.

Lemma probe_get_data lb : Probe.data_ (Probe.GetResource lb).2 = Probe.data_ lb.
Proof.
  unfold Probe.GetResource. destruct (Probe.data_ lb) eqn:Hd; [done|].
  by destruct (Probe.next_index _ _).
Qed.

Lemma probe_step_length lb c :
  length (Probe.data_ lb) ≤ length (Probe.data_ (Probe.step lb c)).
Proof.
  destruct c as [item|]; simpl.
  - rewrite length_app. simpl. lia.
  - by rewrite probe_get_data.
Qed.

(** One [GetResource] on a balancer that holds something. *)
Lemma probe_get_step lb :
  probe_wf lb → Probe.data_ lb ≠ [] →
  (N.of_nat (length (Probe.data_ lb)) < 2 ^ 64)%N →
  let k := N.to_nat (Probe.index_ (Probe.policy_ lb)) in
  let n := length (Probe.data_ lb) in
  k < n ∧
  Probe.GetResource lb =
    (Probe.data_ lb !! k,
     Probe.Balancer (Probe.data_ lb) (Probe.Policy (N.of_nat ((k + 1) mod n)))).
Proof.
  intros [Hlt|[_ Hnil]] Hne Hbound k n; [|done].
  assert (k < n) as Hk by (subst k n; lia).
  split; [done|].
  unfold Probe.GetResource, Probe.next_index.
  destruct (Probe.data_ lb) as [|x xs] eqn:Hd; [done|].
  fold n. f_equal. f_equal. f_equal.
  rewrite N.mod_small by lia.
  destruct (Probe.index_ (Probe.policy_ lb) + 1 =? N.of_nat n)%N eqn:Heq.
  - apply N.eqb_eq in Heq.
    assert (k + 1 = n) as -> by (subst k; lia).
    by rewrite Nat.Div0.mod_same.
  - apply N.eqb_neq in Heq.
    rewrite Nat.mod_small by (subst k; lia). subst k. lia.
Qed.

Lemma probe_step_wf lb c :
  probe_wf lb →
  (N.of_nat (length (Probe.data_ (Probe.step lb c))) < 2 ^ 64)%N →
  probe_wf (Probe.step lb c).
Proof.
  intros Hwf Hbound. destruct c as [item|]; simpl in *.
  - left. unfold Probe.AddResource. simpl. rewrite length_app. simpl.
    destruct Hwf as [Hlt|[Hz Hnil]]; [lia|]. rewrite Hz, Hnil. simpl. lia.
  - rewrite probe_get_data in Hbound.
    destruct (decide (Probe.data_ lb = [])) as [Hnil|Hne].
    + unfold Probe.GetResource. by rewrite Hnil.
    + destruct (probe_get_step lb Hwf Hne Hbound) as [Hk ->]. left. simpl.
      pose proof (Nat.mod_upper_bound
                    (N.to_nat (Probe.index_ (Probe.policy_ lb)) + 1)
                    (length (Probe.data_ lb))).
      lia.
Qed.

Lemma probe_run_wf cs :
  (N.of_nat (length (Probe.data_ (Probe.run (T:=T) Probe.create cs))) < 2 ^ 64)%N →
  probe_wf (Probe.run (T:=T) Probe.create cs).
Proof.
  induction cs as [|c cs IH] using rev_ind; intros Hbound.
  { right. done. }
  unfold Probe.run in *. rewrite foldl_app in *. simpl in *.
  apply probe_step_wf; [|done]. apply IH.
  pose proof (probe_step_length (foldl Probe.step Probe.create cs) c). lia.
Qed.

(** [m] calls in a row walk round the data. *)
Lemma probe_get_n_spec m lb :
  probe_wf lb → Probe.data_ lb ≠ [] →
  (N.of_nat (length (Probe.data_ lb)) < 2 ^ 64)%N →
  let k := N.to_nat (Probe.index_ (Probe.policy_ lb)) in
  let n := length (Probe.data_ lb) in
  Probe.get_n m lb =
    ((λ j, Probe.data_ lb !! ((k + j) mod n)) <$> seq 0 m,
     Probe.Balancer (Probe.data_ lb) (Probe.Policy (N.of_nat ((k + m) mod n)))).
Proof.
  revert lb. induction m as [|m IH]; intros lb Hwf Hne Hbound k n.
  { simpl. destruct (probe_get_step lb Hwf Hne Hbound) as [Hk _].
    fold k n in Hk. rewrite Nat.add_0_r, Nat.mod_small by done.
    subst k. rewrite N2Nat.id. by destruct lb as [d [i]]. }
  destruct (probe_get_step lb Hwf Hne Hbound) as [Hk Hget].
  fold k n in Hk, Hget. simpl. rewrite Hget.
  set (lb1 := Probe.Balancer _ _).
  assert (probe_wf lb1) as Hwf1.
  { left. simpl. pose proof (Nat.mod_upper_bound (k + 1) n). fold n. lia. }
  rewrite (IH lb1 Hwf1 Hne Hbound). simpl. fold n.
  rewrite Nat2N.id. f_equal.
  - rewrite Nat.add_0_r, (Nat.mod_small k n) by done. f_equal.
    rewrite <- fmap_S_seq, <- list_fmap_compose. apply list_fmap_ext.
    intros _ j _. simpl. f_equal.
    rewrite Nat.Div0.add_mod_idemp_l. f_equal. lia.
  - do 3 f_equal. rewrite Nat.Div0.add_mod_idemp_l. f_equal. lia.
Qed.
End probe_facts.

(** X19. For every balancer built from a new one by [AddResource] and
    [GetResource] calls (holding fewer than [2 ^ 64] resources):
    [GetResource] returns nothing exactly when no resource was added, never
    reads past the end of the data, returns one of the added resources
    otherwise, and never changes the resources. *)
Theorem probe_get_in_range :
  ∀ (T : Type) (cs : list (Probe.call T)),
    let lb := Probe.run Probe.create cs in
    (N.of_nat (length (Probe.data_ lb)) < 2 ^ 64)%N →
    ((Probe.GetResource lb).1 = None ↔ Probe.data_ lb = []) ∧
    (∀ item, (Probe.GetResource lb).1 = Some item → item ∈ Probe.data_ lb) ∧
    Probe.data_ (Probe.GetResource lb).2 = Probe.data_ lb.
Proof.
  intros T cs lb Hbound. pose proof (probe_run_wf cs Hbound) as Hwf. fold lb in Hwf.
  split; [|split; [|apply probe_get_data]].
  - split.
    + intros Hnone. destruct (decide (Probe.data_ lb = [])) as [|Hne]; [done|].
      destruct (probe_get_step lb Hwf Hne Hbound) as [Hk Hget].
      rewrite Hget in Hnone. simpl in Hnone.
      apply lookup_ge_None in Hnone. lia.
    + intros Hnil. unfold Probe.GetResource. by rewrite Hnil.
  - intros item Hsome. destruct (decide (Probe.data_ lb = [])) as [Hnil|Hne].
    { unfold Probe.GetResource in Hsome. by rewrite Hnil in Hsome. }
    destruct (probe_get_step lb Hwf Hne Hbound) as [Hk Hget].
    rewrite Hget in Hsome. simpl in Hsome. by eapply list_elem_of_lookup_2.
Qed.

Lemma probe_get_in_range_witness :
  let lb := Probe.run Probe.create
              [Probe.Add 1%Z; Probe.Get; Probe.Get; Probe.Add 2%Z; Probe.Get] in
  Probe.data_ (Probe.GetResource lb).2 = Probe.data_ lb.
Proof.
  intros lb.
  apply (probe_get_in_range Z
           [Probe.Add 1%Z; Probe.Get; Probe.Get; Probe.Add 2%Z; Probe.Get]).
  vm_compute. reflexivity.
Defined.

(** X20. Round robin: on a balancer built by [AddResource] and
    [GetResource] calls that holds [n > 0] resources and stands at position
    [k], the [j]-th of any number of [GetResource] calls in a row returns the
    resource at position [(k + j) mod n]. *)
Theorem probe_round_robin :
  ∀ (T : Type) (cs : list (Probe.call T)) (m : nat),
    let lb := Probe.run Probe.create cs in
    let k := N.to_nat (Probe.index_ (Probe.policy_ lb)) in
    let n := length (Probe.data_ lb) in
    Probe.data_ lb ≠ [] → (N.of_nat n < 2 ^ 64)%N →
    k < n ∧
    (Probe.get_n m lb).1
      = (λ j, Probe.data_ lb !! ((k + j) mod n)) <$> seq 0 m ∧
    Probe.data_ (Probe.get_n m lb).2 = Probe.data_ lb.
Proof.
  intros T cs m lb k n Hne Hbound.
  pose proof (probe_run_wf cs Hbound) as Hwf. fold lb in Hwf.
  destruct (probe_get_step lb Hwf Hne Hbound) as [Hk _].
  split; [done|]. by rewrite (probe_get_n_spec m lb Hwf Hne Hbound).
Qed.

Lemma probe_round_robin_witness :
  let lb := Probe.run Probe.create
              [Probe.Add 1%Z; Probe.Add 2%Z; Probe.Get; Probe.Add 3%Z] in
  (Probe.get_n 4 lb).1 = [Some 2%Z; Some 3%Z; Some 1%Z; Some 2%Z].
Proof.
  intros lb.
  destruct (probe_round_robin Z
              [Probe.Add 1%Z; Probe.Add 2%Z; Probe.Get; Probe.Add 3%Z] 4)
    as (_ & Hget & _).
  - vm_compute. discriminate.
  - vm_compute. reflexivity.
  - fold lb in Hget. rewrite Hget. vm_compute. reflexivity.
Defined.

Lemma probe_add_all {T : Type} (lb : Probe.LoadBalancer T) (xs : list T) :
  Probe.run lb (Probe.Add <$> xs)
  = Probe.Balancer (Probe.data_ lb ++ xs) (Probe.policy_ lb).
Proof.
  revert lb. induction xs as [|x xs IH]; intros lb; simpl.
  - rewrite app_nil_r. by destruct lb.
  - unfold Probe.run in *. rewrite IH. simpl. by rewrite <- app_assoc.
Qed.

Lemma lookup_all_positions {T : Type} (xs : list T) :
  (λ j, xs !! (j mod length xs)) <$> seq 0 (length xs) = Some <$> xs.
Proof.
  apply list_eq. intros i. rewrite !list_lookup_fmap.
  destruct (decide (i < length xs)) as [Hi|Hi].
  - rewrite lookup_seq_lt by done. simpl. rewrite Nat.mod_small by done.
    destruct (lookup_lt_is_Some_2 xs i Hi) as [x Hx]. by rewrite Hx.
  - rewrite lookup_seq_ge by lia. simpl.
    by rewrite (proj2 (lookup_ge_None xs i)) by lia.
Qed.

(** X21. After a new balancer was given the resources [xs] (at least one),
    as many [GetResource] calls as there are resources return each of them
    once, in the order they were added, and leave the balancer at its
    start; the next call returns the first resource again. *)
Theorem probe_full_cycle :
  ∀ (T : Type) (xs : list T),
    xs ≠ [] → (N.of_nat (length xs) < 2 ^ 64)%N →
    let lb := Probe.run Probe.create (Probe.Add <$> xs) in
    Probe.get_n (length xs) lb = (Some <$> xs, lb) ∧
    (Probe.GetResource (Probe.get_n (length xs) lb).2).1 = head xs.
Proof.
  intros T xs Hne Hbound lb. subst lb. rewrite probe_add_all. simpl.
  set (lb := Probe.Balancer xs (Probe.Policy 0)).
  assert (probe_wf lb) as Hwf.
  { left. simpl. destruct xs; [done|]. simpl. lia. }
  assert (Probe.get_n (length xs) lb = (Some <$> xs, lb)) as Hcycle.
  { rewrite (probe_get_n_spec (length xs) lb Hwf Hne Hbound). simpl.
    by rewrite Nat.Div0.mod_same, lookup_all_positions. }
  split; [done|]. rewrite Hcycle. simpl.
  destruct (probe_get_step lb Hwf Hne Hbound) as [_ ->]. simpl.
  by destruct xs.
Qed.

Lemma probe_full_cycle_witness :
  let lb := Probe.run Probe.create (Probe.Add <$> [1%Z; 2%Z; 3%Z]) in
  Probe.get_n 3 lb = (Some <$> [1%Z; 2%Z; 3%Z], lb).
Proof.
  intros lb. apply (probe_full_cycle Z [1%Z; 2%Z; 3%Z]).
  - discriminate.
  - vm_compute. reflexivity.
Defined.

(** ** vector.hpp *)

Section vector_facts.
Context {T : Type}.
Implicit Types (l : list T) (d rest : list (option T)).

Lemma layout_lookup l k i :
  ((Some <$> l) ++ replicate k None) !! i =
    if decide (i < length l) then Some (l !! i)
    else if decide (i < length l + k) then Some None else None.
Proof.
  case_decide as Hi.
  - rewrite lookup_app_l by (by rewrite length_fmap).
    rewrite list_lookup_fmap.
    destruct (lookup_lt_is_Some_2 l i Hi) as [x ->]. done.
  - rewrite lookup_app_r by (rewrite length_fmap; lia). rewrite length_fmap.
    case_decide.
    + apply lookup_replicate_2. lia.
    + apply lookup_replicate_None. lia.
Qed.

Lemma construct_from_length src d n count :
  length (ArenaVector.construct_from src d n count) = length d.
Proof.
  revert d n. induction count as [|count IH]; intros d n; [done|].
  cbn [ArenaVector.construct_from]. destruct (ArenaVector.at_ src n); [|done].
  rewrite IH. unfold ArenaVector.construct. by rewrite length_insert.
Qed.

Lemma construct_from_lookup l rest d n count i :
  N.to_nat n + count ≤ length l →
  ArenaVector.construct_from (Some ((Some <$> l) ++ rest)) d n count !! i =
    if decide (N.to_nat n ≤ i < N.to_nat n + count ∧ i < length d)
    then Some (l !! i) else d !! i.
Proof.
  revert d n. induction count as [|count IH]; intros d n Hle.
  { cbn [ArenaVector.construct_from]. case_decide; [lia|done]. }
  cbn [ArenaVector.construct_from].
  destruct (lookup_lt_is_Some_2 l (N.to_nat n)) as [x Hx]; [lia|].
  assert (ArenaVector.at_ (Some ((Some <$> l) ++ rest)) n = Some x) as ->.
  { unfold ArenaVector.at_.
    rewrite lookup_app_l by (rewrite length_fmap; lia).
    by rewrite list_lookup_fmap, Hx. }
  rewrite IH by lia. unfold ArenaVector.construct.
  rewrite length_insert, list_lookup_insert.
  replace (N.to_nat (n + 1)) with (S (N.to_nat n)) by lia.
  destruct (decide (N.to_nat n ≤ i < N.to_nat n + S count ∧ i < length d))
    as [Hin|Hout].
  - destruct (decide (i = N.to_nat n)) as [->|Hne].
    + rewrite decide_False by lia. rewrite decide_True by lia. by rewrite Hx.
    + by rewrite decide_True by lia.
  - rewrite decide_False by lia. by rewrite decide_False by lia.
Qed.

Lemma destroy_from_lookup d n count i :
  ArenaVector.destroy_from d n count !! i =
    if decide (N.to_nat n ≤ i < N.to_nat n + count ∧ i < length d)
    then Some None else d !! i.
Proof.
  revert d n. induction count as [|count IH]; intros d n.
  { cbn [ArenaVector.destroy_from]. case_decide; [lia|done]. }
  cbn [ArenaVector.destroy_from]. rewrite IH. unfold ArenaVector.destroy.
  rewrite length_insert, list_lookup_insert.
  replace (N.to_nat (n + 1)) with (S (N.to_nat n)) by lia.
  destruct (decide (N.to_nat n ≤ i < N.to_nat n + S count ∧ i < length d))
    as [Hin|Hout].
  - destruct (decide (i = N.to_nat n)) as [->|Hne].
    + rewrite decide_False by lia. by rewrite decide_True by lia.
    + by rewrite decide_True by lia.
  - rewrite decide_False by lia. by rewrite decide_False by lia.
Qed.

(** Filling a block from a buffer's objects, as [reallocate] and the copy
    constructor do. *)
Lemma construct_from_fill l rest d k :
  length d = length l + k →
  ArenaVector.construct_from (Some ((Some <$> l) ++ rest)) d 0 (length l)
  = (Some <$> l) ++ drop (length l) d.
Proof.
  intros Hd. apply list_eq. intros i.
  rewrite construct_from_lookup by (simpl; lia). simpl.
  destruct (decide (i < length l)) as [Hi|Hi].
  - rewrite decide_True by lia.
    rewrite lookup_app_l by (by rewrite length_fmap).
    rewrite list_lookup_fmap.
    by destruct (lookup_lt_is_Some_2 l i Hi) as [x ->].
  - rewrite decide_False by lia.
    rewrite lookup_app_r by (rewrite length_fmap; lia).
    rewrite length_fmap, lookup_drop. f_equal. lia.
Qed.

Lemma holds_capacity (b : ArenaVector.vector_buffer T) l :
  holds b l → (N.of_nat (length l) ≤ ArenaVector.capacity b)%N.
Proof. intros (Hs & Hle & _). by rewrite <- Hs. Qed.

Lemma holds_empty_buffer : holds (@ArenaVector.empty_buffer T) [].
Proof. by repeat split. Qed.

Lemma reallocate_holds (b : ArenaVector.vector_buffer T) l new_capacity :
  holds b l →
  (ArenaVector.size b ≤ new_capacity < 2 ^ 64)%N →
  holds (ArenaVector.reallocate b new_capacity) l ∧
  ArenaVector.capacity (ArenaVector.reallocate b new_capacity) = new_capacity.
Proof.
  intros (Hs & Hle & Hcap & Hd) Hnew. destruct b as [d c s]. simpl in *.
  split; [|done]. unfold ArenaVector.reallocate, holds. simpl.
  split; [done|]. split; [lia|]. split; [lia|].
  assert (N.to_nat s = length l) as -> by lia.
  unfold ArenaVector.allocate. destruct d as [d|].
  - subst d. rewrite (construct_from_fill l _ _ (N.to_nat new_capacity - length l))
      by (rewrite length_replicate; lia).
    by rewrite drop_replicate.
  - assert (l = []) as -> by (destruct l; [done|simpl in *; lia]).
    simpl. by rewrite Nat.sub_0_r.
Qed.

Lemma construct_holds (b : ArenaVector.vector_buffer T) l item :
  holds b l →
  (ArenaVector.size b < ArenaVector.capacity b)%N →
  holds
    (ArenaVector.Buffer
       (option_map (λ d, ArenaVector.construct d (ArenaVector.size b) item)
          (ArenaVector.data b))
       (ArenaVector.capacity b) ((ArenaVector.size b + 1) mod 2 ^ 64)%N)
    (l ++ [item]).
Proof.
  intros (Hs & Hle & Hcap & Hd) Hlt. destruct b as [d c s]. simpl in *.
  unfold holds. simpl. rewrite length_app. simpl.
  rewrite N.mod_small by lia.
  split; [lia|]. split; [lia|]. split; [done|].
  destruct d as [d|]; [|lia]. simpl. subst d. unfold ArenaVector.construct.
  assert (N.to_nat s = length l) as -> by lia.
  rewrite insert_app_r_alt by (by rewrite length_fmap).
  rewrite length_fmap, Nat.sub_diag.
  assert (N.to_nat c - length l = S (N.to_nat c - (length l + 1))) as -> by lia.
  simpl. by rewrite fmap_app, <- app_assoc.
Qed.

Lemma push_back_holds (v : ArenaVector.vector T) l item :
  holds (ArenaVector.buffer_ v) l →
  (ArenaVector.capacity (ArenaVector.buffer_ v) * 3 < 2 ^ 64)%N →
  holds (ArenaVector.buffer_ (ArenaVector.push_back v item)) (l ++ [item]) ∧
  ArenaVector.capacity (ArenaVector.buffer_ (ArenaVector.push_back v item))
  = (if (N.of_nat (length l) =? ArenaVector.capacity (ArenaVector.buffer_ v))%N
     then ArenaVector.capacity (ArenaVector.buffer_ v) * 3 / 2 + 16
     else ArenaVector.capacity (ArenaVector.buffer_ v))%N.
Proof.
  intros Hh H3. destruct v as [b]. simpl in *.
  pose proof Hh as (Hs & Hle & Hcap & _). rewrite <- Hs.
  unfold ArenaVector.push_back. simpl.
  destruct (N.eqb_spec (ArenaVector.size b) (ArenaVector.capacity b)) as [Heq|Hne].
  - rewrite (N.mod_small (ArenaVector.capacity b * 3)) by done.
    set (c := ArenaVector.capacity b) in *.
    assert (c ≤ c * 3 / 2 ∧ c * 3 / 2 ≤ c * 3)%N as [Hlo Hhi].
    { pose proof (N.Div0.mul_div_le (c * 3) 2).
      pose proof (N.Div0.div_mod (c * 3) 2).
      pose proof (N.mod_lt (c * 3) 2). lia. }
    assert (c * 3 / 2 + 16 < 2 ^ 64)%N as Hbound.
    { pose proof (N.Div0.mul_div_le (c * 3) 2). lia. }
    rewrite (N.mod_small _ _ Hbound).
    destruct (reallocate_holds b l (c * 3 / 2 + 16)%N Hh) as [Hh1 Hc1]; [lia|].
    split; [|done].
    apply (construct_holds _ l item Hh1). rewrite Hc1. simpl. lia.
  - split; [|done]. apply (construct_holds b l item Hh). lia.
Qed.

Lemma pop_back_holds (v : ArenaVector.vector T) l :
  holds (ArenaVector.buffer_ v) l →
  holds (ArenaVector.buffer_ (ArenaVector.pop_back v)) (removelast l) ∧
  ArenaVector.capacity (ArenaVector.buffer_ (ArenaVector.pop_back v))
  = ArenaVector.capacity (ArenaVector.buffer_ v).
Proof.
  intros Hh. destruct v as [[d c s]]. pose proof Hh as (Hs & Hle & Hcap & Hd).
  simpl in *. unfold ArenaVector.pop_back. simpl.
  destruct (N.eqb_spec s 0) as [Hz|Hnz].
  { assert (l = []) as -> by (destruct l; [done|simpl in *; lia]). done. }
  split; [|done].
  destruct (exists_last (l := l)) as (l' & x & ->).
  { intros ->. simpl in *. lia. }
  rewrite removelast_last. rewrite length_app in *. simpl in *.
  unfold holds. simpl. split; [lia|]. split; [lia|]. split; [done|].
  destruct d as [d|]; [|lia]. simpl. subst d. unfold ArenaVector.destroy.
  assert (N.to_nat (s - 1) = length l') as -> by lia.
  rewrite fmap_app, <- app_assoc. simpl.
  rewrite insert_app_r_alt by (by rewrite length_fmap).
  rewrite length_fmap, Nat.sub_diag. simpl.
  assert (N.to_nat c - length l' = S (N.to_nat c - (length l' + 1))) as -> by lia.
  done.
Qed.

Lemma at_holds (b : ArenaVector.vector_buffer T) l i :
  holds b l → ArenaVector.at_ (ArenaVector.data b) i = l !! N.to_nat i.
Proof.
  intros (Hs & Hle & Hcap & Hd). unfold ArenaVector.at_.
  destruct (ArenaVector.data b) as [d|].
  - subst d. rewrite layout_lookup.
    destruct (decide (N.to_nat i < length l)) as [Hi|Hi].
    + by destruct (lookup_lt_is_Some_2 l _ Hi) as [x ->].
    + rewrite (proj2 (lookup_ge_None l (N.to_nat i))) by lia.
      by case_decide.
  - symmetry. apply lookup_ge_None. lia.
Qed.

Lemma observers_hold (v : ArenaVector.vector T) l :
  holds (ArenaVector.buffer_ v) l →
  ArenaVector.size (ArenaVector.buffer_ v) = N.of_nat (length l) ∧
  (ArenaVector.empty v = true ↔ l = []) ∧
  ArenaVector.front v = head l ∧
  ArenaVector.back v = last l.
Proof.
  intros Hh. pose proof Hh as (Hs & Hle & Hcap & _).
  split; [done|]. split; [|split].
  - unfold ArenaVector.empty. rewrite Hs, N.eqb_eq.
    destruct l; simpl; [done|]. split; [lia|done].
  - unfold ArenaVector.front. rewrite (at_holds _ l) by done.
    by destruct l.
  - unfold ArenaVector.back. rewrite (at_holds _ l) by done. rewrite Hs.
    destruct (decide (l = [])) as [->|Hne]; [done|].
    destruct (exists_last Hne) as (l' & x & ->).
    rewrite last_snoc, length_app. simpl.
    rewrite length_app in Hs. simpl in Hs.
    assert (((N.of_nat (length l' + 1) + 2 ^ 64 - 1) mod 2 ^ 64)%N
            = N.of_nat (length l')) as ->.
    { replace (N.of_nat (length l' + 1) + 2 ^ 64 - 1)%N
        with (N.of_nat (length l') + 1 * 2 ^ 64)%N by lia.
      rewrite N.Div0.mod_add. apply N.mod_small. lia. }
    rewrite Nat2N.id. rewrite lookup_app_r by done.
    by rewrite Nat.sub_diag.
Qed.
End vector_facts.

Section vector_runs.
Context {T : Type}.
Implicit Types (l : list T) (cs : list (ArenaVector.call T)).

Lemma elements_after_snoc cs c :
  elements_after (cs ++ [c]) = elements_step (elements_after cs) c.
Proof. unfold elements_after. by rewrite foldl_app. Qed.

Lemma vector_run_snoc cs c :
  ArenaVector.run ArenaVector.empty_vector (cs ++ [c])
  = ArenaVector.step (ArenaVector.run ArenaVector.empty_vector cs) c.
Proof. unfold ArenaVector.run. by rewrite foldl_app. Qed.

(** A run of [k] calls holds what the calls say, in a block of at most
    [2 * k + 16] slots. *)
Lemma vector_run_spec cs :
  (N.of_nat (length cs) < 2 ^ 60)%N →
  holds (ArenaVector.buffer_ (ArenaVector.run ArenaVector.empty_vector cs))
    (elements_after cs) ∧
  (ArenaVector.capacity
     (ArenaVector.buffer_ (ArenaVector.run ArenaVector.empty_vector cs))
   ≤ 2 * N.of_nat (length cs) + 16)%N ∧
  length (elements_after cs) ≤ length cs ∧
  (ArenaVector.capacity
     (ArenaVector.buffer_ (ArenaVector.run ArenaVector.empty_vector cs)) = 0%N
   ↔ Forall (λ c, c = ArenaVector.Pop) cs).
Proof.
  induction cs as [|c cs IH] using rev_ind; intros Hbound.
  { split; [apply holds_empty_buffer|]. split; [simpl; lia|].
    split; [done|]. split; [by constructor|done]. }
  rewrite length_app in *. simpl in Hbound |- *.
  destruct IH as (Hh & Hcap & Hlen & Hzero); [lia|].
  rewrite vector_run_snoc, elements_after_snoc.
  set (v := ArenaVector.run ArenaVector.empty_vector cs) in *.
  set (l := elements_after cs) in *.
  rewrite Forall_app, Forall_singleton.
  destruct c as [item|]; cbn [ArenaVector.step elements_step].
  - destruct (push_back_holds v l item Hh) as [Hh' Hc']; [lia|].
    split; [done|]. rewrite Hc'. rewrite length_app. simpl.
    pose proof (holds_capacity _ _ Hh) as Hsz.
    assert (ArenaVector.capacity (ArenaVector.buffer_ v) * 3 / 2
            ≤ 2 * ArenaVector.capacity (ArenaVector.buffer_ v))%N as Hdiv.
    { apply N.Div0.div_le_upper_bound. lia. }
    destruct (N.eqb_spec (N.of_nat (length l))
                (ArenaVector.capacity (ArenaVector.buffer_ v))) as [Heq|Hne].
    + split; [lia|]. split; [lia|].
      split; [intros [_ Hz]%N.eq_add_0; discriminate|by intros [_ ?]].
    + split; [lia|]. split; [lia|].
      split; [intros Hz; exfalso; clear -Hz Hsz Hne; lia|by intros [_ ?]].
  - destruct (pop_back_holds v l Hh) as [Hh' Hc'].
    split; [done|]. rewrite Hc'. split; [lia|]. split.
    + destruct (decide (l = [])) as [->|Hne]; [simpl; lia|].
      destruct (exists_last Hne) as (l' & x & Hl). rewrite Hl in *.
      rewrite removelast_last. rewrite length_app in Hlen. simpl in Hlen. lia.
    + rewrite Hzero. intuition.
Qed.
End vector_runs.

(** X22. A vector grown and shrunk from the empty one by [push_back] and
    [pop_back] (fewer than [2 ^ 60] calls) behaves as the list of its
    elements: the buffer holds exactly the elements pushed and not yet
    popped, in order, [pop_back] on an empty vector does nothing, [size()]
    is their number, [empty()] tells whether there is none, and [front()]
    and [back()] are the first and the last of them. *)
Theorem vector_run_elements :
  ∀ (T : Type) (cs : list (ArenaVector.call T)),
    (N.of_nat (length cs) < 2 ^ 60)%N →
    let v := ArenaVector.run ArenaVector.empty_vector cs in
    let l := elements_after cs in
    holds (ArenaVector.buffer_ v) l ∧
    ArenaVector.size (ArenaVector.buffer_ v) = N.of_nat (length l) ∧
    (ArenaVector.empty v = true ↔ l = []) ∧
    ArenaVector.front v = head l ∧
    ArenaVector.back v = last l.
Proof.
  intros T cs Hbound v l.
  destruct (vector_run_spec cs Hbound) as (Hh & _).
  split; [done|]. by apply observers_hold.
Qed.

Lemma vector_run_elements_witness :
  let v := ArenaVector.run ArenaVector.empty_vector
             [ArenaVector.Pop; ArenaVector.Push 1%Z; ArenaVector.Push 2%Z;
              ArenaVector.Push 3%Z; ArenaVector.Pop] in
  ArenaVector.front v = Some 1%Z ∧ ArenaVector.back v = Some 2%Z.
Proof.
  intros v.
  destruct (vector_run_elements Z
              [ArenaVector.Pop; ArenaVector.Push 1%Z; ArenaVector.Push 2%Z;
               ArenaVector.Push 3%Z; ArenaVector.Pop])
    as (_ & _ & _ & Hfront & Hback).
  - vm_compute. reflexivity.
  - split; [exact Hfront|exact Hback].
Defined.

(** X23. In every vector grown and shrunk from the empty one (fewer than
    [2 ^ 60] calls): the capacity is 0 exactly as long as nothing was
    pushed, [pop_back] keeps the capacity, and [push_back] keeps it when
    there is a free slot and sets it to [capacity * 3 / 2 + 16], without
    wrapping around, when the buffer is full; [size <= capacity] holds
    afterwards. *)
Theorem vector_capacity_growth :
  ∀ (T : Type) (cs : list (ArenaVector.call T)) (item : T),
    (N.of_nat (length cs) < 2 ^ 60)%N →
    let v := ArenaVector.run ArenaVector.empty_vector cs in
    let capacity_of w := ArenaVector.capacity (ArenaVector.buffer_ w) in
    let size_of w := ArenaVector.size (ArenaVector.buffer_ w) in
    (capacity_of v = 0%N ↔ Forall (λ c, c = ArenaVector.Pop) cs) ∧
    capacity_of (ArenaVector.pop_back v) = capacity_of v ∧
    capacity_of (ArenaVector.push_back v item)
    = (if (size_of v =? capacity_of v)%N
       then capacity_of v * 3 / 2 + 16 else capacity_of v)%N ∧
    (capacity_of v < capacity_of (ArenaVector.push_back v item)
     ↔ size_of v = capacity_of v)%N ∧
    (size_of (ArenaVector.push_back v item)
     ≤ capacity_of (ArenaVector.push_back v item))%N.
Proof.
  intros T cs item Hbound v capacity_of size_of. subst capacity_of size_of.
  destruct (vector_run_spec cs Hbound) as (Hh & Hcap & _ & Hzero). fold v in Hh, Hcap, Hzero.
  cbv beta. split; [done|].
  destruct (pop_back_holds v _ Hh) as [_ Hpop]. split; [done|].
  destruct (push_back_holds v _ item Hh) as [Hh' Hpush]; [lia|].
  pose proof Hh as (Hs & Hle & _). pose proof Hh' as (_ & Hle' & _).
  rewrite Hs, Hpush. split; [done|]. split; [|by rewrite <- Hpush].
  set (c := ArenaVector.capacity (ArenaVector.buffer_ v)) in *.
  assert (c ≤ c * 3 / 2)%N as Hlo.
  { pose proof (N.Div0.div_mod (c * 3) 2).
    pose proof (N.mod_lt (c * 3) 2). lia. }
  destruct (N.eqb_spec (N.of_nat (length (elements_after cs))) c); split; lia.
Qed.

Lemma vector_capacity_growth_witness :
  let v := ArenaVector.run ArenaVector.empty_vector [ArenaVector.Push 1%Z] in
  ArenaVector.capacity (ArenaVector.buffer_ (ArenaVector.pop_back v))
  = ArenaVector.capacity (ArenaVector.buffer_ v).
Proof.
  intros v.
  destruct (vector_capacity_growth Z [ArenaVector.Push 1%Z] 2%Z)
    as (_ & Hpop & _).
  - vm_compute. reflexivity.
  - exact Hpop.
Defined.

Section vector_copies.
Context {T : Type}.
Implicit Types (l : list T) (d : list (option T)).

(** Reading the objects of a buffer that holds [l] into a block. *)
Lemma copy_from_lookup (other : ArenaVector.vector_buffer T) l d n count i :
  holds other l →
  N.to_nat n + count ≤ length l →
  ArenaVector.construct_from (ArenaVector.data other) d n count !! i =
    if decide (N.to_nat n ≤ i < N.to_nat n + count ∧ i < length d)
    then Some (l !! i) else d !! i.
Proof.
  intros (Hs & Hle & Hcap & Hd) Hcount.
  destruct (ArenaVector.data other) as [d'|].
  - subst d'. by apply construct_from_lookup.
  - assert (count = 0) as ->.
    { destruct l; simpl in *; lia. }
    cbn [ArenaVector.construct_from]. by rewrite decide_False by lia.
Qed.

Lemma copy_construct_same (b : ArenaVector.vector_buffer T) l :
  holds b l → ArenaVector.copy_construct b = b.
Proof.
  intros (Hs & Hle & Hcap & Hd). destruct b as [d c s]. simpl in *.
  unfold ArenaVector.copy_construct. simpl. destruct d as [d|].
  - f_equal. f_equal. subst d. assert (N.to_nat s = length l) as -> by lia.
    unfold ArenaVector.allocate.
    rewrite (construct_from_fill l _ _ (N.to_nat c - length l))
      by (rewrite length_replicate; lia).
    by rewrite drop_replicate.
  - f_equal; lia.
Qed.
End vector_copies.

(** X24. The copy constructor gives a buffer with the same elements, size
    and capacity as the one it copies; the move constructor hands the
    elements over and leaves the source as a new, empty buffer. *)
Theorem vector_copy_and_move :
  ∀ (T : Type) (b : ArenaVector.vector_buffer T) (l : list T),
    holds b l →
    holds (ArenaVector.copy_construct b) l ∧
    ArenaVector.capacity (ArenaVector.copy_construct b) = ArenaVector.capacity b ∧
    holds (ArenaVector.move_construct b).1 l ∧
    ArenaVector.capacity (ArenaVector.move_construct b).1 = ArenaVector.capacity b ∧
    (ArenaVector.move_construct b).2 = ArenaVector.empty_buffer ∧
    ArenaVector.empty (ArenaVector.Vec (ArenaVector.move_construct b).2) = true.
Proof.
  intros T b l Hh. rewrite (copy_construct_same b l Hh).
  split; [done|]. split; [done|]. by destruct b.
Qed.

Lemma vector_copy_and_move_witness :
  let b := ArenaVector.buffer_
             (ArenaVector.run ArenaVector.empty_vector
                [ArenaVector.Push 1%Z; ArenaVector.Push 2%Z]) in
  holds (ArenaVector.copy_construct b) [1%Z; 2%Z].
Proof.
  intros b.
  apply (vector_copy_and_move Z b [1%Z; 2%Z]).
  repeat split; vm_compute; (reflexivity || discriminate).
Defined.

(** X25. Copy assignment, on a target holding [lt] and a source holding
    [lo].  When the target holds at least as many elements as the source,
    it ends holding the source's elements, in its own block.  When it holds
    fewer, the source's elements are all copied into the target's block, but
    [size] is not set to their number: it stays at the target's old size, or
    at 0 when a new block was allocated, so a new vector assigned from a
    vector with elements is still empty. *)
Theorem vector_copy_assign :
  ∀ (T : Type) (b other : ArenaVector.vector_buffer T) (lt lo : list T),
    holds b lt → holds other lo →
    let r := ArenaVector.copy_assign b other in
    (length lo ≤ length lt →
       holds r lo ∧ ArenaVector.capacity r = ArenaVector.capacity b) ∧
    (length lt < length lo →
       ArenaVector.size r
       = (if (ArenaVector.capacity b <? ArenaVector.size other)%N
          then 0%N else ArenaVector.size b) ∧
       (ArenaVector.size r < N.of_nat (length lo))%N ∧
       ∀ i, i < length lo →
         ArenaVector.at_ (ArenaVector.data r) (N.of_nat i) = lo !! i).
Proof.
  intros T b other lt lo Hb Ho r. subst r.
  pose proof Hb as (Hs & Hle & Hcap & Hd).
  pose proof Ho as (Hs' & Hle' & Hcap' & Hd').
  destruct b as [d c s]. simpl in *. unfold ArenaVector.copy_assign. simpl.
  split.
  - intros Hlen. rewrite (proj2 (N.ltb_ge c (ArenaVector.size other))) by lia.
    simpl. rewrite Hs'.
    destruct (N.ltb_spec (N.of_nat (length lo)) s) as [Hlt|Hge].
    + split; [|done]. unfold holds. simpl.
      split; [done|]. split; [lia|]. split; [done|].
      destruct d as [d|]; [|lia]. simpl. subst d.
      apply list_eq. intros i. rewrite destroy_from_lookup.
      unfold ArenaVector.copy_n.
      rewrite construct_from_length, length_app, length_fmap, length_replicate.
      rewrite (copy_from_lookup other lo) by (done || simpl; lia).
      rewrite length_app, length_fmap, length_replicate.
      rewrite !layout_lookup. simpl.
      repeat case_decide; (lia || done).
    + rewrite (proj2 (N.ltb_ge s (N.of_nat (length lo)))) by lia.
      split; [|done]. unfold holds. simpl.
      split; [lia|]. split; [lia|]. split; [done|].
      destruct d as [d|]; [|done]. simpl. subst d.
      apply list_eq. intros i. unfold ArenaVector.copy_n.
      rewrite (copy_from_lookup other lo) by (done || simpl; lia).
      rewrite length_app, length_fmap, length_replicate.
      rewrite !layout_lookup. simpl.
      assert (length lo = length lt) as Heq by lia. rewrite Heq.
      repeat case_decide; (lia || done).
  - intros Hlen.
    rewrite Hs'.
    destruct (N.ltb_spec c (N.of_nat (length lo))) as [Hsmall|Hfits]; simpl.
    + rewrite (proj2 (N.ltb_ge (N.of_nat (length lo)) 0)) by lia.
      rewrite (proj2 (N.ltb_lt 0 (N.of_nat (length lo)))) by lia. simpl.
      split; [done|]. split; [lia|]. intros i Hi.
      unfold ArenaVector.at_. rewrite Nat2N.id.
      unfold ArenaVector.copy_n. simpl.
      rewrite (copy_from_lookup other lo) by (done || simpl; lia).
      unfold ArenaVector.allocate. rewrite length_replicate.
      rewrite decide_True by (simpl; lia).
      by destruct (lookup_lt_is_Some_2 lo i Hi) as [x ->].
    + rewrite (proj2 (N.ltb_ge (N.of_nat (length lo)) s)) by lia.
      rewrite (proj2 (N.ltb_lt s (N.of_nat (length lo)))) by lia. simpl.
      split; [done|]. split; [lia|]. intros i Hi.
      destruct d as [d|]; [|lia]. simpl.
      unfold ArenaVector.at_. rewrite Nat2N.id. subst d.
      unfold ArenaVector.copy_n.
      rewrite (copy_from_lookup other lo) by (done || lia).
      rewrite construct_from_length, length_app, length_fmap, length_replicate.
      rewrite (copy_from_lookup other lo) by (done || simpl; lia).
      rewrite length_app, length_fmap, length_replicate. simpl.
      destruct (lookup_lt_is_Some_2 lo i Hi) as [x Hx]. rewrite Hx.
      destruct (decide (N.to_nat s ≤ i)).
      * by rewrite decide_True by lia.
      * rewrite decide_False by lia. by rewrite decide_True by lia.
Qed.

Lemma vector_copy_assign_witness :
  let other := ArenaVector.buffer_
                 (ArenaVector.run ArenaVector.empty_vector
                    [ArenaVector.Push 1%Z; ArenaVector.Push 2%Z]) in
  let r := ArenaVector.copy_assign ArenaVector.empty_buffer other in
  ArenaVector.size r = 0%N ∧
  ArenaVector.at_ (ArenaVector.data r) 1 = Some 2%Z.
Proof.
  intros other r.
  destruct (vector_copy_assign Z ArenaVector.empty_buffer other [] [1%Z; 2%Z])
    as [_ Hshort].
  - repeat split; vm_compute; (reflexivity || discriminate).
  - repeat split; vm_compute; (reflexivity || discriminate).
  - destruct Hshort as (Hsize & _ & Hat); [simpl; lia|].
    split; [exact Hsize|]. apply (Hat 1). simpl. lia.
Defined.

(** The scenarios of [TEST_SUITE("vector")], with [0xCEED] = 52973 and
    [0xDEAD] = 57005. *)
Example vector_test_default :
  let target := @ArenaVector.empty_vector Z in
  ArenaVector.empty target = true ∧
  ArenaVector.size (ArenaVector.buffer_ target) = 0%N ∧
  ArenaVector.capacity (ArenaVector.buffer_ target) = 0%N.
Proof. by vm_compute. Qed.

Example vector_test_push_push :
  let target :=
    ArenaVector.push_back
      (ArenaVector.push_back ArenaVector.empty_vector 52973%Z) 57005%Z in
  ArenaVector.empty target = false ∧
  ArenaVector.size (ArenaVector.buffer_ target) = 2%N ∧
  (0 < ArenaVector.capacity (ArenaVector.buffer_ target))%N ∧
  ArenaVector.back target = Some 57005%Z ∧
  ArenaVector.front target = Some 52973%Z.
Proof. by vm_compute. Qed.

Example vector_test_push_pop :
  let target :=
    ArenaVector.pop_back (ArenaVector.push_back ArenaVector.empty_vector 52973%Z) in
  ArenaVector.empty target = true ∧
  ArenaVector.size (ArenaVector.buffer_ target) = 0%N ∧
  (0 < ArenaVector.capacity (ArenaVector.buffer_ target))%N.
Proof. by vm_compute. Qed.

Example vector_test_push_push_copy :
  let source :=
    ArenaVector.push_back
      (ArenaVector.push_back ArenaVector.empty_vector 52973%Z) 57005%Z in
  let target := ArenaVector.Vec (ArenaVector.copy_construct (ArenaVector.buffer_ source)) in
  ArenaVector.size (ArenaVector.buffer_ source) = 2%N ∧
  ArenaVector.size (ArenaVector.buffer_ target) = 2%N ∧
  ArenaVector.back target = Some 57005%Z ∧
  ArenaVector.front target = Some 52973%Z.
Proof. by vm_compute. Qed.

Example vector_test_push_push_move :
  let source0 :=
    ArenaVector.push_back
      (ArenaVector.push_back ArenaVector.empty_vector 52973%Z) 57005%Z in
  let '(target, source) := ArenaVector.move_construct (ArenaVector.buffer_ source0) in
  ArenaVector.empty (ArenaVector.Vec source) = true ∧
  ArenaVector.capacity source = 0%N ∧
  ArenaVector.size target = 2%N ∧
  ArenaVector.back (ArenaVector.Vec target) = Some 57005%Z ∧
  ArenaVector.front (ArenaVector.Vec target) = Some 52973%Z.
Proof. by vm_compute. Qed.
